(** * simple-tree-db: the tree engine of [app/TreeDataBase.py]

    A shallow embedding of the three classes of [TreeDataBase.py]
    ([NodeIdentifier], [TreeNode], [TreeDataBase]) and the properties of
    the identifier model, the traversals and the store.

    Conventions of the embedding.
    - A Python [str] is a [string]; [","] and ["="] are single characters,
      so [str.split] on them is a split on one [ascii].
    - A Python [dict] with string keys is an association list in insertion
      order: assigning an existing key replaces the value where the key
      already stands, a new key goes to the end.
    - A raised exception is [Raise e].  In the methods of [TreeNode] every
      exception is raised before the first mutation, so the tree is then as
      it was at the call; the model gives no account of a store after one
      of its methods has raised.
    - A reference to a node of the tree owned by a root is the path of
      child indices leading to it ([ref]); mutation through a reference is
      a rebuild of the tree along that path. *)

From Stdlib Require Import List String Ascii Bool Arith Lia Permutation NArith.
Import ListNotations.
Local Open Scope string_scope.
Local Open Scope list_scope.
Set Warnings "-register-all".

(** ** Exceptions *)

Inductive exn : Type :=
| ValueError      (* dict() over a segment that is not a pair; unpacking *)
| IndexError      (* [list(...)[-1]] on an empty list *)
| StopIteration   (* [next(iter(...))] on an empty dict *)
| AttributeError  (* attribute of [None], attribute never assigned *)
| OSError.        (* [open] on an unusable path *)

Inductive res (A : Type) : Type :=
| Ok (a : A)
| Raise (e : exn).
Arguments Ok {A} a.
Arguments Raise {A} e.

Definition bind {A B : Type} (m : res A) (k : A -> res B) : res B :=
  match m with
  | Ok a => k a
  | Raise e => Raise e
  end.

Notation "x <- m ;; k" := (bind m (fun x => k))
  (at level 61, m at next level, right associativity).
Notation "' pat <- m ;; k" := (bind m (fun x => match x with pat => k end))
  (at level 61, pat pattern, m at next level, right associativity).

Fixpoint mapM {A B : Type} (f : A -> res B) (l : list A) : res (list B) :=
  match l with
  | [] => Ok []
  | a :: l' => b <- f a ;; bs <- mapM f l' ;; Ok (b :: bs)
  end.

(** ** Python strings *)

Module PyStr.

(** [s.split(sep)] for a one-character separator: never empty, the empty
    string splits into one empty piece. *)
Fixpoint split (sep : ascii) (s : string) : list string :=
  match s with
  | EmptyString => [EmptyString]
  | String c s' =>
      if Ascii.eqb c sep then EmptyString :: split sep s'
      else match split sep s' with
           | [] => [String c EmptyString]
           | w :: ws => String c w :: ws
           end
  end.

(** [sep.join(l)] *)
Definition join (sep : string) (l : list string) : string :=
  String.concat sep l.

(** [s.startswith(p)] *)
Definition startswith (s p : string) : bool := String.prefix p s.

(** [c in s] for a character *)
Fixpoint contains (c : ascii) (s : string) : bool :=
  match s with
  | EmptyString => false
  | String c' s' => Ascii.eqb c' c || contains c s'
  end.

End PyStr.

(** ** Python dicts with string keys *)

Module Dict.

Definition t (V : Type) : Type := list (string * V).

Definition keys {V} (d : t V) : list string := map fst d.

(** [d.get(k)] *)
Fixpoint get {V} (k : string) (d : t V) : option V :=
  match d with
  | [] => None
  | (k', v) :: d' => if String.eqb k' k then Some v else get k d'
  end.

(** [d[k] = v] *)
Fixpoint set {V} (k : string) (v : V) (d : t V) : t V :=
  match d with
  | [] => [(k, v)]
  | (k', v') :: d' =>
      if String.eqb k' k then (k', v) :: d' else (k', v') :: set k v d'
  end.

(** [dict(pairs)]: the pairs are assigned one after the other. *)
Definition assign {V} (d : t V) (kv : string * V) : t V :=
  set (fst kv) (snd kv) d.

Definition of_pairs {V} (l : list (string * V)) : t V :=
  fold_left assign l [].

(** [d1 == d2]: same number of keys, and every key of [d1] is in [d2] with
    an equal value.  Insertion order plays no part. *)
Definition eqb {V} (veqb : V -> V -> bool) (d1 d2 : t V) : bool :=
  Nat.eqb (List.length d1) (List.length d2)
  && forallb (fun kv => match get (fst kv) d2 with
                        | Some v => veqb (snd kv) v
                        | None => false
                        end) d1.

End Dict.

(** ** class NodeIdentifier *)

(** The one attribute of the class, [self.node_identifier], is a dict from
    strings to strings. *)
Definition NodeIdentifier : Type := Dict.t string.

Definition comma : ascii := ","%char.
Definition equals : ascii := "="%char.

(** [f"{k}={v}"] *)
Definition render_pair (kv : string * string) : string :=
  (fst kv ++ "=" ++ snd kv)%string.

(** What [dict] makes of one [kv.split("=")]: it takes sequences of
    length two only. *)
Definition pair_of_segment (kv : string) : res (string * string) :=
  match PyStr.split equals kv with
  | [k; v] => Ok (k, v)
  | _ => Raise ValueError
  end.

(** [dict(kv.split("=") for kv in identifier.split(","))] *)
Definition parse_identifier (identifier : string) : res NodeIdentifier :=
  pairs <- mapM pair_of_segment (PyStr.split comma identifier) ;;
  Ok (Dict.of_pairs pairs).

(** [NodeIdentifier(node_identifier)] with a string argument, as every
    caller in the module has it. *)
Definition NodeIdentifier_init (node_identifier : string) : res NodeIdentifier :=
  parse_identifier node_identifier.

(** [get_current_level_identifier]: [list(keys)[-1]] fails on an empty dict. *)
Definition get_current_level_identifier (self : NodeIdentifier) : res string :=
  match rev (Dict.keys self) with
  | [] => Raise IndexError
  | last_key :: _ =>
      match Dict.get last_key self with
      | Some v => Ok (last_key ++ "=" ++ v)%string
      | None => Raise IndexError (* a key of the dict is always found *)
      end
  end.

(** [__str__] *)
Definition NodeIdentifier_str (self : NodeIdentifier) : string :=
  PyStr.join "," (map render_pair self).

(** [__eq__] *)
Definition NodeIdentifier_eq (self other : NodeIdentifier) : bool :=
  Dict.eqb String.eqb self other.

(** [get] and [items] *)
Definition NodeIdentifier_get (self : NodeIdentifier) (key : string) : option string :=
  Dict.get key self.

Definition NodeIdentifier_items (self : NodeIdentifier) : list (string * string) :=
  self.

(** ** class TreeNode *)

(** [uuid.uuid4()] draws a 128-bit value; the value drawn is an argument of
    the constructor.  The payload is a mapping from strings, opaque to
    every method. *)
Definition uuid : Type := N.
Definition payload : Type := list (string * string).

Inductive TreeNode : Type :=
| mkTreeNode (id : uuid) (data : payload) (children : list TreeNode)
             (node_identifier : NodeIdentifier).

Definition id (n : TreeNode) : uuid :=
  match n with mkTreeNode i _ _ _ => i end.
Definition data (n : TreeNode) : payload :=
  match n with mkTreeNode _ d _ _ => d end.
Definition children (n : TreeNode) : list TreeNode :=
  match n with mkTreeNode _ _ cs _ => cs end.
Definition node_identifier (n : TreeNode) : NodeIdentifier :=
  match n with mkTreeNode _ _ _ nid => nid end.

(** [__init__] *)
Definition TreeNode_init (u : uuid) (data : payload) (node_identifier : string)
  : res TreeNode :=
  nid <- NodeIdentifier_init node_identifier ;;
  Ok (mkTreeNode u data [] nid).

(** References into the tree owned by a root. *)
Definition ref : Type := list nat.

Fixpoint node_at (t : TreeNode) (r : ref) : option TreeNode :=
  match r with
  | [] => Some t
  | i :: r' => match nth_error (children t) i with
               | Some c => node_at c r'
               | None => None
               end
  end.

(** The children list with its [i]-th element rewritten. *)
Fixpoint modify_nth {A} (f : A -> A) (i : nat) (l : list A) : list A :=
  match l, i with
  | [], _ => []
  | a :: l', O => f a :: l'
  | a :: l', S i' => a :: modify_nth f i' l'
  end.

(** An in-place mutation [f] of the node a reference points to. *)
Fixpoint modify_at (f : TreeNode -> TreeNode) (r : ref) (t : TreeNode) : TreeNode :=
  match r with
  | [] => f t
  | i :: r' =>
      mkTreeNode (id t) (data t) (modify_nth (modify_at f r') i (children t))
                 (node_identifier t)
  end.

(** [is_valid_new_node_identifier] *)
Definition is_valid_new_node_identifier (self : TreeNode) (new_node_identifier : string)
  : res bool :=
  match Dict.keys (node_identifier self) with
  | [] => Raise StopIteration
  | root_key :: _ => Ok (PyStr.startswith new_node_identifier (root_key ++ "=")%string)
  end.

(** [add_child]: [self.children.append(child_node)] *)
Definition add_child (child_node : TreeNode) (self : TreeNode) : TreeNode :=
  mkTreeNode (id self) (data self) (children self ++ [child_node]) (node_identifier self).

(** [node.data = new_data] *)
Definition set_data (new_data : payload) (self : TreeNode) : TreeNode :=
  mkTreeNode (id self) new_data (children self) (node_identifier self).

(** [_extract_node_identifiers] *)
Fixpoint _extract_node_identifiers (self : TreeNode) : list NodeIdentifier :=
  match self with
  | mkTreeNode _ _ cs nid => nid :: flat_map _extract_node_identifiers cs
  end.

(** [beauty_dict]: the keys are ["id"], ["data"] and ["node_id"]. *)
Record beauty : Type := mkBeauty {
  b_id : uuid;
  b_data : payload;
  b_node_id : NodeIdentifier
}.

Definition beauty_dict (self : TreeNode) : beauty :=
  mkBeauty (id self) (data self) (node_identifier self).

(** [get_all_children] *)
Fixpoint get_all_children (self : TreeNode) : list beauty :=
  match self with
  | mkTreeNode i d cs nid => mkBeauty i d nid :: flat_map get_all_children cs
  end.

(** The test of [_search]:
    [all(self.node_identifier.get(k) == v for k, v in query_dict.items())];
    [None == v] is false for a string [v]. *)
Definition query_matches (query_dict self_identifier : NodeIdentifier) : bool :=
  forallb (fun kv => match NodeIdentifier_get self_identifier (fst kv) with
                     | Some v' => String.eqb v' (snd kv)
                     | None => false
                     end)
          (NodeIdentifier_items query_dict).

(** [for child in children: result = f(child); if result: return result],
    with the index of the child that answered. *)
Definition first_child {A B} (f : A -> option B) : nat -> list A -> option (nat * B) :=
  fix go (i : nat) (cs : list A) : option (nat * B) :=
    match cs with
    | [] => None
    | child :: cs' => match f child with
                      | Some b => Some (i, b)
                      | None => go (S i) cs'
                      end
    end.

(** [_search]; its [current_level] argument is never read.  The node
    returned is given by its reference from [self]. *)
Fixpoint _search (query_dict : NodeIdentifier) (self : TreeNode) : option ref :=
  match self with
  | mkTreeNode _ _ cs nid =>
      if query_matches query_dict nid then Some []
      else match first_child (_search query_dict) 0 cs with
           | Some (i, r) => Some (i :: r)
           | None => None
           end
  end.

(** [find_by_query] *)
Definition find_by_query (self : TreeNode) (query : string) : res (option ref) :=
  node_idx <- NodeIdentifier_init query ;;
  Ok (_search node_idx self).

(** [update_node] *)
Definition update_node (self : TreeNode) (query : string) (new_data : payload)
  : res (TreeNode * (bool * string)) :=
  node <- find_by_query self query ;;
  match node with
  | Some r => Ok (modify_at (set_data new_data) r self, (true, "Node updated successfully."))
  | None => Ok (self, (false, "Node not found."))
  end.

(** The comparison inside [_delete_node]: the left operand is evaluated
    first, the query is parsed again at every child. *)
Definition same_current_level (query : string) (child : TreeNode) : res bool :=
  a <- get_current_level_identifier (node_identifier child) ;;
  q <- NodeIdentifier_init query ;;
  b <- get_current_level_identifier q ;;
  Ok (String.eqb a b).

(** The loop of [_delete_node] over [enumerate(parent.children)]: the
    children list after the loop and what the loop returns. *)
Definition delete_among {A} (test : A -> res bool) (rec : A -> res (A * bool))
  : list A -> res (list A * bool) :=
  fix go (cs : list A) : res (list A * bool) :=
    match cs with
    | [] => Ok ([], false)
    | child :: rest =>
        hit <- test child ;;
        if hit then Ok (rest, true)
        else
          ' (child', deleted) <- rec child ;;
          if deleted then Ok (child' :: rest, true)
          else ' (rest', r) <- go rest ;; Ok (child' :: rest', r)
    end.

(** The inner function [_delete_node(parent, query)]. *)
Fixpoint _delete_node (query : string) (parent : TreeNode) : res (TreeNode * bool) :=
  match parent with
  | mkTreeNode i d cs nid =>
      ' (cs', r) <- delete_among (same_current_level query) (_delete_node query) cs ;;
      Ok (mkTreeNode i d cs' nid, r)
  end.

(** [delete_node] *)
Definition delete_node (self : TreeNode) (query : string)
  : res (TreeNode * (bool * string)) :=
  found <- find_by_query self query ;;
  match found with
  | Some _ =>
      ' (self', deleted) <- _delete_node query self ;;
      if deleted then Ok (self', (true, "Node deleted successfully."))
      else Ok (self', (false, "Node not found."))
  | None => Ok (self, (false, "Node not found."))
  end.

(** [insert_node]; [u] is the identity drawn for the new node. *)
Definition insert_node (self : TreeNode) (u : uuid) (new_node_data : payload)
           (new_node_identifier : string) : res (TreeNode * (bool * string)) :=
  valid <- is_valid_new_node_identifier self new_node_identifier ;;
  if negb valid then Ok (self, (false, "Invalid new node identifier."))
  else
    new_node_identifier_dict <- NodeIdentifier_init new_node_identifier ;;
    match rev (NodeIdentifier_items new_node_identifier_dict) with
    | [] => Raise ValueError
    | new_node_own_identifier :: rest =>
        let parent_identifier_items := rev rest in
        let parent_identifier := PyStr.join "," (map render_pair parent_identifier_items) in
        parent_node <- find_by_query self parent_identifier ;;
        match parent_node with
        | None => Ok (self, (false, "Parent node not found."))
        | Some r =>
            if existsb (NodeIdentifier_eq new_node_identifier_dict)
                       (_extract_node_identifiers self)
            then Ok (self, (false, "A node with this identifier already exists."))
            else
              new_node <- TreeNode_init u new_node_data new_node_identifier ;;
              Ok (modify_at (add_child new_node) r self,
                  (true, "Node inserted successfully."))
        end
    end.

(** What [get_tree_structure] returns: the empty list of a leaf, or the
    dict of an inner node. *)
Inductive structure : Type :=
| EmptyList
| Mapping (m : list (string * structure)).

(** The loop [node_dict[key(child)] = value(child)]; the right-hand side
    of the assignment is evaluated first. *)
Definition fill_dict {A V} (key : A -> res string) (value : A -> res V)
  : list A -> Dict.t V -> res (Dict.t V) :=
  fix go (cs : list A) (node_dict : Dict.t V) : res (Dict.t V) :=
    match cs with
    | [] => Ok node_dict
    | child :: cs' =>
        v <- value child ;;
        k <- key child ;;
        go cs' (Dict.set k v node_dict)
    end.

(** [get_tree_structure] *)
Fixpoint get_tree_structure (self : TreeNode) : res structure :=
  match self with
  | mkTreeNode _ _ cs _ =>
      match cs with
      | [] => Ok EmptyList
      | _ :: _ =>
          node_dict <- fill_dict (fun child => get_current_level_identifier (node_identifier child))
                                 get_tree_structure cs [] ;;
          Ok (Mapping node_dict)
      end
  end.

(** ** class TreeDataBase *)

(** [root] starts as [None]; [db_path] is an attribute that [__init__]
    does not assign.  The file system holds the files written, the newest
    first, a file being the pickled [self.root], and the paths that [open]
    refuses to open for writing (a missing directory, a directory, a file
    without the permission). *)
Record TreeDataBase : Type := mkTreeDataBase {
  root : option TreeNode;
  db_path : option string
}.

Record disk : Type := mkDisk {
  files : list (string * option TreeNode);
  unwritable : list string
}.

Definition empty_disk : disk := mkDisk [] [].

Definition TreeDataBase_init : TreeDataBase := mkTreeDataBase None None.

Definition file_exists (filename : string) (fs : disk) : bool :=
  existsb (fun f => String.eqb (fst f) filename) (files fs).

Fixpoint lookup_file (filename : string) (l : list (string * option TreeNode))
  : option (option TreeNode) :=
  match l with
  | [] => None
  | (name, blob) :: l' => if String.eqb name filename then Some blob else lookup_file filename l'
  end.

Definition file_read (filename : string) (fs : disk) : option (option TreeNode) :=
  lookup_file filename (files fs).

(** [open(filename, "wb")]: the empty path and the refused paths raise. *)
Definition can_write (filename : string) (fs : disk) : bool :=
  negb (String.eqb filename "") && negb (existsb (String.eqb filename) (unwritable fs)).

Definition file_write (filename : string) (blob : option TreeNode) (fs : disk) : disk :=
  mkDisk ((filename, blob) :: files fs) (unwritable fs).

(** [save_tree]: [open] raises an [OSError] ([FileNotFoundError],
    [PermissionError], [IsADirectoryError]) or [pickle.dump] writes
    [self.root]. *)
Definition save_tree (self : TreeDataBase) (filename : string) (fs : disk) : res disk :=
  if can_write filename fs then Ok (file_write filename (root self) fs)
  else Raise OSError.

(** [save_cb] *)
Definition save_cb (self : TreeDataBase) (fs : disk) : res disk :=
  match db_path self with
  | None => Raise AttributeError
  | Some p => if String.eqb p "" then Ok fs else save_tree self p fs
  end.

(** [create_tree_db] *)
Definition create_tree_db (self : TreeDataBase) (fs : disk) (path : string) (u : uuid)
           (data : payload) (node_identifier : string) : res (TreeDataBase * disk) :=
  r <- TreeNode_init u data node_identifier ;;
  let self' := mkTreeDataBase (Some r) (Some path) in
  fs' <- save_tree self' path fs ;;
  Ok (self', fs').

(** [insert], [update], [delete]: [self.save_cb] is a bound method, hence
    true in [success and self.save_cb]. *)
Definition insert (self : TreeDataBase) (fs : disk) (u : uuid) (new_node_data : payload)
           (new_node_identifier : string) : res (TreeDataBase * disk * (bool * string)) :=
  match root self with
  | None => Raise AttributeError
  | Some r =>
      ' (r', (success, message)) <- insert_node r u new_node_data new_node_identifier ;;
      let self' := mkTreeDataBase (Some r') (db_path self) in
      if success
      then fs' <- save_cb self' fs ;; Ok (self', fs', (success, message))
      else Ok (self', fs, (success, message))
  end.

Definition update (self : TreeDataBase) (fs : disk) (query : string) (new_data : payload)
  : res (TreeDataBase * disk * (bool * string)) :=
  match root self with
  | None => Raise AttributeError
  | Some r =>
      ' (r', (success, message)) <- update_node r query new_data ;;
      let self' := mkTreeDataBase (Some r') (db_path self) in
      if success
      then fs' <- save_cb self' fs ;; Ok (self', fs', (success, message))
      else Ok (self', fs, (success, message))
  end.

Definition delete (self : TreeDataBase) (fs : disk) (query : string)
  : res (TreeDataBase * disk * (bool * string)) :=
  match root self with
  | None => Raise AttributeError
  | Some r =>
      ' (r', (success, message)) <- delete_node r query ;;
      let self' := mkTreeDataBase (Some r') (db_path self) in
      if success
      then fs' <- save_cb self' fs ;; Ok (self', fs', (success, message))
      else Ok (self', fs, (success, message))
  end.

(** [query]: the store and the files come back as they went in. *)
Definition query (self : TreeDataBase) (fs : disk) (query : string)
  : res (TreeDataBase * disk * option ref) :=
  match root self with
  | None => Raise AttributeError
  | Some r => found <- find_by_query r query ;; Ok (self, fs, found)
  end.

(** [get_all_children] and [get_tree] of the store *)
Definition TreeDataBase_get_all_children (self : TreeDataBase) : res (list beauty) :=
  match root self with
  | None => Raise AttributeError
  | Some r => Ok (get_all_children r)
  end.

Definition get_tree (self : TreeDataBase) : res structure :=
  match root self with
  | None => Raise AttributeError
  | Some r => get_tree_structure r
  end.

(** [load_from_file]; [root_id] is [None] or a string, [u] the identity
    drawn if a root is made. *)
Definition load_from_file (self : TreeDataBase) (fs : disk) (filename : string)
           (root_id : option string) (u : uuid) : res (TreeDataBase * disk * bool) :=
  let self1 := mkTreeDataBase (root self) (Some filename) in
  if String.eqb filename "" then Ok (self1, fs, false)
  else
    let load (self2 : TreeDataBase) (fs2 : disk) :=
      match file_read filename fs2 with
      | Some blob => Ok (mkTreeDataBase blob (Some filename), fs2, true)
      | None => Raise OSError
      end in
    if file_exists filename fs then load self1 fs
    else match root_id with
         | Some rid =>
             r <- TreeNode_init u [] rid ;;
             let self2 := mkTreeDataBase (Some r) (Some filename) in
             fs2 <- save_tree self2 filename fs ;;
             load self2 fs2
         | None => Ok (self1, fs, false)
         end.

(** ** The vocabulary of the specification *)

(** Separator-free keys and values, distinct keys, at least one pair: the
    identifier texts ["k1=v1,...,kn=vn"] are the renderings of such lists. *)
Definition plain (w : string) : bool :=
  negb (PyStr.contains comma w) && negb (PyStr.contains equals w).

Definition plain_pair (kv : string * string) : bool :=
  plain (fst kv) && plain (snd kv).

(** Every node of the tree carries at least one pair, as every node built
    by [TreeNode_init] does. *)
Definition identified (t : TreeNode) : bool :=
  forallb (fun nid => negb (Nat.eqb (List.length nid) 0)) (_extract_node_identifiers t).

(** A segment with no equals sign in the text. *)
Definition lacks_equals (text : string) : bool :=
  existsb (fun seg => negb (PyStr.contains equals seg)) (PyStr.split comma text).

(** [f] over the elements with their indices, counted from [i]. *)
Definition mapi {A B} (f : nat -> A -> B) : nat -> list A -> list B :=
  fix go (i : nat) (l : list A) : list B :=
    match l with
    | [] => []
    | a :: l' => f i a :: go (S i) l'
    end.

(** The nodes in pre-order, a node before its children, the children from
    left to right: as values and as references. *)
Fixpoint preorder (t : TreeNode) : list TreeNode :=
  match t with
  | mkTreeNode _ _ cs _ => t :: flat_map preorder cs
  end.

Fixpoint preorder_refs (t : TreeNode) : list ref :=
  match t with
  | mkTreeNode _ _ cs _ =>
      [] :: List.concat (mapi (fun i c => map (cons i) (preorder_refs c)) 0 cs)
  end.

(** Subset match: every pair of the query is in the identifier under its
    key with an equal value. *)
Definition subset_match (query_dict : NodeIdentifier) (n : TreeNode) : bool :=
  forallb (fun kv => match Dict.get (fst kv) (node_identifier n) with
                     | Some v => String.eqb v (snd kv)
                     | None => false
                     end) query_dict.

(** [P] holds of the node that [r] points to in [t]. *)
Definition holds_at (P : TreeNode -> bool) (t : TreeNode) (r : ref) : bool :=
  match node_at t r with
  | Some n => P n
  | None => false
  end.

(** The first node in pre-order that subset-matches. *)
Definition first_subset_match (query_dict : NodeIdentifier) (t : TreeNode) : option ref :=
  find (holds_at (subset_match query_dict) t) (preorder_refs t).

(** The current-level identifier of a node. *)
Definition level_of (n : TreeNode) : res string :=
  get_current_level_identifier (node_identifier n).

(** The current-level identifier of a node is [c]. *)
Definition at_level (c : string) (n : TreeNode) : bool :=
  match level_of n with
  | Ok a => String.eqb a c
  | Raise _ => false
  end.

(** The first child, in pre-order from the children of the root on, whose
    current-level identifier is [c]. *)
Definition first_child_at_level (c : string) (t : TreeNode) : option ref :=
  find (holds_at (at_level c) t) (tl (preorder_refs t)).

(** The last pair of an identifier, read off the pairs themselves. *)
Definition last_pair (nid : NodeIdentifier) : option (string * string) :=
  match rev nid with
  | [] => None
  | own :: _ => Some own
  end.

(** The last pair of the identifier of a node, as the text ["k=v"]. *)
Definition last_pair_text (n : TreeNode) : option string :=
  option_map render_pair (last_pair (node_identifier n)).

(** The identifier of a node ends with the pair [own]. *)
Definition ends_with (own : string * string) (n : TreeNode) : bool :=
  match last_pair (node_identifier n) with
  | Some kv => String.eqb (fst kv) (fst own) && String.eqb (snd kv) (snd own)
  | None => false
  end.

(** The first node, in pre-order from the children of the root on, whose
    identifier ends with the pair [own]. *)
Definition first_child_ending_with (own : string * string) (t : TreeNode) : option ref :=
  find (holds_at (ends_with own) t) (tl (preorder_refs t)).

Fixpoint remove_nth {A} (i : nat) (l : list A) : list A :=
  match l, i with
  | [], _ => []
  | _ :: l', O => l'
  | a :: l', S i' => a :: remove_nth i' l'
  end.

(** The tree without the child a reference points to. *)
Fixpoint remove_at (r : ref) (t : TreeNode) : TreeNode :=
  match r with
  | [] => t
  | [i] => mkTreeNode (id t) (data t) (remove_nth i (children t)) (node_identifier t)
  | i :: r' =>
      mkTreeNode (id t) (data t) (modify_nth (remove_at r') i (children t))
                 (node_identifier t)
  end.

(** The tree without the first such child, and whether there was one. *)
Definition without_first_child_at_level (c0 : string) (t : TreeNode) : TreeNode * bool :=
  match first_child_at_level c0 t with
  | Some r => (remove_at r t, true)
  | None => (t, false)
  end.

(** A store that has its root and its persistence target. *)
Definition Initialized (self : TreeDataBase) : Prop :=
  exists r p, root self = Some r /\ db_path self = Some p /\ p <> "".

(** ** Sample trees *)

Definition root_only : TreeNode := mkTreeNode 1%N [] [] [("o", "root")].

(** [o=root] with the child [o=root,m=a] and the grandchild
    [o=root,m=a,c=1], as three calls of the constructor and of
    [insert_node] build it. *)
Definition family : TreeNode :=
  mkTreeNode 1%N [] [
    mkTreeNode 2%N [("meta1", "meta_val")] [
      mkTreeNode 3%N [] [] [("o", "root"); ("m", "a"); ("c", "1")]
    ] [("o", "root"); ("m", "a")]
  ] [("o", "root")].

(** [family] after one more insert, of [o=root,c=1]. *)
Definition family_and_c1 : TreeNode :=
  mkTreeNode 1%N [] [
    mkTreeNode 2%N [("meta1", "meta_val")] [
      mkTreeNode 3%N [] [] [("o", "root"); ("m", "a"); ("c", "1")]
    ] [("o", "root"); ("m", "a")];
    mkTreeNode 4%N [] [] [("o", "root"); ("c", "1")]
  ] [("o", "root")].

(** Two branches with the same trailing pair. *)
Definition two_branches : TreeNode :=
  mkTreeNode 1%N [] [
    mkTreeNode 2%N [] [
      mkTreeNode 3%N [] [] [("o", "root"); ("m", "a"); ("c", "x")]
    ] [("o", "root"); ("m", "a")];
    mkTreeNode 4%N [] [
      mkTreeNode 5%N [] [] [("o", "root"); ("m", "b"); ("c", "x")]
    ] [("o", "root"); ("m", "b")]
  ] [("o", "root")].

(** A root with a three-pair identifier and one child. *)
Definition wide_root : TreeNode :=
  mkTreeNode 1%N [] [
    mkTreeNode 2%N [] [] [("o", "root"); ("p", "1")]
  ] [("o", "root"); ("p", "1"); ("r", "2")].

(** The root [o=root,k=1] after the inserts of [o=root,m=a],
    [o=root,m=a,c=1] and [o=root,k=1,m=a]: two children of the root end
    with the pair [m=a]. *)
Definition twins : TreeNode :=
  mkTreeNode 1%N [] [
    mkTreeNode 2%N [] [
      mkTreeNode 3%N [] [] [("o", "root"); ("m", "a"); ("c", "1")]
    ] [("o", "root"); ("m", "a")];
    mkTreeNode 4%N [] [] [("o", "root"); ("k", "1"); ("m", "a")]
  ] [("o", "root"); ("k", "1")].

Definition sample_store : TreeDataBase :=
  mkTreeDataBase (Some family) (Some "data.db").

(** ** The rest of the module *)

(** [from_tuples]: [self.node_identifier = dict(tuples)]; the identifier
    returned is [self] after the assignment. *)
Definition from_tuples (self : NodeIdentifier) (tuples : list (string * string))
  : NodeIdentifier :=
  Dict.of_pairs tuples.

(** [pickle_obj_load]: [self.root = pickle], [db_path] is left as it is. *)
Definition pickle_obj_load (self : TreeDataBase) (pickle : option TreeNode)
  : TreeDataBase :=
  mkTreeDataBase pickle (db_path self).

(** The two marks of [print_tree] and what they add to the indentation. *)
Definition branch_mark (last : bool) : string :=
  if last then "└── " else "├── ".

Definition indent_step (last : bool) : string :=
  if last then "    " else "│   ".

(** [print_tree]: the lines printed, in the order they are printed. *)
Fixpoint print_tree (indent : string) (last : bool) (self : TreeNode) : list string :=
  match self with
  | mkTreeNode _ _ cs nid =>
      let identifier_str := PyStr.join "," (map render_pair (NodeIdentifier_items nid)) in
      let indent' := (indent ++ indent_step last)%string in
      let child_count := List.length cs in
      (indent ++ branch_mark last ++ identifier_str)%string
        :: List.concat (mapi (fun i child =>
                                print_tree indent' (Nat.eqb i (child_count - 1)) child)
                             0 cs)
  end.

(** A Python set of strings, as far as [sorted] sees it: the distinct
    elements.  [sorted] orders strings by code point, which is the order
    of the bytes of their UTF-8 form. *)
Definition set_of (l : list string) : list string := nodup string_dec l.

Definition set_minus (a b : list string) : list string :=
  filter (fun x => negb (existsb (String.eqb x) b)) a.

Fixpoint insert_sorted (x : string) (l : list string) : list string :=
  match l with
  | [] => [x]
  | y :: l' => if String.leb x y then x :: l else y :: insert_sorted x l'
  end.

Definition sorted (l : list string) : list string :=
  fold_right insert_sorted [] l.

(** [_get_unique_part_of_identifier]; [None] and the empty string are
    false in [if parent_identifier:]. *)
Definition _get_unique_part_of_identifier (self : TreeNode)
           (parent_identifier : option string) : string :=
  let own_text := PyStr.join "," (map render_pair (NodeIdentifier_items (node_identifier self))) in
  match parent_identifier with
  | Some (String c p) =>
      let parent_parts := set_of (PyStr.split comma (String c p)) in
      let child_parts := set_of (PyStr.split comma own_text) in
      let unique_parts := set_minus child_parts parent_parts in
      PyStr.join "," (sorted unique_parts)
  | _ => own_text
  end.

(** [print_tree_no_ident]: the lines printed. *)
Fixpoint print_tree_no_ident (parent_identifier : option string) (indent : string)
         (last : bool) (self : TreeNode) : list string :=
  match self with
  | mkTreeNode _ _ cs nid =>
      let unique_identifier := _get_unique_part_of_identifier self parent_identifier in
      let full_identifier := PyStr.join "," (map render_pair (NodeIdentifier_items nid)) in
      let indent' := (indent ++ indent_step last)%string in
      let child_count := List.length cs in
      (indent ++ branch_mark last ++ unique_identifier)%string
        :: List.concat (mapi (fun i child =>
                                print_tree_no_ident (Some full_identifier) indent'
                                                    (Nat.eqb i (child_count - 1)) child)
                             0 cs)
  end.

(** [print_tree] and [print_tree_no_ident] of the store *)
Definition TreeDataBase_print_tree (self : TreeDataBase) : res (list string) :=
  match root self with
  | None => Raise AttributeError
  | Some r => Ok (print_tree "" true r)
  end.

Definition TreeDataBase_print_tree_no_ident (self : TreeDataBase) : res (list string) :=
  match root self with
  | None => Raise AttributeError
  | Some r => Ok (print_tree_no_ident None "" true r)
  end.

(** ** More vocabulary *)

(** The number of occurrences of a character. *)
Fixpoint count_char (c : ascii) (s : string) : nat :=
  match s with
  | EmptyString => 0
  | String c' s' => (if Ascii.eqb c' c then 1 else 0) + count_char c s'
  end.

(** A text the parser accepts: every segment has exactly one equals sign. *)
Definition well_formed_text (text : string) : bool :=
  forallb (fun seg => Nat.eqb (count_char equals seg) 1) (PyStr.split comma text).

(** Every identifier of the tree starts with the first key of the root. *)
Definition rooted (t : TreeNode) : bool :=
  match Dict.keys (node_identifier t) with
  | [] => false
  | root_key :: _ =>
      forallb (fun nid => match Dict.keys nid with
                          | k :: _ => String.eqb k root_key
                          | [] => false
                          end)
              (_extract_node_identifiers t)
  end.

(** Every identifier of the tree is one the parser can have returned. *)
Definition parsed_shape (nid : NodeIdentifier) : bool :=
  negb (Nat.eqb (List.length nid) 0)
  && forallb plain_pair nid
  && Nat.eqb (List.length (nodup string_dec (Dict.keys nid))) (List.length nid).

Definition all_parsed (t : TreeNode) : bool :=
  forallb parsed_shape (_extract_node_identifiers t).

(** Every child carries the identifier of its parent and one pair more. *)
Inductive chained : TreeNode -> Prop :=
| chained_node (i : uuid) (d : payload) (cs : list TreeNode) (nid : NodeIdentifier) :
    Forall (fun c => (exists own, node_identifier c = nid ++ [own]) /\ chained c) cs ->
    chained (mkTreeNode i d cs nid).

(** A printed line: the indentation of the call, some more padding, a
    mark and a label. *)
Definition line_of (indent label line : string) : Prop :=
  exists pad b, line = (indent ++ pad ++ branch_mark b ++ label)%string.

(** No identifier of the list equals a later one. *)
Fixpoint pairwise_distinct (l : list NodeIdentifier) : bool :=
  match l with
  | [] => true
  | a :: l' => negb (existsb (NodeIdentifier_eq a) l') && pairwise_distinct l'
  end.

(** No two nodes of the tree have equal identifiers. *)
Definition distinct_identifiers (t : TreeNode) : bool :=
  pairwise_distinct (_extract_node_identifiers t).

(** The same tree with another payload at one node. *)
Definition with_data (new_data : payload) (b : beauty) : beauty :=
  mkBeauty (b_id b) new_data (b_node_id b).

(** * Properties *)

Example parse_seed :
  parse_identifier "o=root,m=cotton,c=white"
  = Ok [("o", "root"); ("m", "cotton"); ("c", "white")].
Proof. reflexivity. Qed.

Example parse_no_equals : parse_identifier "o=root,bad" = Raise ValueError.
Proof. reflexivity. Qed.

Example parse_two_equals : parse_identifier "a=b=c" = Raise ValueError.
Proof. reflexivity. Qed.

Example parse_empty : parse_identifier "" = Raise ValueError.
Proof. reflexivity. Qed.

Example parse_repeated_key :
  parse_identifier "a=1,b=2,a=3" = Ok [("a", "3"); ("b", "2")].
Proof. reflexivity. Qed.

(** ** Splitting and joining *)

Section SplitJoin.

Variable sep : ascii.

Lemma split_not_nil (s : string) : PyStr.split sep s <> [].
Proof.
  destruct s as [|c s]; simpl; [discriminate|].
  destruct (Ascii.eqb c sep); [discriminate|].
  destruct (PyStr.split sep s); discriminate.
Qed.

Lemma split_plain (s : string) :
  PyStr.contains sep s = false -> PyStr.split sep s = [s].
Proof.
  induction s as [|c s IH]; simpl; intros H; [reflexivity|].
  apply orb_false_iff in H as [Hc Hs].
  rewrite Hc, (IH Hs). reflexivity.
Qed.

Lemma split_app (s1 s2 : string) :
  PyStr.contains sep s1 = false ->
  PyStr.split sep (s1 ++ String sep s2) = s1 :: PyStr.split sep s2.
Proof.
  induction s1 as [|c s1 IH]; simpl; intros H.
  - rewrite Ascii.eqb_refl. reflexivity.
  - apply orb_false_iff in H as [Hc Hs].
    rewrite Hc, (IH Hs). reflexivity.
Qed.

Lemma split_pieces (s : string) :
  Forall (fun w => PyStr.contains sep w = false) (PyStr.split sep s).
Proof.
  induction s as [|c s IH]; simpl.
  - repeat constructor.
  - destruct (Ascii.eqb c sep) eqn:Hc.
    + constructor; [reflexivity | exact IH].
    + destruct (PyStr.split sep s) as [|w ws].
      * repeat constructor. simpl. now rewrite Hc.
      * inversion IH; subst. constructor; [simpl; now rewrite Hc | assumption].
Qed.

Lemma split_keeps (c : ascii) (s : string) :
  PyStr.contains c s = false ->
  Forall (fun w => PyStr.contains c w = false) (PyStr.split sep s).
Proof.
  induction s as [|a s IH]; simpl; intros H.
  - repeat constructor.
  - apply orb_false_iff in H as [Ha Hs]. specialize (IH Hs).
    destruct (Ascii.eqb a sep).
    + constructor; [reflexivity | exact IH].
    + destruct (PyStr.split sep s) as [|w ws].
      * repeat constructor. simpl. now rewrite Ha.
      * inversion IH; subst. constructor; [simpl; now rewrite Ha | assumption].
Qed.

Lemma split_join (l : list string) :
  l <> [] ->
  Forall (fun w => PyStr.contains sep w = false) l ->
  PyStr.split sep (PyStr.join (String sep "") l) = l.
Proof.
  induction l as [|w l IH]; intros Hne Hall; [congruence|].
  inversion Hall as [|? ? Hw Hl]; subst.
  destruct l as [|w' l].
  - simpl. now apply split_plain.
  - change (PyStr.join (String sep "") (w :: w' :: l))
      with (w ++ String sep (PyStr.join (String sep "") (w' :: l)))%string.
    rewrite split_app by assumption.
    rewrite IH; [reflexivity | discriminate | assumption].
Qed.

Lemma join_split (s : string) :
  PyStr.join (String sep "") (PyStr.split sep s) = s.
Proof.
  induction s as [|c s IH]; [reflexivity|].
  simpl PyStr.split. destruct (Ascii.eqb c sep) eqn:Hc.
  - apply Ascii.eqb_eq in Hc. subst c.
    pose proof (split_not_nil s) as Hne.
    destruct (PyStr.split sep s) as [|w ws]; [congruence|].
    change (PyStr.join (String sep "") ("" :: w :: ws))
      with (String sep (PyStr.join (String sep "") (w :: ws))).
    now rewrite IH.
  - pose proof (split_not_nil s) as Hne.
    destruct (PyStr.split sep s) as [|w ws]; [congruence|].
    rewrite <- IH. destruct ws; reflexivity.
Qed.

End SplitJoin.

(** ** Dicts *)

Section DictFacts.

Context {V : Type}.
Implicit Types (d : Dict.t V) (k : string) (v : V).

Lemma get_In d k v : Dict.get k d = Some v -> In (k, v) d.
Proof.
  induction d as [|[k' v'] d IH]; simpl; [discriminate|].
  destruct (String.eqb_spec k' k) as [->|Hne]; intros H.
  - injection H as ->. now left.
  - right. now apply IH.
Qed.

Lemma get_None d k : Dict.get k d = None <-> ~ In k (Dict.keys d).
Proof.
  induction d as [|[k' v'] d IH]; simpl; [tauto|].
  destruct (String.eqb_spec k' k) as [->|Hne].
  - split; [discriminate | intros H; exfalso; apply H; now left].
  - rewrite IH. tauto.
Qed.

Lemma In_get d k v :
  NoDup (Dict.keys d) -> In (k, v) d -> Dict.get k d = Some v.
Proof.
  induction d as [|[k' v'] d IH]; simpl; [tauto|].
  intros Hnd [Heq|Hin]; inversion Hnd as [|? ? Hnotin Hnd']; subst.
  - injection Heq as -> ->. now rewrite String.eqb_refl.
  - destruct (String.eqb_spec k' k) as [->|Hne]; [|now apply IH].
    exfalso. apply Hnotin. change k with (fst (k, v)). now apply in_map.
Qed.

Lemma set_fresh d k v : ~ In k (Dict.keys d) -> Dict.set k v d = d ++ [(k, v)].
Proof.
  induction d as [|[k' v'] d IH]; simpl; intros H; [reflexivity|].
  destruct (String.eqb_spec k' k) as [->|Hne]; [tauto|].
  rewrite IH; tauto.
Qed.

Lemma set_keys d k v :
  Dict.keys (Dict.set k v d)
  = if in_dec string_dec k (Dict.keys d) then Dict.keys d else Dict.keys d ++ [k].
Proof.
  induction d as [|[k' v'] d IH]; simpl.
  - reflexivity.
  - destruct (String.eqb_spec k' k) as [->|Hne]; simpl.
    + destruct (string_dec k k); [reflexivity | congruence].
    + rewrite IH. destruct (string_dec k' k); [congruence|].
      destruct (in_dec string_dec k (Dict.keys d)); reflexivity.
Qed.

Lemma set_NoDup d k v : NoDup (Dict.keys d) -> NoDup (Dict.keys (Dict.set k v d)).
Proof.
  intros H. rewrite set_keys.
  destruct (in_dec string_dec k (Dict.keys d)) as [|Hn]; [assumption|].
  apply NoDup_app; [assumption | repeat constructor; simpl; tauto |].
  intros x Hx [<-|[]]. contradiction.
Qed.

Lemma set_In d k v kv : In kv (Dict.set k v d) -> In kv d \/ kv = (k, v).
Proof.
  induction d as [|[k' v'] d IH]; simpl.
  - intros [<-|[]]. now right.
  - destruct (String.eqb_spec k' k) as [->|Hne]; simpl.
    + intros [<-|H]; [now right | left; now right].
    + intros [<-|H]; [left; now left|].
      destruct (IH H); [left; now right | now right].
Qed.

Lemma set_not_nil d k v : Dict.set k v d <> [].
Proof.
  destruct d as [|[k' v'] d]; simpl; [discriminate|].
  destruct (String.eqb k' k); discriminate.
Qed.

Lemma get_set d k v k' :
  Dict.get k' (Dict.set k v d) = if String.eqb k k' then Some v else Dict.get k' d.
Proof.
  induction d as [|[k0 v0] d IH]; simpl.
  - reflexivity.
  - destruct (String.eqb_spec k0 k) as [->|Hne]; simpl.
    + destruct (String.eqb k k'); reflexivity.
    + rewrite IH. destruct (String.eqb_spec k0 k') as [->|Hne'].
      * destruct (String.eqb_spec k k'); [congruence | reflexivity].
      * reflexivity.
Qed.

Lemma assign_all_fresh (l acc : list (string * V)) :
  NoDup (Dict.keys (acc ++ l)) -> fold_left Dict.assign l acc = acc ++ l.
Proof.
  revert acc. induction l as [|[k v] l IH]; intros acc H; simpl.
  - now rewrite app_nil_r.
  - change (Dict.assign acc (k, v)) with (Dict.set k v acc). rewrite set_fresh.
    + rewrite IH; rewrite <- app_assoc; [reflexivity | exact H].
    + unfold Dict.keys in H. rewrite map_app in H. simpl in H.
      apply NoDup_remove_2 in H. intros Hin. apply H.
      apply in_or_app. now left.
Qed.

Lemma assign_all_NoDup (l acc : list (string * V)) :
  NoDup (Dict.keys acc) -> NoDup (Dict.keys (fold_left Dict.assign l acc)).
Proof.
  revert acc. induction l as [|[k v] l IH]; intros acc H; simpl; [assumption|].
  apply IH. now apply set_NoDup.
Qed.

Lemma assign_all_In (l acc : list (string * V)) kv :
  In kv (fold_left Dict.assign l acc) -> In kv acc \/ In kv l.
Proof.
  revert acc. induction l as [|[k v] l IH]; intros acc H; simpl in *; [now left|].
  destruct (IH _ H) as [Hin|Hin]; [|right; now right].
  destruct (set_In _ _ _ _ Hin) as [|Heq]; [now left | right; left; symmetry; exact Heq].
Qed.

Lemma assign_all_not_nil (l acc : list (string * V)) :
  acc <> [] -> fold_left Dict.assign l acc <> [].
Proof.
  revert acc. induction l as [|[k v] l IH]; intros acc H; simpl; [assumption|].
  apply IH. apply set_not_nil.
Qed.

Lemma of_pairs_fresh (l : list (string * V)) :
  NoDup (Dict.keys l) -> Dict.of_pairs l = l.
Proof. intros H. apply (assign_all_fresh l []). exact H. Qed.

Lemma of_pairs_NoDup (l : list (string * V)) : NoDup (Dict.keys (Dict.of_pairs l)).
Proof. apply (assign_all_NoDup l []). constructor. Qed.

Lemma of_pairs_In (l : list (string * V)) kv : In kv (Dict.of_pairs l) -> In kv l.
Proof. intros H. destruct (assign_all_In l [] kv H) as [[]|]; assumption. Qed.

Lemma of_pairs_not_nil (l : list (string * V)) : l <> [] -> Dict.of_pairs l <> [].
Proof.
  destruct l as [|[k v] l]; [congruence|]. intros _.
  apply (assign_all_not_nil l). apply set_not_nil.
Qed.

Lemma NoDup_keys_NoDup d : NoDup (Dict.keys d) -> NoDup d.
Proof. apply NoDup_map_inv. Qed.

End DictFacts.

Lemma dict_eqb_true (d1 d2 : Dict.t string) :
  Dict.eqb String.eqb d1 d2 = true <->
  List.length d1 = List.length d2 /\
  forall k v, In (k, v) d1 -> Dict.get k d2 = Some v.
Proof.
  unfold Dict.eqb. rewrite andb_true_iff, Nat.eqb_eq, forallb_forall.
  split; intros [Hlen H]; split; try assumption.
  - intros k v Hin. specialize (H _ Hin). simpl in H.
    destruct (Dict.get k d2) as [v'|]; [|discriminate].
    apply String.eqb_eq in H. now subst.
  - intros [k v] Hin. simpl. rewrite (H _ _ Hin). apply String.eqb_refl.
Qed.

(** ** Parsing and rendering identifiers *)

Lemma contains_app (c : ascii) (a b : string) :
  PyStr.contains c (a ++ b) = PyStr.contains c a || PyStr.contains c b.
Proof.
  induction a as [|x a IH]; simpl; [reflexivity|].
  now rewrite IH, orb_assoc.
Qed.

Lemma plain_pair_inv (kv : string * string) :
  plain_pair kv = true ->
  (PyStr.contains comma (fst kv) = false /\ PyStr.contains equals (fst kv) = false) /\
  (PyStr.contains comma (snd kv) = false /\ PyStr.contains equals (snd kv) = false).
Proof.
  unfold plain_pair, plain.
  rewrite !andb_true_iff, !negb_true_iff. tauto.
Qed.

Lemma render_pair_no_comma (kv : string * string) :
  plain_pair kv = true -> PyStr.contains comma (render_pair kv) = false.
Proof.
  intros H. apply plain_pair_inv in H as [[Hk _] [Hv _]].
  unfold render_pair. rewrite !contains_app, Hk, Hv. reflexivity.
Qed.

Lemma pair_of_segment_render (kv : string * string) :
  plain_pair kv = true -> pair_of_segment (render_pair kv) = Ok kv.
Proof.
  intros H. apply plain_pair_inv in H as [[_ Hk] [_ Hv]].
  unfold pair_of_segment, render_pair.
  change (fst kv ++ "=" ++ snd kv)%string with (fst kv ++ String equals (snd kv))%string.
  rewrite split_app by assumption. rewrite split_plain by assumption.
  now destruct kv.
Qed.

Lemma pair_of_segment_inv (seg : string) (kv : string * string) :
  pair_of_segment seg = Ok kv -> PyStr.split equals seg = [fst kv; snd kv].
Proof.
  unfold pair_of_segment.
  destruct (PyStr.split equals seg) as [|k [|v [|? ?]]]; try discriminate.
  intros H. injection H as <-. reflexivity.
Qed.

Lemma pair_of_segment_text (seg : string) (kv : string * string) :
  pair_of_segment seg = Ok kv -> render_pair kv = seg.
Proof.
  intros H. apply pair_of_segment_inv in H.
  rewrite <- (join_split equals seg), H. reflexivity.
Qed.

Lemma pair_of_segment_plain (seg : string) (kv : string * string) :
  PyStr.contains comma seg = false ->
  pair_of_segment seg = Ok kv -> plain_pair kv = true.
Proof.
  intros Hc H. apply pair_of_segment_inv in H.
  pose proof (split_pieces equals seg) as He.
  pose proof (split_keeps equals comma seg Hc) as Hk.
  rewrite H in He, Hk.
  inversion He as [|? ? He1 He']; inversion He' as [|? ? He2 _]; subst.
  inversion Hk as [|? ? Hk1 Hk']; inversion Hk' as [|? ? Hk2 _]; subst.
  unfold plain_pair, plain. now rewrite He1, He2, Hk1, Hk2.
Qed.

Lemma mapM_map_ok {A B} (f : A -> res B) (g : B -> A) (l : list B) :
  (forall b, In b l -> f (g b) = Ok b) -> mapM f (map g l) = Ok l.
Proof.
  induction l as [|b l IH]; intros H; simpl; [reflexivity|].
  rewrite H by now left. simpl. rewrite IH; [reflexivity|].
  intros b' Hb'. apply H. now right.
Qed.

Lemma mapM_ok {A B} (f : A -> res B) (l : list A) (l' : list B) :
  mapM f l = Ok l' -> Forall2 (fun a b => f a = Ok b) l l'.
Proof.
  revert l'. induction l as [|a l IH]; simpl; intros l' H.
  - injection H as <-. constructor.
  - destruct (f a) as [b|] eqn:Hb; simpl in H; [|discriminate].
    destruct (mapM f l) as [bs|]; simpl in H; [|discriminate].
    injection H as <-. constructor; [assumption | now apply IH].
Qed.

Lemma mapM_raise {A B} (f : A -> res B) (l : list A) (e : exn) :
  (forall a e', f a = Raise e' -> e' = e) ->
  (exists a, In a l /\ f a = Raise e) -> mapM f l = Raise e.
Proof.
  intros Hone [a [Hin Ha]].
  induction l as [|x l IH]; [contradiction|]. simpl.
  destruct (f x) as [b|e'] eqn:Hx; simpl.
  - destruct Hin as [->|Hin]; [congruence|].
    now rewrite IH.
  - f_equal. eapply Hone. eassumption.
Qed.

(** The pairs the segments of an accepted text stand for. *)
Lemma parse_identifier_segments (s : string) (nid : NodeIdentifier) :
  parse_identifier s = Ok nid ->
  exists pairs,
    map render_pair pairs = PyStr.split comma s /\
    nid = Dict.of_pairs pairs /\
    forallb plain_pair pairs = true.
Proof.
  unfold parse_identifier. intros H.
  destruct (mapM pair_of_segment (PyStr.split comma s)) as [pairs|] eqn:Hm;
    simpl in H; [|discriminate].
  injection H as <-. exists pairs.
  apply mapM_ok in Hm. pose proof (split_pieces comma s) as Hc.
  split; [|split; [reflexivity|]].
  - induction Hm as [|seg kv segs kvs Hkv _ IH]; [reflexivity|].
    simpl. inversion Hc; subst. f_equal; [now apply pair_of_segment_text | now apply IH].
  - induction Hm as [|seg kv segs kvs Hkv _ IH]; [reflexivity|].
    inversion Hc; subst. simpl.
    rewrite (pair_of_segment_plain seg kv) by assumption. now apply IH.
Qed.

(** What every parsed identifier satisfies. *)
Lemma parse_identifier_shape (s : string) (nid : NodeIdentifier) :
  parse_identifier s = Ok nid ->
  nid <> [] /\ NoDup (Dict.keys nid) /\ forallb plain_pair nid = true.
Proof.
  intros H. destruct (parse_identifier_segments s nid H) as [pairs [Hseg [-> Hplain]]].
  split; [|split].
  - apply of_pairs_not_nil. intros ->.
    simpl in Hseg. symmetry in Hseg. now apply split_not_nil in Hseg.
  - apply of_pairs_NoDup.
  - apply forallb_forall. intros kv Hin. apply of_pairs_In in Hin.
    rewrite forallb_forall in Hplain. now apply Hplain.
Qed.

Lemma parse_render (l : list (string * string)) :
  l <> [] -> forallb plain_pair l = true -> NoDup (Dict.keys l) ->
  parse_identifier (NodeIdentifier_str l) = Ok l.
Proof.
  intros Hne Hplain Hnd. rewrite forallb_forall in Hplain.
  unfold parse_identifier, NodeIdentifier_str.
  change "," with (String comma "").
  rewrite split_join.
  - rewrite mapM_map_ok.
    + simpl. now rewrite of_pairs_fresh.
    + intros kv Hin. apply pair_of_segment_render. now apply Hplain.
  - destruct l; [congruence | discriminate].
  - apply Forall_forall. intros w Hw. apply in_map_iff in Hw as [kv [<- Hin]].
    apply render_pair_no_comma. now apply Hplain.
Qed.

(** C5, as the code has it: for every list of pairs [(k1,v1); ...; (kn,vn)]
    with n >= 1, separator-free keys and values and pairwise distinct keys,
    parsing the text ["k1=v1,...,kn=vn"] succeeds, re-rendering the parsed
    identifier gives the text back, and the identifier holds exactly these
    n pairs in declaration order. *)
Theorem parse_render_roundtrip (l : list (string * string)) :
  l <> [] -> forallb plain_pair l = true -> NoDup (Dict.keys l) ->
  let text := PyStr.join "," (map render_pair l) in
  exists nid,
    parse_identifier text = Ok nid /\
    NodeIdentifier_str nid = text /\
    NodeIdentifier_items nid = l.
Proof.
  intros Hne Hplain Hnd text. exists l.
  split; [now apply parse_render | split; reflexivity].
Qed.

Lemma parse_render_roundtrip_witness :
  exists nid,
    parse_identifier "o=root,m=cotton,c=white" = Ok nid /\
    NodeIdentifier_str nid = "o=root,m=cotton,c=white" /\
    NodeIdentifier_items nid = [("o", "root"); ("m", "cotton"); ("c", "white")].
Proof.
  apply (parse_render_roundtrip [("o", "root"); ("m", "cotton"); ("c", "white")]).
  - discriminate.
  - reflexivity.
  - repeat constructor; simpl; intuition discriminate.
Defined.

(** C5 as stated fails when a key is repeated: every segment of
    ["a=1,a=2"] has its equals sign, the text is accepted, and the
    identifier holds one pair and renders as ["a=2"]. *)
Lemma roundtrip_fails_on_repeated_key :
  forallb (PyStr.contains equals) (PyStr.split comma "a=1,a=2") = true /\
  exists nid,
    parse_identifier "a=1,a=2" = Ok nid /\
    NodeIdentifier_str nid <> "a=1,a=2" /\
    List.length (NodeIdentifier_items nid) <> List.length (PyStr.split comma "a=1,a=2").
Proof.
  split; [reflexivity|]. exists [("a", "2")].
  split; [reflexivity | split; discriminate].
Qed.

Lemma set_length {V} (d : Dict.t V) (k : string) (v : V) :
  List.length (Dict.set k v d)
  = if in_dec string_dec k (Dict.keys d) then List.length d else S (List.length d).
Proof.
  pose proof (set_keys d k v) as H.
  apply (f_equal (@List.length string)) in H.
  unfold Dict.keys in *. rewrite length_map in H. rewrite H.
  destruct (in_dec string_dec k (map fst d)).
  - apply length_map.
  - rewrite length_app, length_map. simpl. lia.
Qed.

Lemma assign_all_length {V} (l acc : list (string * V)) :
  List.length (fold_left Dict.assign l acc) <= List.length acc + List.length l.
Proof.
  revert acc. induction l as [|[k v] l IH]; intros acc; simpl; [lia|].
  specialize (IH (Dict.set k v acc)). rewrite set_length in IH.
  change (Dict.assign acc (k, v)) with (Dict.set k v acc).
  destruct (in_dec string_dec k (Dict.keys acc)); lia.
Qed.

Lemma assign_all_full {V} (l acc : list (string * V)) :
  NoDup (Dict.keys acc) ->
  List.length (fold_left Dict.assign l acc) = List.length acc + List.length l ->
  fold_left Dict.assign l acc = acc ++ l.
Proof.
  revert acc. induction l as [|[k v] l IH]; intros acc Hnd Hlen; simpl in *.
  - now rewrite app_nil_r.
  - pose proof (assign_all_length l (Dict.set k v acc)) as Hle.
    pose proof (set_NoDup acc k v Hnd) as Hnd'.
    change (Dict.assign acc (k, v)) with (Dict.set k v acc) in *.
    rewrite set_length in Hle.
    destruct (in_dec string_dec k (Dict.keys acc)) as [Hin|Hnin]; [lia|].
    rewrite IH.
    + rewrite set_fresh by assumption. now rewrite <- app_assoc.
    + assumption.
    + rewrite Hlen, set_length.
      destruct (in_dec string_dec k (Dict.keys acc)); [contradiction | lia].
Qed.

(** The same round trip read from the text: a text that is accepted and
    yields as many pairs as it has segments is rendered back unchanged. *)
Lemma parse_then_str (s : string) (nid : NodeIdentifier) :
  parse_identifier s = Ok nid ->
  List.length nid = List.length (PyStr.split comma s) ->
  NodeIdentifier_str nid = s.
Proof.
  intros H Hlen.
  destruct (parse_identifier_segments s nid H) as [pairs [Hseg [-> _]]].
  rewrite <- Hseg, length_map in Hlen.
  unfold Dict.of_pairs in *.
  rewrite (assign_all_full pairs []); [| apply NoDup_nil | exact Hlen].
  simpl. unfold NodeIdentifier_str. rewrite Hseg. apply (join_split comma).
Qed.

(** ** Equality of identifiers *)

(** C2, as the code has it: two identifiers (dicts, so without repeated
    keys) compare equal iff their sequences of (key, value) pairs hold the
    same pairs, in whatever order. *)
Theorem NodeIdentifier_eq_same_pairs (a b : NodeIdentifier) :
  NoDup (Dict.keys a) -> NoDup (Dict.keys b) ->
  (NodeIdentifier_eq a b = true
   <-> Permutation (NodeIdentifier_items a) (NodeIdentifier_items b)).
Proof.
  intros Ha Hb. unfold NodeIdentifier_eq, NodeIdentifier_items.
  rewrite dict_eqb_true. split.
  - intros [Hlen H]. apply NoDup_Permutation_bis.
    + now apply NoDup_keys_NoDup.
    + rewrite Hlen. apply le_n.
    + intros [k v] Hin. apply get_In. now apply H.
  - intros HP. split; [now apply Permutation_length|].
    intros k v Hin. apply In_get; [assumption|].
    eapply Permutation_in; eassumption.
Qed.

Lemma NodeIdentifier_eq_same_pairs_witness :
  NodeIdentifier_eq [("a", "1"); ("b", "2")] [("b", "2"); ("a", "1")] = true
  <-> Permutation [("a", "1"); ("b", "2")] [("b", "2"); ("a", "1")].
Proof.
  apply (NodeIdentifier_eq_same_pairs [("a", "1"); ("b", "2")] [("b", "2"); ("a", "1")]);
    repeat constructor; simpl; intuition discriminate.
Defined.

(** C2 as stated fails: the identifiers of ["a=1,b=2"] and ["b=2,a=1"]
    have the same pairs in a different order and compare equal. *)
Lemma NodeIdentifier_eq_ignores_order :
  exists a b,
    parse_identifier "a=1,b=2" = Ok a /\
    parse_identifier "b=2,a=1" = Ok b /\
    NodeIdentifier_items a <> NodeIdentifier_items b /\
    NodeIdentifier_eq a b = true.
Proof.
  exists [("a", "1"); ("b", "2")], [("b", "2"); ("a", "1")].
  repeat split; discriminate.
Qed.

Lemma NodeIdentifier_eq_refl (a : NodeIdentifier) :
  NoDup (Dict.keys a) -> NodeIdentifier_eq a a = true.
Proof.
  intros H. apply dict_eqb_true. split; [reflexivity|].
  intros k v Hin. now apply In_get.
Qed.

(** An identifier equal to [nid] answers every pair of [nid]. *)
Lemma NodeIdentifier_eq_get (a b : NodeIdentifier) (k v : string) :
  NodeIdentifier_eq a b = true -> In (k, v) a -> Dict.get k b = Some v.
Proof. intros H. apply dict_eqb_true in H as [_ H]. apply H. Qed.

(** ** Induction on trees *)

Lemma TreeNode_induction (P : TreeNode -> Prop) :
  (forall i d cs nid, Forall P cs -> P (mkTreeNode i d cs nid)) ->
  forall t, P t.
Proof.
  intros step. fix IH 1. intros [i d cs nid]. apply step.
  induction cs as [|c cs IHcs]; constructor; [apply IH | exact IHcs].
Qed.

(** ** Searching a list *)

Lemma find_app_first {A} (f : A -> bool) (l1 l2 : list A) :
  find f (l1 ++ l2) = match find f l1 with Some x => Some x | None => find f l2 end.
Proof.
  induction l1 as [|a l1 IH]; simpl; [reflexivity|].
  destruct (f a); [reflexivity | exact IH].
Qed.

Lemma find_map_inner {A B} (f : B -> bool) (g : A -> B) (l : list A) :
  find f (map g l) = option_map g (find (fun a => f (g a)) l).
Proof.
  induction l as [|a l IH]; simpl; [reflexivity|].
  destruct (f (g a)); [reflexivity | exact IH].
Qed.

Lemma find_same {A} (f g : A -> bool) (l : list A) :
  (forall a, f a = g a) -> find f l = find g l.
Proof.
  intros H. induction l as [|a l IH]; simpl; [reflexivity|].
  rewrite H, IH. reflexivity.
Qed.

Lemma nth_error_middle {A} (pre : list A) (a : A) (post : list A) :
  nth_error (pre ++ a :: post) (List.length pre) = Some a.
Proof. induction pre; simpl; [reflexivity | assumption]. Qed.

Lemma holds_at_child (P : TreeNode -> bool) i d nid pre c post (r : ref) :
  holds_at P (mkTreeNode i d (pre ++ c :: post) nid) (List.length pre :: r)
  = holds_at P c r.
Proof. unfold holds_at. simpl. now rewrite nth_error_middle. Qed.

(** ** C6: [find_by_query] *)

Lemma search_children (q : NodeIdentifier) i d nid (cs pre : list TreeNode) :
  Forall (fun c => _search q c = first_subset_match q c) cs ->
  find (holds_at (subset_match q) (mkTreeNode i d (pre ++ cs) nid))
       (List.concat (mapi (fun j c => map (cons j) (preorder_refs c)) (List.length pre) cs))
  = match first_child (_search q) (List.length pre) cs with
    | Some (j, r) => Some (j :: r)
    | None => None
    end.
Proof.
  intros H. revert pre. induction H as [|c cs Hc _ IH]; intros pre; [reflexivity|].
  simpl. rewrite find_app_first, find_map_inner.
  rewrite (find_same _ (holds_at (subset_match q) c)) by (intros r; apply holds_at_child).
  fold (first_subset_match q c). rewrite <- Hc.
  destruct (_search q c) as [r|]; [reflexivity|]. simpl.
  specialize (IH (pre ++ [c])).
  rewrite <- app_assoc, length_app, Nat.add_1_r in IH. exact IH.
Qed.

Lemma search_first_subset_match (q : NodeIdentifier) (t : TreeNode) :
  _search q t = first_subset_match q t.
Proof.
  induction t as [i d cs nid IH] using TreeNode_induction.
  unfold first_subset_match. simpl.
  change (holds_at (subset_match q) (mkTreeNode i d cs nid) [])
    with (query_matches q nid).
  destruct (query_matches q nid); [reflexivity|].
  symmetry. apply (search_children q i d nid cs [] IH).
Qed.

Lemma preorder_refs_children i d nid (cs pre : list TreeNode) :
  Forall (fun c => map (node_at c) (preorder_refs c) = map Some (preorder c)) cs ->
  map (node_at (mkTreeNode i d (pre ++ cs) nid))
      (List.concat (mapi (fun j c => map (cons j) (preorder_refs c)) (List.length pre) cs))
  = map Some (flat_map preorder cs).
Proof.
  intros H. revert pre. induction H as [|c cs Hc _ IH]; intros pre; [reflexivity|].
  simpl. rewrite !map_app, map_map. f_equal.
  - rewrite <- Hc. apply map_ext. intros r. simpl. now rewrite nth_error_middle.
  - specialize (IH (pre ++ [c])).
    rewrite <- app_assoc, length_app, Nat.add_1_r in IH. exact IH.
Qed.

(** The references in pre-order point to the nodes in pre-order. *)
Lemma preorder_refs_nodes (t : TreeNode) :
  map (node_at t) (preorder_refs t) = map Some (preorder t).
Proof.
  induction t as [i d cs nid IH] using TreeNode_induction.
  simpl. f_equal. apply (preorder_refs_children i d nid cs [] IH).
Qed.

Lemma find_refs_nodes (P : TreeNode -> bool) (t : TreeNode) (refs : list ref)
      (nodes : list TreeNode) :
  map (node_at t) refs = map Some nodes ->
  match find (holds_at P t) refs with
  | Some r => exists n, node_at t r = Some n /\ find P nodes = Some n
  | None => find P nodes = None
  end.
Proof.
  revert nodes. induction refs as [|r refs IH]; intros [|n nodes] H; try discriminate.
  - reflexivity.
  - simpl in H. injection H as Hr Hrest. simpl. unfold holds_at at 1. rewrite Hr.
    destruct (P n); [now exists n | now apply IH].
Qed.

Lemma extract_preorder (t : TreeNode) :
  _extract_node_identifiers t = map node_identifier (preorder t).
Proof.
  induction t as [i d cs nid IH] using TreeNode_induction.
  simpl. f_equal. induction IH as [|c cs Hc _ IHcs]; [reflexivity|].
  simpl. now rewrite map_app, Hc, IHcs.
Qed.

Lemma get_all_children_preorder (t : TreeNode) :
  get_all_children t = map beauty_dict (preorder t).
Proof.
  induction t as [i d cs nid IH] using TreeNode_induction.
  simpl. f_equal. induction IH as [|c cs Hc _ IHcs]; [reflexivity|].
  simpl. now rewrite map_app, Hc, IHcs.
Qed.

Lemma search_outcome (q : NodeIdentifier) (t : TreeNode) :
  match _search q t with
  | Some r => exists n, node_at t r = Some n /\ find (subset_match q) (preorder t) = Some n
  | None => forall n, In n (preorder t) -> subset_match q n = false
  end.
Proof.
  rewrite search_first_subset_match.
  pose proof (find_refs_nodes (subset_match q) t _ _ (preorder_refs_nodes t)) as H.
  fold (first_subset_match q t) in H.
  destruct (first_subset_match q t); [exact H|].
  intros n Hn. eapply find_none; eassumption.
Qed.

(** C6: for a query text the parser accepts, [find_by_query] returns the
    first node, in pre-order (a node before its children, the children
    from left to right), whose identifier holds every pair of the query
    under its key with an equal value; it returns [None] exactly when no
    node of the tree does. *)
Theorem find_by_query_first_in_preorder (t : TreeNode) (query : string)
        (q : NodeIdentifier) :
  parse_identifier query = Ok q ->
  find_by_query t query = Ok (first_subset_match q t) /\
  match first_subset_match q t with
  | Some r => exists n, node_at t r = Some n /\ find (subset_match q) (preorder t) = Some n
  | None => forall n, In n (preorder t) -> subset_match q n = false
  end.
Proof.
  intros Hq. split.
  - unfold find_by_query, NodeIdentifier_init. rewrite Hq. simpl.
    now rewrite search_first_subset_match.
  - rewrite <- search_first_subset_match. apply search_outcome.
Qed.

Lemma find_by_query_first_in_preorder_witness :
  parse_identifier "c=x" = Ok [("c", "x")] /\
  find_by_query two_branches "c=x" = Ok (first_subset_match [("c", "x")] two_branches) /\
  match first_subset_match [("c", "x")] two_branches with
  | Some r => exists n, node_at two_branches r = Some n /\
                        find (subset_match [("c", "x")]) (preorder two_branches) = Some n
  | None => forall n, In n (preorder two_branches) -> subset_match [("c", "x")] n = false
  end.
Proof.
  split; [reflexivity|].
  apply (find_by_query_first_in_preorder two_branches "c=x" [("c", "x")]).
  reflexivity.
Defined.

Example find_by_query_partial :
  find_by_query two_branches "c=x" = Ok (Some [0; 0]) /\
  find_by_query two_branches "m=b" = Ok (Some [1]) /\
  find_by_query two_branches "m=c" = Ok None.
Proof. repeat split. Qed.

(** ** C7: texts with a segment that has no equals sign *)

Lemma pair_of_segment_raises (seg : string) (e : exn) :
  pair_of_segment seg = Raise e -> e = ValueError.
Proof.
  unfold pair_of_segment.
  destruct (PyStr.split equals seg) as [|k [|v [|? ?]]]; congruence.
Qed.

Lemma parse_identifier_lacks_equals (text : string) :
  lacks_equals text = true -> parse_identifier text = Raise ValueError.
Proof.
  unfold lacks_equals, parse_identifier. intros H.
  apply existsb_exists in H as [seg [Hin Hseg]].
  apply negb_true_iff in Hseg.
  rewrite (mapM_raise pair_of_segment _ ValueError); [reflexivity | |].
  - intros a e. apply pair_of_segment_raises.
  - exists seg. split; [assumption|].
    unfold pair_of_segment. now rewrite split_plain.
Qed.

(** C7, where the code departs from it: a text with a segment that has no
    equals sign makes [dict] raise [ValueError] in the parser, and no
    method turns it into a (flag, message) result, so
    [find_by_query], [update_node] and [delete_node] raise it to their
    caller, and so do [query], [update] and [delete] of the store;
    [insert_node] returns the failure (False, "Invalid new node
    identifier.") with the tree unchanged when the text does not start with
    the first key of the root and an equals sign, and raises [ValueError]
    when it does. *)
Theorem missing_equals_raises (t : TreeNode) (text : string) :
  lacks_equals text = true ->
  parse_identifier text = Raise ValueError /\
  find_by_query t text = Raise ValueError /\
  (forall new_data, update_node t text new_data = Raise ValueError) /\
  delete_node t text = Raise ValueError /\
  (forall u new_data,
      insert_node t u new_data text
      = match is_valid_new_node_identifier t text with
        | Ok true => Raise ValueError
        | Ok false => Ok (t, (false, "Invalid new node identifier."))
        | Raise e => Raise e
        end) /\
  (forall p fs,
      query (mkTreeDataBase (Some t) p) fs text = Raise ValueError /\
      (forall new_data, update (mkTreeDataBase (Some t) p) fs text new_data = Raise ValueError) /\
      delete (mkTreeDataBase (Some t) p) fs text = Raise ValueError).
Proof.
  intros H. apply parse_identifier_lacks_equals in H.
  assert (Hf : find_by_query t text = Raise ValueError).
  { unfold find_by_query, NodeIdentifier_init. now rewrite H. }
  assert (Hu : forall new_data, update_node t text new_data = Raise ValueError).
  { intros new_data. unfold update_node. now rewrite Hf. }
  assert (Hd : delete_node t text = Raise ValueError).
  { unfold delete_node. now rewrite Hf. }
  repeat split; try assumption.
  - intros u new_data. unfold insert_node, NodeIdentifier_init.
    destruct (is_valid_new_node_identifier t text) as [[|]|e]; simpl;
      [now rewrite H | reflexivity | reflexivity].
  - unfold query. simpl. now rewrite Hf.
  - intros new_data. unfold update. simpl. now rewrite Hu.
  - unfold delete. simpl. now rewrite Hd.
Qed.

Lemma missing_equals_raises_witness :
  lacks_equals "o=root,m" = true /\
  find_by_query family "o=root,m" = Raise ValueError.
Proof.
  split; [reflexivity|].
  apply (missing_equals_raises family "o=root,m"). reflexivity.
Defined.

(** The failing input of C7: on ["o=root,m"], whose second segment has no
    equals sign, none of the four operations returns a result. *)
Lemma parse_error_is_raised :
  lacks_equals "o=root,m" = true /\
  insert_node family 9%N [] "o=root,m" = Raise ValueError /\
  update_node family "o=root,m" [] = Raise ValueError /\
  delete_node family "o=root,m" = Raise ValueError /\
  query sample_store empty_disk "o=root,m" = Raise ValueError /\
  ~ (exists t' message, delete_node family "o=root,m" = Ok (t', (false, message))).
Proof.
  repeat split; try reflexivity.
  intros [t' [message H]]. discriminate H.
Qed.

(** ** C8: the store persists after a successful mutation *)

Lemma save_cb_writes (self : TreeDataBase) (fs : disk) (p : string) :
  db_path self = Some p -> p <> "" ->
  save_cb self fs
  = if can_write p fs then Ok (file_write p (root self) fs) else Raise OSError.
Proof.
  intros Hp Hne. unfold save_cb, save_tree. rewrite Hp.
  destruct (String.eqb_spec p ""); [contradiction | reflexivity].
Qed.

(** The shape shared by [insert], [update] and [delete]. *)
Lemma persist_after (self : TreeDataBase) (fs : disk) (p : string)
      (m : res (TreeNode * (bool * string))) :
  db_path self = Some p -> p <> "" ->
  (' (r', (success, message)) <- m ;;
   let self' := mkTreeDataBase (Some r') (db_path self) in
   if success
   then fs' <- save_cb self' fs ;; Ok (self', fs', (success, message))
   else Ok (self', fs, (success, message)))
  = match m with
    | Ok (r', (true, message)) =>
        if can_write p fs
        then Ok (mkTreeDataBase (Some r') (Some p), file_write p (Some r') fs,
                 (true, message))
        else Raise OSError
    | Ok (r', (false, message)) =>
        Ok (mkTreeDataBase (Some r') (Some p), fs, (false, message))
    | Raise e => Raise e
    end.
Proof.
  intros Hp Hne. destruct m as [[r' [[|] message]]|e]; simpl; try reflexivity.
  - rewrite (save_cb_writes _ fs p) by (simpl; assumption).
    destruct (can_write p fs); simpl; [now rewrite Hp | reflexivity].
  - now rewrite Hp.
Qed.


Lemma sample_store_Initialized : Initialized sample_store.
Proof. exists family, "data.db". repeat split. discriminate. Qed.

(** The two ways into the [Initialized] state. *)
Lemma create_tree_db_Initialized (self self' : TreeDataBase) (fs fs' : disk)
      (path : string) (u : uuid) (d : payload) (text : string) :
  create_tree_db self fs path u d text = Ok (self', fs') ->
  Initialized self' /\ can_write path fs = true /\
  fs' = file_write path (root self') fs.
Proof.
  unfold create_tree_db, save_tree. intros H.
  destruct (TreeNode_init u d text) as [r|]; simpl in H; [|discriminate].
  destruct (can_write path fs) eqn:Hw; simpl in H; [|discriminate].
  injection H as <- <-. split; [|split; reflexivity].
  exists r, path. repeat split.
  unfold can_write in Hw. intros ->. discriminate Hw.
Qed.

Lemma load_from_file_Initialized (self self' : TreeDataBase) (fs fs' : disk)
      (filename : string) (root_id : option string) (u : uuid) :
  load_from_file self fs filename root_id u = Ok (self', fs', true) ->
  root self' <> None -> Initialized self'.
Proof.
  unfold load_from_file. intros H Hroot.
  destruct (String.eqb_spec filename "") as [|Hne]; [discriminate|].
  assert (Hload : forall fs2,
             match file_read filename fs2 with
             | Some blob => Ok (mkTreeDataBase blob (Some filename), fs2, true)
             | None => Raise OSError
             end = Ok (self', fs', true) -> Initialized self').
  { intros fs2 E. destruct (file_read filename fs2) as [blob|]; [|discriminate].
    injection E as <- _. simpl in Hroot.
    destruct blob as [r|]; [|congruence].
    exists r, filename. repeat split. assumption. }
  destruct (file_exists filename fs); [now apply (Hload fs)|].
  destruct root_id as [rid|]; [|discriminate].
  destruct (TreeNode_init u [] rid) as [r|]; simpl in H; [|discriminate].
  unfold save_tree in H.
  destruct (can_write filename fs); simpl in H; [|discriminate].
  now apply (Hload _ H).
Qed.


(** ** [get_tree_structure]: the pairs it assigns *)

Lemma assign_all_keys {V} (l acc : list (string * V)) (k : string) :
  In k (Dict.keys (fold_left Dict.assign l acc))
  <-> In k (Dict.keys acc) \/ In k (Dict.keys l).
Proof.
  revert acc. induction l as [|[k0 v0] l IH]; intros acc; simpl; [tauto|].
  rewrite IH. change (Dict.assign acc (k0, v0)) with (Dict.set k0 v0 acc).
  rewrite set_keys.
  destruct (in_dec string_dec k0 (Dict.keys acc)) as [Hin|Hnin].
  - split; [tauto|]. intros [H|[<-|H]]; tauto.
  - rewrite in_app_iff. simpl. tauto.
Qed.

Lemma assign_all_get_other {V} (l acc : list (string * V)) (k : string) :
  ~ In k (Dict.keys l) ->
  Dict.get k (fold_left Dict.assign l acc) = Dict.get k acc.
Proof.
  revert acc. induction l as [|[k0 v0] l IH]; intros acc H; simpl in *; [reflexivity|].
  rewrite IH by tauto.
  change (Dict.assign acc (k0, v0)) with (Dict.set k0 v0 acc).
  rewrite get_set. destruct (String.eqb_spec k0 k); [tauto | reflexivity].
Qed.

Lemma assign_all_get_last {V} (pre post acc : list (string * V)) (k : string) (v : V) :
  ~ In k (Dict.keys post) ->
  Dict.get k (fold_left Dict.assign (pre ++ (k, v) :: post) acc) = Some v.
Proof.
  intros H. rewrite fold_left_app. simpl.
  rewrite assign_all_get_other by assumption.
  change (Dict.assign (fold_left Dict.assign pre acc) (k, v))
    with (Dict.set k v (fold_left Dict.assign pre acc)).
  rewrite get_set. now rewrite String.eqb_refl.
Qed.

Lemma fill_dict_assign {A V} (key : A -> res string) (value : A -> res V)
      (cs : list A) (pairs acc : list (string * V)) :
  Forall2 (fun c kv => value c = Ok (snd kv) /\ key c = Ok (fst kv)) cs pairs ->
  fill_dict key value cs acc = Ok (fold_left Dict.assign pairs acc).
Proof.
  intros H. revert acc. induction H as [|c kv cs pairs [Hv Hk] _ IH]; intros acc.
  - reflexivity.
  - simpl. rewrite Hv, Hk. simpl. apply IH.
Qed.

Lemma current_level_ok (nid : NodeIdentifier) :
  nid <> [] -> exists c, get_current_level_identifier nid = Ok c.
Proof.
  intros Hne. unfold get_current_level_identifier.
  destruct (rev (Dict.keys nid)) as [|k ks] eqn:Hrev.
  - apply (f_equal (@rev string)) in Hrev. rewrite rev_involutive in Hrev.
    destruct nid; [congruence | discriminate].
  - assert (Hin : In k (Dict.keys nid)).
    { apply in_rev. rewrite Hrev. now left. }
    destruct (Dict.get k nid) as [v|] eqn:Hg; [eauto|].
    apply get_None in Hg. contradiction.
Qed.

Lemma identified_inv i d cs nid :
  identified (mkTreeNode i d cs nid) = true ->
  nid <> [] /\ Forall (fun c => identified c = true) cs.
Proof.
  unfold identified. simpl. rewrite andb_true_iff. intros [Hn Hcs]. split.
  - destruct nid; [discriminate | discriminate].
  - clear Hn. induction cs as [|c cs IH]; constructor; simpl in Hcs;
      rewrite forallb_app, andb_true_iff in Hcs; tauto.
Qed.

Lemma identified_root (t : TreeNode) :
  identified t = true -> node_identifier t <> [].
Proof. destruct t. intros H. now apply identified_inv in H. Qed.

Lemma identified_children (t : TreeNode) :
  identified t = true -> Forall (fun c => identified c = true) (children t).
Proof. destruct t. intros H. now apply identified_inv in H. Qed.

Lemma get_tree_structure_total (t : TreeNode) :
  identified t = true -> exists s, get_tree_structure t = Ok s.
Proof.
  induction t as [i d cs nid IH] using TreeNode_induction. intros Hid.
  apply identified_inv in Hid as [_ Hcs].
  destruct cs as [|c0 cs0]; [now exists EmptyList|].
  assert (Hpairs : exists pairs,
             Forall2 (fun c kv => get_tree_structure c = Ok (snd kv) /\
                                  get_current_level_identifier (node_identifier c) = Ok (fst kv))
                     (c0 :: cs0) pairs).
  { clear -IH Hcs. induction (c0 :: cs0) as [|c cs IHcs]; [exists []; constructor|].
    inversion IH; inversion Hcs; subst.
    destruct IHcs as [pairs Hp]; try assumption.
    destruct H1 as [s Hs]; [assumption|].
    destruct (current_level_ok (node_identifier c)) as [k Hk];
      [now apply identified_root|].
    exists ((k, s) :: pairs). constructor; [now split | assumption]. }
  destruct Hpairs as [pairs Hp].
  exists (Mapping (fold_left Dict.assign pairs [])).
  change (get_tree_structure (mkTreeNode i d (c0 :: cs0) nid))
    with (node_dict <- fill_dict (fun child => get_current_level_identifier (node_identifier child))
                                 get_tree_structure (c0 :: cs0) [] ;;
          Ok (Mapping node_dict)).
  now rewrite (fill_dict_assign _ _ _ pairs).
Qed.

Lemma exported_pairs (cs : list TreeNode) :
  Forall (fun c => identified c = true) cs ->
  exists pairs,
    Forall2 (fun c kv => get_tree_structure c = Ok (snd kv) /\ level_of c = Ok (fst kv))
            cs pairs.
Proof.
  induction 1 as [|c cs Hc _ [pairs IH]]; [exists []; constructor|].
  destruct (get_tree_structure_total c Hc) as [s Hs].
  destruct (current_level_ok (node_identifier c)) as [k Hk];
    [now apply identified_root|].
  exists ((k, s) :: pairs). constructor; [now split | assumption].
Qed.

Lemma Forall2_In_r {A B} (R : A -> B -> Prop) (l : list A) (l' : list B) (b : B) :
  Forall2 R l l' -> In b l' -> exists a, In a l /\ R a b.
Proof.
  induction 1 as [|a b' l l' Hab _ IH]; simpl; [tauto|].
  intros [<-|Hin]; [exists a; tauto|].
  destruct (IH Hin) as [a' [? ?]]. exists a'. tauto.
Qed.

Lemma Forall2_In_l {A B} (R : A -> B -> Prop) (l : list A) (l' : list B) (a : A) :
  Forall2 R l l' -> In a l -> exists b, In b l' /\ R a b.
Proof.
  induction 1 as [|a' b l l' Hab _ IH]; simpl; [tauto|].
  intros [<-|Hin]; [exists b; tauto|].
  destruct (IH Hin) as [b' [? ?]]. exists b'. tauto.
Qed.

Example get_tree_structure_family :
  get_tree_structure family
  = Ok (Mapping [("m=a", Mapping [("c=1", EmptyList)])]).
Proof. reflexivity. Qed.

(** ** C10 and the second search of [delete_node] *)

Lemma remove_nth_middle {A} (pre : list A) (a : A) (post : list A) :
  remove_nth (List.length pre) (pre ++ a :: post) = pre ++ post.
Proof. induction pre; simpl; [reflexivity | now f_equal]. Qed.

Lemma modify_nth_middle {A} (f : A -> A) (pre : list A) (a : A) (post : list A) :
  modify_nth f (List.length pre) (pre ++ a :: post) = pre ++ f a :: post.
Proof. induction pre; simpl; [reflexivity | now f_equal]. Qed.

Lemma remove_at_deeper i d nid (cs : list TreeNode) (n j : nat) (r : ref) :
  remove_at (n :: j :: r) (mkTreeNode i d cs nid)
  = mkTreeNode i d (modify_nth (remove_at (j :: r)) n cs) nid.
Proof. reflexivity. Qed.

Lemma preorder_refs_head (t : TreeNode) :
  preorder_refs t = [] :: tl (preorder_refs t).
Proof. destruct t. reflexivity. Qed.

Lemma child_refs_not_root {A} (f : A -> list ref) (cs : list A) (n : nat) (r : ref) :
  In r (List.concat (mapi (fun j c => map (cons j) (f c)) n cs)) -> r <> [].
Proof.
  revert n. induction cs as [|c cs IH]; intros n; simpl; [tauto|].
  rewrite in_app_iff. intros [H|H]; [|now apply (IH (S n))].
  apply in_map_iff in H as [r' [<- _]]. discriminate.
Qed.

Lemma tl_refs_not_root (t : TreeNode) (r : ref) :
  In r (tl (preorder_refs t)) -> r <> [].
Proof. destruct t. simpl. apply child_refs_not_root. Qed.

Lemma same_current_level_at_level (query : string) (q : NodeIdentifier) (c0 : string)
      (child : TreeNode) :
  parse_identifier query = Ok q ->
  get_current_level_identifier q = Ok c0 ->
  node_identifier child <> [] ->
  same_current_level query child = Ok (at_level c0 child).
Proof.
  intros Hq Hc0 Hne. unfold same_current_level, at_level, level_of, NodeIdentifier_init.
  destruct (current_level_ok _ Hne) as [a Ha].
  rewrite Ha, Hq. simpl. now rewrite Hc0.
Qed.

Lemma delete_among_children (query c0 : string) i d nid (cs pre : list TreeNode) :
  Forall (fun c => same_current_level query c = Ok (at_level c0 c)) cs ->
  Forall (fun c => _delete_node query c = Ok (without_first_child_at_level c0 c)) cs ->
  (' (cs', b) <- delete_among (same_current_level query) (_delete_node query) cs ;;
   Ok (mkTreeNode i d (pre ++ cs') nid, b))
  = Ok (match find (holds_at (at_level c0) (mkTreeNode i d (pre ++ cs) nid))
                   (List.concat (mapi (fun j c => map (cons j) (preorder_refs c))
                                      (List.length pre) cs)) with
        | Some r => (remove_at r (mkTreeNode i d (pre ++ cs) nid), true)
        | None => (mkTreeNode i d (pre ++ cs) nid, false)
        end).
Proof.
  intros Htest Hrec. revert pre.
  induction cs as [|c rest IH]; intros pre; [reflexivity|].
  inversion Htest as [|? ? Hc Htest']; inversion Hrec as [|? ? Hr Hrec']; subst.
  specialize (IH Htest' Hrec').
  simpl delete_among. rewrite Hc. simpl mapi. simpl List.concat.
  rewrite (preorder_refs_head c). simpl map. simpl find.
  replace (holds_at (at_level c0) (mkTreeNode i d (pre ++ c :: rest) nid) [List.length pre])
    with (at_level c0 c)
    by (symmetry; apply (holds_at_child (at_level c0) i d nid pre c rest [])).
  simpl bind at 2.
  destruct (at_level c0 c) eqn:Hlevel.
  - simpl. now rewrite remove_nth_middle.
  - rewrite Hr. unfold without_first_child_at_level, first_child_at_level.
    rewrite find_app_first, find_map_inner.
    rewrite (find_same
               (fun a => holds_at (at_level c0) (mkTreeNode i d (pre ++ c :: rest) nid)
                                  (List.length pre :: a))
               (holds_at (at_level c0) c))
      by (intros r; apply holds_at_child).
    unfold ref in *.
    match goal with
    | |- context [option_map _ ?found] => destruct found as [r|] eqn:Hfind
    end.
    + apply find_some in Hfind as [Hin _]. apply tl_refs_not_root in Hin.
      destruct r as [|j r]; [congruence|].
      cbn [bind option_map]. rewrite remove_at_deeper, modify_nth_middle. reflexivity.
    + simpl. specialize (IH (pre ++ [c])).
      rewrite length_app, Nat.add_1_r in IH.
      replace ((pre ++ [c]) ++ rest) with (pre ++ c :: rest) in IH
        by now rewrite <- app_assoc.
      rewrite <- IH.
      destruct (delete_among (same_current_level query) (_delete_node query) rest)
        as [[rest' b]|e]; simpl; [|reflexivity].
      now rewrite <- app_assoc.
Qed.

Lemma _delete_node_first_child_at_level (query : string) (q : NodeIdentifier)
      (c0 : string) (t : TreeNode) :
  parse_identifier query = Ok q ->
  get_current_level_identifier q = Ok c0 ->
  identified t = true ->
  _delete_node query t = Ok (without_first_child_at_level c0 t).
Proof.
  intros Hq Hc0.
  induction t as [i d cs nid IH] using TreeNode_induction. intros Hid.
  apply identified_inv in Hid as [_ Hcs].
  assert (Htest : Forall (fun c => same_current_level query c = Ok (at_level c0 c)) cs).
  { apply Forall_forall. intros c Hc. rewrite Forall_forall in Hcs.
    eapply same_current_level_at_level; eauto using identified_root. }
  assert (Hrec : Forall (fun c => _delete_node query c
                                  = Ok (without_first_child_at_level c0 c)) cs).
  { apply Forall_forall. intros c Hc. rewrite Forall_forall in IH, Hcs. auto. }
  exact (delete_among_children query c0 i d nid cs [] Htest Hrec).
Qed.

Lemma holds_at_valid (P : TreeNode -> bool) (t : TreeNode) (r : ref) :
  holds_at P t r = true -> exists n, node_at t r = Some n /\ P n = true.
Proof. unfold holds_at. destruct (node_at t r) as [n|]; [eauto | discriminate]. Qed.

Lemma flat_map_step {A B} (f : A -> list B) (a : A) (l : list A) :
  flat_map f (a :: l) = f a ++ flat_map f l.
Proof. reflexivity. Qed.

Lemma get_all_children_node i d cs nid :
  get_all_children (mkTreeNode i d cs nid)
  = mkBeauty i d nid :: flat_map get_all_children cs.
Proof. reflexivity. Qed.

(** Removing a child removes the contiguous run of its subtree from the
    pre-order listing and nothing else. *)
Lemma remove_at_drops_subtree (r : ref) (t sub : TreeNode) :
  r <> [] -> node_at t r = Some sub ->
  exists before after,
    get_all_children t = before ++ get_all_children sub ++ after /\
    get_all_children (remove_at r t) = before ++ after.
Proof.
  revert t. induction r as [|n r IH]; intros [i d cs nid] Hne Hat; [congruence|].
  simpl in Hat. destruct (nth_error cs n) as [c|] eqn:Hn; [|discriminate].
  apply nth_error_split in Hn as (pre & post & -> & <-).
  destruct r as [|j r].
  - injection Hat as ->.
    exists (mkBeauty i d nid :: flat_map get_all_children pre),
           (flat_map get_all_children post).
    simpl remove_at. rewrite remove_nth_middle, !get_all_children_node, !flat_map_app.
    split; reflexivity.
  - destruct (IH c ltac:(discriminate) Hat) as (b1 & a1 & H1 & H2).
    exists (mkBeauty i d nid :: flat_map get_all_children pre ++ b1),
           (a1 ++ flat_map get_all_children post).
    rewrite remove_at_deeper, modify_nth_middle, !get_all_children_node, !flat_map_app.
    rewrite !flat_map_step, H1, H2. simpl. rewrite <- !app_assoc. split; reflexivity.
Qed.

Lemma parsed_current_level (query : string) (q : NodeIdentifier) :
  parse_identifier query = Ok q -> exists c0, get_current_level_identifier q = Ok c0.
Proof.
  intros H. apply current_level_ok. now apply parse_identifier_shape in H.
Qed.

Lemma delete_node_outcome (t : TreeNode) (query : string) (q : NodeIdentifier)
      (c0 : string) :
  identified t = true ->
  parse_identifier query = Ok q ->
  get_current_level_identifier q = Ok c0 ->
  delete_node t query
  = Ok match _search q t with
       | Some _ =>
           match first_child_at_level c0 t with
           | Some r => (remove_at r t, (true, "Node deleted successfully."))
           | None => (t, (false, "Node not found."))
           end
       | None => (t, (false, "Node not found."))
       end.
Proof.
  intros Hid Hq Hc0. unfold delete_node, find_by_query, NodeIdentifier_init.
  rewrite Hq. simpl. destruct (_search q t); [|reflexivity].
  rewrite (_delete_node_first_child_at_level query q c0) by assumption.
  unfold without_first_child_at_level.
  destruct (first_child_at_level c0 t); reflexivity.
Qed.

(** The collision scenario: with [c=x] under both [m=a] and [m=b], deleting
    ["o=root,m=b,c=x"] removes the [c=x] under [m=a], the first in
    pre-order, and keeps the one that was asked for. *)
Example delete_collision :
  first_child_at_level "c=x" two_branches = Some [0; 0] /\
  delete_node two_branches "o=root,m=b,c=x"
  = Ok (mkTreeNode 1%N [] [
          mkTreeNode 2%N [] [] [("o", "root"); ("m", "a")];
          mkTreeNode 4%N [] [
            mkTreeNode 5%N [] [] [("o", "root"); ("m", "b"); ("c", "x")]
          ] [("o", "root"); ("m", "b")]
        ] [("o", "root")],
        (true, "Node deleted successfully.")).
Proof. split; reflexivity. Qed.

(** The scenario of the specification: deleting ["o=root,m=a"] removes the
    node and its child, and the child is then not found. *)
Example delete_scenario :
  delete_node family "o=root,m=a"
  = Ok (root_only, (true, "Node deleted successfully.")) /\
  find_by_query root_only "o=root,m=a,c=1" = Ok None.
Proof. split; reflexivity. Qed.

Lemma _delete_node_keeps_root (query : string) (t t' : TreeNode) (b : bool) :
  _delete_node query t = Ok (t', b) ->
  id t' = id t /\ data t' = data t /\ node_identifier t' = node_identifier t.
Proof.
  destruct t as [i d cs nid]. simpl.
  destruct (delete_among (same_current_level query) (_delete_node query) cs)
    as [[cs' r]|e]; simpl; [|discriminate].
  intros H. injection H as <- _. auto.
Qed.

(** C10, as the code has it: whatever the query, the node a successful or
    failed [delete_node] leaves at the root has the identity, the payload
    and the identifier of the root it was called on; and when no node
    below the root has the current-level identifier of the query (as when
    the query subset-matches the root alone and no child ends in the last
    pair of the query), the call returns (False, "Node not found.") and
    the tree is unchanged. *)
Theorem delete_node_keeps_root (t : TreeNode) (query : string) :
  (forall t' result,
      delete_node t query = Ok (t', result) ->
      id t' = id t /\ data t' = data t /\ node_identifier t' = node_identifier t) /\
  (forall q c0,
      identified t = true ->
      parse_identifier query = Ok q ->
      get_current_level_identifier q = Ok c0 ->
      first_child_at_level c0 t = None ->
      delete_node t query = Ok (t, (false, "Node not found."))).
Proof.
  split.
  - intros t' result. unfold delete_node.
    destruct (find_by_query t query) as [[r|]|e]; simpl; try discriminate.
    + destruct (_delete_node query t) as [[t1 b]|e] eqn:Hd; simpl; [|discriminate].
      apply _delete_node_keeps_root in Hd.
      destruct b; intros H; injection H as <- _; exact Hd.
    + intros H. injection H as <- _. auto.
  - intros q c0 Hid Hq Hc0 Hnone.
    rewrite (delete_node_outcome t query q c0 Hid Hq Hc0), Hnone.
    destruct (_search q t); reflexivity.
Qed.

Lemma delete_node_keeps_root_witness :
  (id root_only = id family /\ data root_only = data family /\
   node_identifier root_only = node_identifier family) /\
  delete_node family "o=root" = Ok (family, (false, "Node not found.")).
Proof.
  destruct (delete_node_keeps_root family "o=root") as [_ Hroot].
  destruct (delete_node_keeps_root family "o=root,m=a") as [Hkeep _].
  split.
  - apply (Hkeep root_only (true, "Node deleted successfully.")). reflexivity.
  - apply (Hroot [("o", "root")] "o=root"); reflexivity.
Defined.

(** C10 as stated fails in its last part: in [wide_root] the query
    ["r=2,p=1"] subset-matches the root and no other node, and
    [delete_node] removes the child [o=root,p=1] and reports success. *)
Lemma delete_matching_only_root_succeeds :
  find_by_query wide_root "r=2,p=1" = Ok (Some []) /\
  (forall n, In n (tl (preorder wide_root)) ->
             subset_match [("r", "2"); ("p", "1")] n = false) /\
  delete_node wide_root "r=2,p=1"
  = Ok (mkTreeNode 1%N [] [] [("o", "root"); ("p", "1"); ("r", "2")],
        (true, "Node deleted successfully.")).
Proof.
  split; [reflexivity | split; [|reflexivity]].
  intros n [<-|[]]. reflexivity.
Qed.

(** ** C1 and C4: [insert_node] *)

Example samples_are_built_by_insert :
  TreeNode_init 1%N [] "o=root" = Ok root_only /\
  (exists t1,
      insert_node root_only 2%N [("meta1", "meta_val")] "o=root,m=a"
      = Ok (t1, (true, "Node inserted successfully.")) /\
      insert_node t1 3%N [] "o=root,m=a,c=1"
      = Ok (family, (true, "Node inserted successfully."))) /\
  insert_node family 4%N [] "o=root,c=1"
  = Ok (family_and_c1, (true, "Node inserted successfully.")) /\
  (exists t0,
      TreeNode_init 1%N [] "o=root,p=1,r=2" = Ok t0 /\
      insert_node t0 2%N [] "o=root,p=1"
      = Ok (wide_root, (true, "Node inserted successfully."))).
Proof.
  split; [reflexivity | split; [|split]].
  - eexists. split; reflexivity.
  - reflexivity.
  - eexists. split; reflexivity.
Qed.

Lemma search_valid (q : NodeIdentifier) (t : TreeNode) (r : ref) :
  _search q t = Some r -> exists n, node_at t r = Some n /\ subset_match q n = true.
Proof.
  intros H. pose proof (search_outcome q t) as Ho. rewrite H in Ho.
  destruct Ho as [n [Hn Hfind]]. exists n. split; [assumption|].
  now apply find_some in Hfind.
Qed.

Lemma search_finds (q : NodeIdentifier) (t n : TreeNode) :
  In n (preorder t) -> subset_match q n = true -> exists r, _search q t = Some r.
Proof.
  intros Hin Hn. pose proof (search_outcome q t) as Ho.
  destruct (_search q t) as [r|]; [eauto|].
  rewrite (Ho n Hin) in Hn. discriminate.
Qed.

(** An identifier equal to [d] is matched by every part of [d]. *)
Lemma eq_subset_match (d part : NodeIdentifier) (n : TreeNode) :
  NodeIdentifier_eq d (node_identifier n) = true ->
  incl part d -> subset_match part n = true.
Proof.
  intros Heq Hincl. unfold subset_match. apply forallb_forall. intros [k v] Hin.
  simpl. rewrite (NodeIdentifier_eq_get d _ k v Heq) by now apply Hincl.
  apply String.eqb_refl.
Qed.

(** For a dict, answering every pair of the query is holding every pair
    of the query. *)
Lemma subset_match_incl (q : NodeIdentifier) (n : TreeNode) :
  NoDup (Dict.keys (node_identifier n)) ->
  (subset_match q n = true <-> incl q (node_identifier n)).
Proof.
  intros Hnd. unfold subset_match. rewrite forallb_forall. split.
  - intros H [k v] Hin. specialize (H _ Hin). simpl in H.
    destruct (Dict.get k (node_identifier n)) as [v'|] eqn:Hg; [|discriminate].
    apply String.eqb_eq in H. subst v'. now apply get_In.
  - intros H [k v] Hin. simpl.
    rewrite (In_get _ k v Hnd (H _ Hin)). apply String.eqb_refl.
Qed.

Lemma subset_match_self (d : NodeIdentifier) i dat cs :
  NoDup (Dict.keys d) -> subset_match d (mkTreeNode i dat cs d) = true.
Proof.
  intros Hnd. apply (eq_subset_match d); [|apply incl_refl].
  now apply NodeIdentifier_eq_refl.
Qed.

(** The text of the parent, rendered by [insert_node], parses back to the
    pairs before the last. *)
Lemma parent_identifier_parses (d parent : NodeIdentifier) (own : string * string) :
  d = parent ++ [own] -> parent <> [] ->
  NoDup (Dict.keys d) -> forallb plain_pair d = true ->
  parse_identifier (PyStr.join "," (map render_pair parent)) = Ok parent.
Proof.
  intros -> Hne Hnd Hplain. apply parse_render; [assumption | |].
  - rewrite forallb_app, andb_true_iff in Hplain. tauto.
  - unfold Dict.keys in *. rewrite map_app in Hnd. now apply NoDup_app_remove_r in Hnd.
Qed.

(** The duplicate scan is reached, and answers, for every identifier of
    two pairs or more. *)
Lemma insert_node_duplicate (t : TreeNode) (u : uuid) (new_data : payload)
      (text : string) (d : NodeIdentifier) :
  is_valid_new_node_identifier t text = Ok true ->
  parse_identifier text = Ok d ->
  2 <= List.length d ->
  existsb (NodeIdentifier_eq d) (_extract_node_identifiers t) = true ->
  insert_node t u new_data text
  = Ok (t, (false, "A node with this identifier already exists.")).
Proof.
  intros Hvalid Hd Hlen Hdup.
  destruct (parse_identifier_shape text d Hd) as [_ [Hnd Hplain]].
  unfold insert_node, NodeIdentifier_init. rewrite Hvalid, Hd. simpl.
  unfold NodeIdentifier_items.
  destruct (rev d) as [|own rest] eqn:Hrev.
  { apply (f_equal (@List.length _)) in Hrev. rewrite length_rev in Hrev.
    simpl in Hrev. lia. }
  assert (Hsplit : d = rev rest ++ [own]).
  { rewrite <- (rev_involutive d), Hrev. reflexivity. }
  assert (Hne : rev rest <> []).
  { intros E. rewrite E in Hsplit. rewrite Hsplit in Hlen. simpl in Hlen. lia. }
  unfold find_by_query, NodeIdentifier_init.
  rewrite (parent_identifier_parses d (rev rest) own Hsplit Hne Hnd Hplain). simpl.
  apply existsb_exists in Hdup as [nid [Hin Heq]].
  rewrite extract_preorder in Hin. apply in_map_iff in Hin as [n [<- Hn]].
  destruct (search_finds (rev rest) t n Hn) as [r Hr].
  { apply (eq_subset_match d); [assumption|].
    rewrite Hsplit. apply incl_appl, incl_refl. }
  rewrite Hr.
  replace (existsb (NodeIdentifier_eq d) (_extract_node_identifiers t)) with true;
    [reflexivity|].
  symmetry. apply existsb_exists. exists (node_identifier n). split; [|assumption].
  rewrite extract_preorder. now apply in_map.
Qed.

(** C1, where the code departs from it: on a tree whose root is [o=root],
    whatever its children, inserting ["o=root"] again raises [ValueError]:
    the parent text of a one-pair identifier is the empty string, which the
    parser refuses before the duplicate scan is reached. *)
Theorem insert_root_identifier_raises (i u : uuid) (d new_data : payload)
        (cs : list TreeNode) :
  existsb (NodeIdentifier_eq [("o", "root")])
          (_extract_node_identifiers (mkTreeNode i d cs [("o", "root")])) = true /\
  insert_node (mkTreeNode i d cs [("o", "root")]) u new_data "o=root" = Raise ValueError.
Proof. split; reflexivity. Qed.

Example insert_duplicate_below_root :
  insert_node family 9%N [] "o=root,m=a,c=1"
  = Ok (family, (false, "A node with this identifier already exists.")) /\
  insert_node wide_root 9%N [] "o=root,p=1,r=2"
  = Ok (wide_root, (false, "A node with this identifier already exists.")).
Proof. split; reflexivity. Qed.

(** What a successful [insert_node] has done. *)
Lemma insert_node_success (t t' : TreeNode) (u : uuid) (new_data : payload)
      (text message : string) :
  insert_node t u new_data text = Ok (t', (true, message)) ->
  exists d r parent,
    parse_identifier text = Ok d /\
    existsb (NodeIdentifier_eq d) (_extract_node_identifiers t) = false /\
    node_at t r = Some parent /\
    t' = modify_at (add_child (mkTreeNode u new_data [] d)) r t.
Proof.
  unfold insert_node, NodeIdentifier_init, TreeNode_init, NodeIdentifier_init.
  destruct (is_valid_new_node_identifier t text) as [[|]|e]; simpl; try discriminate.
  destruct (parse_identifier text) as [d|e] eqn:Hd; simpl; [|discriminate].
  destruct (rev (NodeIdentifier_items d)) as [|own rest]; [discriminate|].
  unfold find_by_query, NodeIdentifier_init.
  destruct (parse_identifier (PyStr.join "," (map render_pair (rev rest))))
    as [parent_q|e]; simpl; [|discriminate].
  destruct (_search parent_q t) as [r|] eqn:Hr; [|discriminate].
  destruct (existsb (NodeIdentifier_eq d) (_extract_node_identifiers t)) eqn:Hdup;
    [discriminate|].
  intros H. injection H as <- _.
  destruct (search_valid parent_q t r Hr) as [parent [Hparent _]].
  exists d, r, parent. auto.
Qed.

Lemma preorder_node i d cs nid :
  preorder (mkTreeNode i d cs nid) = mkTreeNode i d cs nid :: flat_map preorder cs.
Proof. reflexivity. Qed.

Lemma modify_at_child (f : TreeNode -> TreeNode) i d nid pre c post (r : ref) :
  modify_at f (List.length pre :: r) (mkTreeNode i d (pre ++ c :: post) nid)
  = mkTreeNode i d (pre ++ modify_at f r c :: post) nid.
Proof. simpl. now rewrite modify_nth_middle. Qed.

(** Appending a leaf under the node at [r] puts one entry into the listing
    and leaves the other entries as they were. *)
Lemma add_child_listing (r : ref) (t parent : TreeNode) (u : uuid) (dat : payload)
      (d : NodeIdentifier) :
  node_at t r = Some parent ->
  exists before after,
    get_all_children t = before ++ after /\
    get_all_children (modify_at (add_child (mkTreeNode u dat [] d)) r t)
    = before ++ mkBeauty u dat d :: after.
Proof.
  revert t. induction r as [|n r IH]; intros [i dd cs nid] Hat.
  - exists (get_all_children (mkTreeNode i dd cs nid)), [].
    split; [now rewrite app_nil_r|].
    simpl. rewrite flat_map_app. reflexivity.
  - simpl in Hat. destruct (nth_error cs n) as [c|] eqn:Hn; [|discriminate].
    apply nth_error_split in Hn as (pre & post & -> & <-).
    destruct (IH c Hat) as (b1 & a1 & H1 & H2).
    exists (mkBeauty i dd nid :: flat_map get_all_children pre ++ b1),
           (a1 ++ flat_map get_all_children post).
    rewrite modify_at_child, !get_all_children_node, !flat_map_app, !flat_map_step.
    rewrite H1, H2. simpl. rewrite <- !app_assoc. split; reflexivity.
Qed.

(** The nodes after the insertion are the new leaf and nodes that carry
    the identifiers the tree had. *)
Lemma add_child_nodes (r : ref) (t parent new : TreeNode) :
  node_at t r = Some parent -> preorder new = [new] ->
  let t' := modify_at (add_child new) r t in
  In new (preorder t') /\
  forall n, In n (preorder t') ->
            n = new \/ In (node_identifier n) (_extract_node_identifiers t).
Proof.
  intros Hat Hleaf. revert t Hat.
  induction r as [|k r IH]; intros [i d cs nid] Hat; cbv zeta.
  - simpl modify_at. unfold add_child. simpl id. simpl data. simpl children.
    simpl node_identifier. rewrite preorder_node, flat_map_app. simpl flat_map.
    rewrite Hleaf, app_nil_r. split.
    + right. apply in_or_app. right. now left.
    + intros n [<-|Hin]; [right; now left|].
      apply in_app_or in Hin as [Hin|[<-|[]]]; [|now left].
      right. rewrite extract_preorder, preorder_node. simpl. right.
      now apply in_map.
  - simpl in Hat. destruct (nth_error cs k) as [c|] eqn:Hk; [|discriminate].
    apply nth_error_split in Hk as (pre & post & -> & <-).
    destruct (IH c Hat) as [Hnew Hall].
    rewrite modify_at_child, preorder_node, flat_map_app, flat_map_step. split.
    + right. apply in_or_app. right. apply in_or_app. now left.
    + intros n [<-|Hin]; [right; now left|].
      assert (Hsub : forall m, In m (flat_map preorder pre) \/ In m (preorder c)
                               \/ In m (flat_map preorder post) ->
                               In (node_identifier m)
                                  (_extract_node_identifiers
                                     (mkTreeNode i d (pre ++ c :: post) nid))).
      { intros m Hm. rewrite extract_preorder, preorder_node. simpl. right.
        apply in_map. rewrite flat_map_app, flat_map_step, !in_app_iff. tauto. }
      apply in_app_or in Hin as [Hin|Hin]; [right; apply Hsub; tauto|].
      apply in_app_or in Hin as [Hin|Hin]; [|right; apply Hsub; tauto].
      destruct (Hall n Hin) as [->|Hold]; [now left|]. right.
      rewrite extract_preorder in Hold. apply in_map_iff in Hold as [m [Hm Hin']].
      rewrite <- Hm. apply Hsub. tauto.
Qed.


Lemma extract_listing (t : TreeNode) :
  _extract_node_identifiers t = map b_node_id (get_all_children t).
Proof.
  rewrite extract_preorder, get_all_children_preorder, map_map. reflexivity.
Qed.




(** The gate of [insert_node] lets in every text whose first key is the
    first key of the root. *)
Lemma prefix_append (a b : string) : String.prefix a (a ++ b) = true.
Proof.
  induction a as [|c a IH]; simpl; [now destruct b|].
  destruct (ascii_dec c c); [exact IH | congruence].
Qed.

Lemma string_append_assoc (a b c : string) : ((a ++ b) ++ c = a ++ (b ++ c))%string.
Proof. induction a as [|x a IH]; simpl; [reflexivity | now rewrite IH]. Qed.

Lemma assign_all_head {V} (l acc : list (string * V)) (k : string) (v : V) :
  exists v' acc', fold_left Dict.assign l ((k, v) :: acc) = (k, v') :: acc'.
Proof.
  revert v acc. induction l as [|[k0 v0] l IH]; intros v acc; simpl; [eauto|].
  unfold Dict.assign at 2. simpl.
  destruct (String.eqb k k0); apply IH.
Qed.

Lemma parsed_text_starts_with_first_key (text : string) (d : NodeIdentifier)
      (k : string) :
  parse_identifier text = Ok d -> hd_error (Dict.keys d) = Some k ->
  PyStr.startswith text (k ++ "=") = true.
Proof.
  intros Hd Hk.
  destruct (parse_identifier_segments text d Hd) as [pairs [Hseg [-> _]]].
  destruct pairs as [|[k1 v1] ps].
  { simpl in Hseg. symmetry in Hseg. now apply split_not_nil in Hseg. }
  unfold Dict.of_pairs in Hk. simpl in Hk.
  destruct (assign_all_head ps [] k1 v1) as (v' & acc' & E).
  unfold Dict.assign at 2 in Hk. simpl in Hk. rewrite E in Hk.
  injection Hk as <-.
  rewrite <- (join_split comma text), <- Hseg. unfold PyStr.startswith.
  simpl map. unfold render_pair at 1. simpl fst. simpl snd.
  destruct (map render_pair ps) as [|seg segs].
  - change (PyStr.join (String comma "") [(k1 ++ "=" ++ v1)%string])
      with (k1 ++ "=" ++ v1)%string.
    rewrite <- string_append_assoc. apply prefix_append.
  - change (PyStr.join (String comma "") ((k1 ++ "=" ++ v1)%string :: seg :: segs))
      with ((k1 ++ "=" ++ v1) ++ String comma (PyStr.join (String comma "") (seg :: segs)))%string.
    rewrite <- (string_append_assoc k1 "=" v1), string_append_assoc.
    apply prefix_append.
Qed.

(** The sibling of the failing case: a text of two pairs or more that
    parses to the identifier of a node of the tree, and starts with the
    key of the root as every inserted identifier does, is refused as a
    duplicate and the tree is unchanged. *)
Lemma insert_node_existing_identifier (t : TreeNode) (u : uuid) (new_data : payload)
      (text : string) (d : NodeIdentifier) :
  parse_identifier text = Ok d ->
  In d (_extract_node_identifiers t) ->
  hd_error (Dict.keys (node_identifier t)) = hd_error (Dict.keys d) ->
  2 <= List.length d ->
  insert_node t u new_data text
  = Ok (t, (false, "A node with this identifier already exists.")).
Proof.
  intros Hd Hin Hkey Hlen.
  destruct (parse_identifier_shape text d Hd) as [Hne [Hnd _]].
  apply insert_node_duplicate with (d := d); try assumption.
  - unfold is_valid_new_node_identifier.
    destruct (Dict.keys (node_identifier t)) as [|root_key ks] eqn:Hkeys.
    + destruct d; [congruence | discriminate].
    + simpl in Hkey. symmetry in Hkey.
      now rewrite (parsed_text_starts_with_first_key text d root_key Hd Hkey).
  - apply existsb_exists. exists d. split; [assumption|].
    now apply NodeIdentifier_eq_refl.
Qed.

(** Every identifier of one pair that passes the gate meets the same
    fault, duplicate or not. *)
Lemma insert_one_pair_raises (t : TreeNode) (u : uuid) (new_data : payload)
      (text : string) (own : string * string) :
  is_valid_new_node_identifier t text = Ok true ->
  parse_identifier text = Ok [own] ->
  insert_node t u new_data text = Raise ValueError.
Proof.
  intros Hvalid Hd. unfold insert_node, NodeIdentifier_init.
  rewrite Hvalid, Hd. reflexivity.
Qed.

(** ** Every node built by the module is identified *)

Lemma TreeNode_init_identified (u : uuid) (dat : payload) (text : string) (t : TreeNode) :
  TreeNode_init u dat text = Ok t -> identified t = true.
Proof.
  unfold TreeNode_init, NodeIdentifier_init.
  destruct (parse_identifier text) as [d|] eqn:Hd; simpl; [|discriminate].
  intros H. injection H as <-.
  apply parse_identifier_shape in Hd as [Hne _].
  unfold identified. simpl. destruct d; [congruence | reflexivity].
Qed.

Lemma insert_node_failure (t t' : TreeNode) (u : uuid) (new_data : payload)
      (text message : string) :
  insert_node t u new_data text = Ok (t', (false, message)) -> t' = t.
Proof.
  unfold insert_node, NodeIdentifier_init, TreeNode_init, NodeIdentifier_init.
  destruct (is_valid_new_node_identifier t text) as [[|]|e]; simpl; try discriminate.
  - destruct (parse_identifier text) as [d|e]; simpl; [|discriminate].
    destruct (rev (NodeIdentifier_items d)) as [|own rest]; [discriminate|].
    destruct (find_by_query t _) as [[r|]|e]; simpl; try discriminate.
    + destruct (existsb (NodeIdentifier_eq d) (_extract_node_identifiers t));
        [|discriminate].
      intros H. now injection H as <-.
    + intros H. now injection H as <-.
  - intros H. now injection H as <-.
Qed.

Lemma identified_listing (t : TreeNode) :
  identified t
  = forallb (fun b => negb (Nat.eqb (List.length (b_node_id b)) 0)) (get_all_children t).
Proof.
  unfold identified. rewrite extract_listing.
  induction (get_all_children t) as [|b l IH]; simpl; [reflexivity | now rewrite IH].
Qed.

Lemma insert_node_identified (t t' : TreeNode) (u : uuid) (new_data : payload)
      (text : string) (result : bool * string) :
  identified t = true ->
  insert_node t u new_data text = Ok (t', result) ->
  identified t' = true.
Proof.
  intros Hid Hins. destruct result as [[|] message].
  - destruct (insert_node_success _ _ _ _ _ _ Hins)
      as (d & r & parent & Hd & _ & Hat & ->).
    destruct (add_child_listing r t parent u new_data d Hat) as (before & after & H1 & H2).
    rewrite identified_listing in *. rewrite H2. rewrite H1 in Hid.
    rewrite forallb_app in *. simpl.
    apply parse_identifier_shape in Hd as [Hne _].
    apply andb_true_iff in Hid as [-> ->].
    destruct d; [congruence | reflexivity].
  - now rewrite (insert_node_failure _ _ _ _ _ _ Hins).
Qed.

Lemma flat_map_modify_nth {A B} (g : A -> list B) (f : A -> A) (k : nat) (l : list A) :
  (forall a, g (f a) = g a) -> flat_map g (modify_nth f k l) = flat_map g l.
Proof.
  intros H. revert k. induction l as [|a l IH]; intros [|k]; simpl;
    rewrite ?H, ?IH; reflexivity.
Qed.

Lemma set_data_identifiers (new_data : payload) (r : ref) (t : TreeNode) :
  _extract_node_identifiers (modify_at (set_data new_data) r t)
  = _extract_node_identifiers t.
Proof.
  revert t. induction r as [|k r IH]; intros [i d cs nid]; [reflexivity|].
  simpl. f_equal. now apply flat_map_modify_nth.
Qed.

Lemma update_node_identified (t t' : TreeNode) (query : string) (new_data : payload)
      (result : bool * string) :
  identified t = true ->
  update_node t query new_data = Ok (t', result) ->
  identified t' = true.
Proof.
  intros Hid. unfold update_node.
  destruct (find_by_query t query) as [[r|]|e]; simpl; try discriminate;
    intros H; injection H as <- _; [|assumption].
  unfold identified. now rewrite set_data_identifiers.
Qed.

Lemma delete_node_identified (t t' : TreeNode) (query : string)
      (result : bool * string) :
  identified t = true ->
  delete_node t query = Ok (t', result) ->
  identified t' = true.
Proof.
  intros Hid Hdel.
  destruct (parse_identifier query) as [q|e] eqn:Hq.
  - destruct (parsed_current_level query q Hq) as [c0 Hc0].
    rewrite (delete_node_outcome t query q c0 Hid Hq Hc0) in Hdel.
    destruct (_search q t) as [found|]; [|injection Hdel as <- _; assumption].
    destruct (first_child_at_level c0 t) as [r|] eqn:Hfirst;
      injection Hdel as <- _; [|assumption].
    apply find_some in Hfirst as [Hin Hholds].
    apply tl_refs_not_root in Hin.
    apply holds_at_valid in Hholds as [sub [Hsub _]].
    destruct (remove_at_drops_subtree r t sub Hin Hsub) as (before & after & H1 & H2).
    rewrite identified_listing in *. rewrite H2. rewrite H1 in Hid.
    rewrite !forallb_app in *. rewrite !andb_true_iff in Hid.
    apply andb_true_iff. tauto.
  - unfold delete_node, find_by_query, NodeIdentifier_init in Hdel.
    rewrite Hq in Hdel. discriminate.
Qed.

(** ** Current-level identifiers as pairs *)

(** On parsed pairs the rendering ["k=v"] that [_delete_node] compares
    stands for the pair itself. *)
Lemma render_pair_injective (a b : string * string) :
  plain_pair a = true -> plain_pair b = true ->
  render_pair a = render_pair b -> a = b.
Proof.
  intros Ha Hb E.
  apply pair_of_segment_render in Ha. apply pair_of_segment_render in Hb.
  rewrite E in Ha. congruence.
Qed.

Lemma current_level_is_last_pair (nid : NodeIdentifier) (own : string * string)
      (before : list (string * string)) :
  NoDup (Dict.keys nid) -> nid = before ++ [own] ->
  get_current_level_identifier nid = Ok (render_pair own).
Proof.
  intros Hnd ->. unfold get_current_level_identifier, Dict.keys.
  rewrite map_app, rev_app_distr. simpl.
  rewrite (In_get _ (fst own) (snd own) Hnd).
  - reflexivity.
  - apply in_or_app. right. left. now destruct own.
Qed.

(** * Further properties of the module *)

(** ** Which texts the parser accepts *)

Lemma split_length (sep : ascii) (s : string) :
  List.length (PyStr.split sep s) = S (count_char sep s).
Proof.
  induction s as [|c s IH]; [reflexivity|]. simpl.
  destruct (Ascii.eqb c sep); simpl; [now rewrite IH|].
  destruct (PyStr.split sep s) as [|w ws]; simpl in *; [discriminate | exact IH].
Qed.

Lemma pair_of_segment_one_equals (seg : string) :
  count_char equals seg = 1 -> exists kv, pair_of_segment seg = Ok kv.
Proof.
  intros H. pose proof (split_length equals seg) as Hlen. rewrite H in Hlen.
  unfold pair_of_segment.
  destruct (PyStr.split equals seg) as [|k [|v [|? ?]]]; try discriminate.
  now exists (k, v).
Qed.

Lemma pair_of_segment_other (seg : string) :
  count_char equals seg <> 1 -> pair_of_segment seg = Raise ValueError.
Proof.
  intros H. pose proof (split_length equals seg) as Hlen.
  unfold pair_of_segment.
  destruct (PyStr.split equals seg) as [|k [|v [|? ?]]]; try reflexivity.
  simpl in Hlen. exfalso. apply H. now injection Hlen as <-.
Qed.

Lemma mapM_all_ok {A B} (f : A -> res B) (l : list A) :
  (forall a, In a l -> exists b, f a = Ok b) -> exists l', mapM f l = Ok l'.
Proof.
  induction l as [|a l IH]; intros H; [now exists []|].
  destruct (H a (or_introl eq_refl)) as [b Hb].
  destruct IH as [l' Hl']; [intros x Hx; apply H; now right|].
  exists (b :: l'). simpl. now rewrite Hb, Hl'.
Qed.

(** X1: [parse_identifier] accepts a text exactly when every
    comma-separated segment has one equals sign, no more and no less; every
    other text, the empty one included, makes it raise [ValueError]. *)
Theorem parse_identifier_accepts (text : string) :
  if well_formed_text text
  then exists nid, parse_identifier text = Ok nid
  else parse_identifier text = Raise ValueError.
Proof.
  unfold well_formed_text, parse_identifier.
  destruct (forallb _ (PyStr.split comma text)) eqn:Hall.
  - rewrite forallb_forall in Hall.
    destruct (mapM_all_ok pair_of_segment (PyStr.split comma text)) as [pairs Hp].
    + intros seg Hin. apply pair_of_segment_one_equals.
      apply Nat.eqb_eq. now apply Hall.
    + rewrite Hp. simpl. eauto.
  - rewrite (mapM_raise pair_of_segment _ ValueError); [reflexivity | |].
    + intros a e. apply pair_of_segment_raises.
    + apply not_true_iff_false in Hall.
      destruct (existsb (fun seg => negb (Nat.eqb (count_char equals seg) 1))
                        (PyStr.split comma text)) eqn:Hex.
      * apply existsb_exists in Hex as [seg [Hin Hseg]].
        exists seg. split; [assumption|]. apply pair_of_segment_other.
        apply negb_true_iff, Nat.eqb_neq in Hseg. exact Hseg.
      * exfalso. apply Hall. apply forallb_forall. intros seg Hin.
        destruct (Nat.eqb (count_char equals seg) 1) eqn:E; [reflexivity|].
        assert (existsb (fun seg => negb (Nat.eqb (count_char equals seg) 1))
                        (PyStr.split comma text) = true); [|congruence].
        apply existsb_exists. exists seg. now rewrite E.
Qed.

Example parse_identifier_accepts_examples :
  well_formed_text "o=root,m=a" = true /\
  well_formed_text "o=root,m=a=b" = false /\
  well_formed_text "o=root," = false /\
  well_formed_text "" = false.
Proof. repeat split. Qed.

(** ** What the parser returns *)

Lemma last_occurrence {V} (l : list (string * V)) (k : string) :
  In k (Dict.keys l) ->
  exists pre v post, l = pre ++ (k, v) :: post /\ ~ In k (Dict.keys post).
Proof.
  induction l as [|[k0 v0] l IH]; simpl; [tauto|].
  destruct (in_dec string_dec k (Dict.keys l)) as [Hin|Hnin].
  - intros _. destruct (IH Hin) as (pre & v & post & -> & Hpost).
    now exists ((k0, v0) :: pre), v, post.
  - intros [<-|H]; [|contradiction]. now exists [], v0, l.
Qed.

(** X2: an identifier the parser returns has at least one pair, pairwise
    distinct keys, keys and values without comma or equals sign, and no
    more pairs than the text has segments; where a key is repeated in the
    text, the value of the last segment with that key is the one kept. *)
Theorem parse_identifier_result (text : string) (nid : NodeIdentifier) :
  parse_identifier text = Ok nid ->
  nid <> [] /\
  NoDup (Dict.keys nid) /\
  forallb plain_pair nid = true /\
  List.length nid <= List.length (PyStr.split comma text) /\
  exists pairs,
    map render_pair pairs = PyStr.split comma text /\
    forall k v,
      Dict.get k nid = Some v <->
      exists pre post, pairs = pre ++ (k, v) :: post /\ ~ In k (Dict.keys post).
Proof.
  intros H. destruct (parse_identifier_shape text nid H) as (Hne & Hnd & Hplain).
  destruct (parse_identifier_segments text nid H) as (pairs & Hseg & -> & _).
  repeat split; try assumption.
  - rewrite <- Hseg, length_map. apply (assign_all_length pairs []).
  - exists pairs. split; [assumption|]. intros k v. split.
    + intros Hg. assert (Hin : In k (Dict.keys pairs)).
      { apply get_In, of_pairs_In in Hg. change k with (fst (k, v)). now apply in_map. }
      destruct (last_occurrence pairs k Hin) as (pre & v' & post & -> & Hpost).
      unfold Dict.of_pairs in Hg. rewrite assign_all_get_last in Hg by assumption.
      injection Hg as ->. eauto.
    + intros (pre & post & -> & Hpost). now apply assign_all_get_last.
Qed.

Lemma parse_identifier_result_witness :
  parse_identifier "a=1,b=2,a=3" = Ok [("a", "3"); ("b", "2")] /\
  Dict.get "a" [("a", "3"); ("b", "2")] = Some "3".
Proof.
  split; [reflexivity|].
  destruct (parse_identifier_result "a=1,b=2,a=3" [("a", "3"); ("b", "2")] eq_refl)
    as (_ & Hnd & _ & _ & pairs & Hseg & Hget).
  apply In_get; [exact Hnd | now left].
Defined.

(** X3: rendering a parsed identifier and parsing the rendering gives the
    same identifier again; and when the text had no repeated key (as many
    pairs as segments) the rendering is the text itself. *)
Theorem parse_str_parse (text : string) (nid : NodeIdentifier) :
  parse_identifier text = Ok nid ->
  parse_identifier (NodeIdentifier_str nid) = Ok nid /\
  (List.length nid = List.length (PyStr.split comma text) ->
   NodeIdentifier_str nid = text).
Proof.
  intros H. destruct (parse_identifier_shape text nid H) as (Hne & Hnd & Hplain).
  split; [now apply parse_render | now apply parse_then_str].
Qed.

Lemma parse_str_parse_witness :
  parse_identifier "a=1,b=2,a=3" = Ok [("a", "3"); ("b", "2")] /\
  parse_identifier (NodeIdentifier_str [("a", "3"); ("b", "2")])
  = Ok [("a", "3"); ("b", "2")].
Proof.
  split; [reflexivity|].
  apply (parse_str_parse "a=1,b=2,a=3" [("a", "3"); ("b", "2")]). reflexivity.
Defined.

(** X4: on an identifier without pairs [get_current_level_identifier]
    raises [IndexError]; on any other it returns the last pair, rendered as
    ["k=v"]. *)
Theorem get_current_level_identifier_last (nid : NodeIdentifier) :
  NoDup (Dict.keys nid) ->
  get_current_level_identifier nid
  = match rev nid with
    | [] => Raise IndexError
    | own :: _ => Ok (render_pair own)
    end.
Proof.
  intros Hnd. destruct (rev nid) as [|own rest] eqn:Hrev.
  - apply (f_equal (@rev _)) in Hrev. rewrite rev_involutive in Hrev. now subst.
  - apply (current_level_is_last_pair nid own (rev rest) Hnd).
    rewrite <- (rev_involutive nid), Hrev. reflexivity.
Qed.

Lemma get_current_level_identifier_last_witness :
  get_current_level_identifier [("o", "root"); ("m", "a")] = Ok "m=a".
Proof.
  apply (get_current_level_identifier_last [("o", "root"); ("m", "a")]).
  repeat constructor; simpl; intuition discriminate.
Defined.

(** ** [__eq__] and [from_tuples] *)

Lemma dict_eqb_same_pairs (a b : Dict.t string) :
  NoDup (Dict.keys a) -> NoDup (Dict.keys b) ->
  (Dict.eqb String.eqb a b = true <-> Permutation a b).
Proof.
  intros Ha Hb. rewrite dict_eqb_true. split.
  - intros [Hlen H]. apply NoDup_Permutation_bis.
    + now apply NoDup_keys_NoDup.
    + rewrite Hlen. apply le_n.
    + intros [k v] Hin. apply get_In. now apply H.
  - intros HP. split; [now apply Permutation_length|].
    intros k v Hin. apply In_get; [assumption|].
    eapply Permutation_in; eassumption.
Qed.

(** X5: on identifiers (dicts, so without repeated keys) [__eq__] is an
    equivalence: every identifier equals itself, the answer does not depend
    on which side is asked, and equality carries over a common third. *)
Theorem NodeIdentifier_eq_equivalence (a b c : NodeIdentifier) :
  NoDup (Dict.keys a) -> NoDup (Dict.keys b) -> NoDup (Dict.keys c) ->
  NodeIdentifier_eq a a = true /\
  NodeIdentifier_eq a b = NodeIdentifier_eq b a /\
  (NodeIdentifier_eq a b = true -> NodeIdentifier_eq b c = true ->
   NodeIdentifier_eq a c = true).
Proof.
  intros Ha Hb Hc. unfold NodeIdentifier_eq. split; [|split].
  - now apply dict_eqb_same_pairs.
  - destruct (Dict.eqb String.eqb a b) eqn:Hab, (Dict.eqb String.eqb b a) eqn:Hba;
      try reflexivity.
    + apply dict_eqb_same_pairs in Hab; try assumption.
      apply Permutation_sym in Hab. apply dict_eqb_same_pairs in Hab; try assumption.
      congruence.
    + apply dict_eqb_same_pairs in Hba; try assumption.
      apply Permutation_sym in Hba. apply dict_eqb_same_pairs in Hba; try assumption.
      congruence.
  - intros Hab Hbc.
    apply dict_eqb_same_pairs in Hab; try assumption.
    apply dict_eqb_same_pairs in Hbc; try assumption.
    apply dict_eqb_same_pairs; try assumption.
    eapply Permutation_trans; eassumption.
Qed.

Lemma NodeIdentifier_eq_equivalence_witness :
  NodeIdentifier_eq [("a", "1"); ("b", "2")] [("b", "2"); ("a", "1")]
  = NodeIdentifier_eq [("b", "2"); ("a", "1")] [("a", "1"); ("b", "2")].
Proof.
  apply (NodeIdentifier_eq_equivalence
           [("a", "1"); ("b", "2")] [("b", "2"); ("a", "1")] []);
    repeat constructor; simpl; intuition discriminate.
Defined.

(** X6: for every non-empty list of pairs with separator-free keys and
    values, repeated keys allowed, parsing the text ["k1=v1,...,kn=vn"]
    gives the identifier that [from_tuples] builds from the pairs; and
    [from_tuples] of the items of an identifier gives it back. *)
Theorem parse_identifier_from_tuples (self : NodeIdentifier)
        (tuples : list (string * string)) :
  tuples <> [] -> forallb plain_pair tuples = true ->
  parse_identifier (PyStr.join "," (map render_pair tuples))
  = Ok (from_tuples self tuples) /\
  from_tuples self (NodeIdentifier_items (from_tuples self tuples))
  = from_tuples self tuples.
Proof.
  intros Hne Hplain. rewrite forallb_forall in Hplain. split.
  - unfold parse_identifier, from_tuples.
    change "," with (String comma "").
    rewrite split_join.
    + rewrite mapM_map_ok; [reflexivity|].
      intros kv Hin. apply pair_of_segment_render. now apply Hplain.
    + destruct tuples; [congruence | discriminate].
    + apply Forall_forall. intros w Hw. apply in_map_iff in Hw as [kv [<- Hin]].
      apply render_pair_no_comma. now apply Hplain.
  - unfold from_tuples, NodeIdentifier_items. apply of_pairs_fresh, of_pairs_NoDup.
Qed.

Lemma parse_identifier_from_tuples_witness :
  parse_identifier "a=1,b=2,a=3" = Ok (from_tuples [] [("a", "1"); ("b", "2"); ("a", "3")]).
Proof.
  apply (parse_identifier_from_tuples [] [("a", "1"); ("b", "2"); ("a", "3")]).
  - discriminate.
  - reflexivity.
Defined.

(** ** The gate of [insert_node] *)

Lemma prefix_step (a b : ascii) (s1 s2 : string) :
  String.prefix (String a s1) (String b s2)
  = if Ascii.eqb a b then String.prefix s1 s2 else false.
Proof.
  simpl. destruct (ascii_dec a b) as [->|Hne].
  - now rewrite Ascii.eqb_refl.
  - apply Ascii.eqb_neq in Hne. now rewrite Hne.
Qed.

Lemma prefix_key (k k1 rest : string) :
  PyStr.contains equals k = false -> PyStr.contains equals k1 = false ->
  String.prefix (k ++ "=") (k1 ++ String equals rest) = true -> k = k1.
Proof.
  revert k1. induction k as [|a k IH]; intros [|c k1] Hk Hk1 H.
  - reflexivity.
  - simpl in Hk1. apply orb_false_iff in Hk1 as [Hc _].
    change (("" ++ "=")%string) with (String equals "") in H.
    change ((String c k1 ++ String equals rest)%string)
      with (String c (k1 ++ String equals rest)) in H.
    rewrite prefix_step, Ascii.eqb_sym, Hc in H. discriminate.
  - simpl in Hk. apply orb_false_iff in Hk as [Ha _].
    change ((String a k ++ "=")%string) with (String a (k ++ "=")) in H.
    change (("" ++ String equals rest)%string) with (String equals rest) in H.
    rewrite prefix_step, Ha in H. discriminate.
  - simpl in Hk, Hk1.
    apply orb_false_iff in Hk as [_ Hk]. apply orb_false_iff in Hk1 as [_ Hk1].
    change ((String a k ++ "=")%string) with (String a (k ++ "=")) in H.
    change ((String c k1 ++ String equals rest)%string)
      with (String c (k1 ++ String equals rest)) in H.
    rewrite prefix_step in H.
    destruct (Ascii.eqb a c) eqn:Hac; [|discriminate].
    apply Ascii.eqb_eq in Hac. subst c. f_equal. now apply IH.
Qed.

(** An accepted text begins with the first key of its identifier and an
    equals sign. *)
Lemma parsed_text_head (text : string) (d : NodeIdentifier) :
  parse_identifier text = Ok d ->
  exists k1 rest,
    hd_error (Dict.keys d) = Some k1 /\
    text = (k1 ++ String equals rest)%string /\
    PyStr.contains equals k1 = false.
Proof.
  intros Hd.
  destruct (parse_identifier_segments text d Hd) as [pairs [Hseg [-> Hplain]]].
  destruct pairs as [|[k1 v1] ps].
  { simpl in Hseg. symmetry in Hseg. now apply split_not_nil in Hseg. }
  simpl in Hplain. apply andb_true_iff in Hplain as [Hp _].
  apply plain_pair_inv in Hp as [[_ Hk1] _]. simpl in Hk1.
  destruct (assign_all_head ps [] k1 v1) as (v' & acc' & E).
  exists k1. rewrite <- (join_split comma text), <- Hseg.
  simpl map. unfold render_pair at 1. simpl fst. simpl snd.
  destruct (map render_pair ps) as [|seg segs].
  - exists v1. repeat split; try assumption.
    unfold Dict.of_pairs. simpl. unfold Dict.assign at 2. simpl. now rewrite E.
  - exists (v1 ++ String comma (PyStr.join (String comma "") (seg :: segs)))%string.
    repeat split; try assumption.
    + unfold Dict.of_pairs. simpl. unfold Dict.assign at 2. simpl. now rewrite E.
    + change (PyStr.join (String comma "") ((k1 ++ "=" ++ v1)%string :: seg :: segs))
        with ((k1 ++ "=" ++ v1) ++ String comma (PyStr.join (String comma "") (seg :: segs)))%string.
      rewrite !string_append_assoc. reflexivity.
Qed.

(** X7: for a text the parser accepts, the check of
    [is_valid_new_node_identifier], made on the text, says whether the
    first key of the parsed identifier is the first key of the root; on a
    root without pairs the check raises [StopIteration]. *)
Theorem is_valid_new_node_identifier_first_key (t : TreeNode) (text : string)
        (d : NodeIdentifier) :
  forallb plain_pair (node_identifier t) = true ->
  parse_identifier text = Ok d ->
  is_valid_new_node_identifier t text
  = match Dict.keys (node_identifier t), Dict.keys d with
    | [], _ => Raise StopIteration
    | root_key :: _, k :: _ => Ok (String.eqb k root_key)
    | _ :: _, [] => Ok false
    end.
Proof.
  intros Hroot Hd. unfold is_valid_new_node_identifier.
  destruct (node_identifier t) as [|[root_key v0] rest]; [reflexivity|].
  simpl in Hroot. apply andb_true_iff in Hroot as [Hr _].
  apply plain_pair_inv in Hr as [[_ Hrk] _]. simpl in Hrk. simpl Dict.keys.
  destruct (parsed_text_head text d Hd) as (k1 & tail & Hhd & Htext & Hk1).
  destruct (Dict.keys d) as [|k ks]; [discriminate|]. injection Hhd as ->.
  f_equal. unfold PyStr.startswith.
  destruct (String.eqb_spec k1 root_key) as [->|Hne].
  - rewrite Htext. change (String equals tail) with ("=" ++ tail)%string.
    rewrite <- string_append_assoc. apply prefix_append.
  - destruct (String.prefix (root_key ++ "=") text) eqn:Hp; [|reflexivity].
    rewrite Htext in Hp. apply prefix_key in Hp; congruence.
Qed.

Lemma is_valid_new_node_identifier_first_key_witness :
  is_valid_new_node_identifier family "m=a,o=root" = Ok false.
Proof.
  apply (is_valid_new_node_identifier_first_key family "m=a,o=root"
           [("m", "a"); ("o", "root")]); reflexivity.
Defined.

(** ** The outcomes of [insert_node] *)

Lemma find_parent (t : TreeNode) (d parent : NodeIdentifier) (own : string * string) :
  NoDup (Dict.keys d) -> forallb plain_pair d = true ->
  d = parent ++ [own] -> parent <> [] ->
  find_by_query t (PyStr.join "," (map render_pair parent))
  = Ok (first_subset_match parent t).
Proof.
  intros Hnd Hplain Hsplit Hne. unfold find_by_query, NodeIdentifier_init.
  rewrite (parent_identifier_parses d parent own Hsplit Hne Hnd Hplain). simpl.
  now rewrite search_first_subset_match.
Qed.

(** X8: for a text that passes the gate and parses to two pairs or more,
    [insert_node] looks for the first node in pre-order holding every pair
    but the last.  Without such a node it returns (False, "Parent node not
    found."); with one, it returns the duplicate failure if some node of
    the tree has an equal identifier, and otherwise appends a new leaf with
    the given payload under that node and returns success.  The tree is
    unchanged in the two failures. *)
Theorem insert_node_outcome (t : TreeNode) (u : uuid) (new_data : payload)
        (text : string) (d parent : NodeIdentifier) (own : string * string) :
  is_valid_new_node_identifier t text = Ok true ->
  parse_identifier text = Ok d ->
  d = parent ++ [own] -> parent <> [] ->
  insert_node t u new_data text
  = Ok match first_subset_match parent t with
       | None => (t, (false, "Parent node not found."))
       | Some r =>
           if existsb (NodeIdentifier_eq d) (_extract_node_identifiers t)
           then (t, (false, "A node with this identifier already exists."))
           else (modify_at (add_child (mkTreeNode u new_data [] d)) r t,
                 (true, "Node inserted successfully."))
       end.
Proof.
  intros Hvalid Hd Hsplit Hne.
  destruct (parse_identifier_shape text d Hd) as [_ [Hnd Hplain]].
  unfold insert_node, NodeIdentifier_init, TreeNode_init, NodeIdentifier_init.
  rewrite Hvalid, Hd. simpl. unfold NodeIdentifier_items.
  rewrite Hsplit at 1. rewrite rev_app_distr. simpl. rewrite rev_involutive.
  rewrite (find_parent t d parent own Hnd Hplain Hsplit Hne). simpl.
  destruct (first_subset_match parent t); [|reflexivity].
  destruct (existsb (NodeIdentifier_eq d) (_extract_node_identifiers t)); reflexivity.
Qed.

Lemma insert_node_outcome_witness :
  insert_node family 9%N [] "o=root,m=b,c=1"
  = Ok (family, (false, "Parent node not found.")).
Proof.
  apply (insert_node_outcome family 9%N [] "o=root,m=b,c=1"
           [("o", "root"); ("m", "b"); ("c", "1")]
           [("o", "root"); ("m", "b")] ("c", "1"));
    [reflexivity | reflexivity | reflexivity | discriminate].
Defined.

(** X9: whatever the text, an [insert_node] that returns a false flag has
    left the tree as it was and returns one of three messages; one that
    returns a true flag returns "Node inserted successfully.". *)
Theorem insert_node_messages (t t' : TreeNode) (u : uuid) (new_data : payload)
        (text message : string) (flag : bool) :
  insert_node t u new_data text = Ok (t', (flag, message)) ->
  if flag then message = "Node inserted successfully."
  else t' = t /\
       (message = "Invalid new node identifier." \/
        message = "Parent node not found." \/
        message = "A node with this identifier already exists.").
Proof.
  unfold insert_node, NodeIdentifier_init, TreeNode_init, NodeIdentifier_init.
  destruct (is_valid_new_node_identifier t text) as [[|]|e]; simpl; try discriminate.
  - destruct (parse_identifier text) as [d|e]; simpl; [|discriminate].
    destruct (rev (NodeIdentifier_items d)) as [|own rest]; [discriminate|].
    destruct (find_by_query t _) as [[r|]|e]; simpl; try discriminate.
    + destruct (existsb (NodeIdentifier_eq d) (_extract_node_identifiers t));
        intros H; injection H as <- <- <-; auto.
    + intros H. injection H as <- <- <-. auto.
  - intros H. injection H as <- <- <-. auto.
Qed.

Lemma insert_node_messages_witness :
  insert_node family 9%N [] "x=1,bad"
  = Ok (family, (false, "Invalid new node identifier.")) /\
  family = family /\
  ("Invalid new node identifier." = "Invalid new node identifier." \/
   "Invalid new node identifier." = "Parent node not found." \/
   "Invalid new node identifier." = "A node with this identifier already exists.").
Proof.
  split; [reflexivity|].
  apply (insert_node_messages family family 9%N [] "x=1,bad"
           "Invalid new node identifier." false).
  reflexivity.
Defined.

(** ** Where [insert_node] puts the new node *)

Lemma node_at_modify_at (f : TreeNode -> TreeNode) (r : ref) (t p : TreeNode) :
  node_at t r = Some p -> node_at (modify_at f r t) r = Some (f p).
Proof.
  revert t. induction r as [|k r IH]; intros [i d cs nid] H; simpl in *.
  - now injection H as ->.
  - destruct (nth_error cs k) as [c|] eqn:Hk; [|discriminate].
    apply nth_error_split in Hk as (pre & post & -> & <-).
    rewrite modify_nth_middle, nth_error_middle. now apply IH.
Qed.

Lemma node_at_app (t p : TreeNode) (r r' : ref) :
  node_at t r = Some p -> node_at t (r ++ r') = node_at p r'.
Proof.
  revert t. induction r as [|k r IH]; intros t H; simpl in *.
  - now injection H as ->.
  - destruct (nth_error (children t) k) as [c|]; [now apply IH | discriminate].
Qed.

Lemma insert_node_parent (t t' : TreeNode) (u : uuid) (new_data : payload)
      (text message : string) :
  insert_node t u new_data text = Ok (t', (true, message)) ->
  exists d parent_q own r,
    is_valid_new_node_identifier t text = Ok true /\
    parse_identifier text = Ok d /\
    d = parent_q ++ [own] /\ parent_q <> [] /\
    first_subset_match parent_q t = Some r /\
    t' = modify_at (add_child (mkTreeNode u new_data [] d)) r t.
Proof.
  unfold insert_node, NodeIdentifier_init, TreeNode_init, NodeIdentifier_init.
  destruct (is_valid_new_node_identifier t text) as [[|]|e] eqn:Hvalid; simpl;
    try discriminate.
  destruct (parse_identifier text) as [d|e] eqn:Hd; simpl; [|discriminate].
  destruct (parse_identifier_shape text d Hd) as [_ [Hnd Hplain]].
  destruct (rev (NodeIdentifier_items d)) as [|own rest] eqn:Hrev; [discriminate|].
  assert (Hsplit : d = rev rest ++ [own]).
  { unfold NodeIdentifier_items in Hrev. rewrite <- (rev_involutive d), Hrev. reflexivity. }
  destruct rest as [|p0 rest']; [intros H; cbv in H; discriminate H|].
  assert (Hne : rev (p0 :: rest') <> []).
  { simpl. intros E. apply app_eq_nil in E as [_ E]. discriminate. }
  set (parent_q := rev (p0 :: rest')) in *. clearbody parent_q.
  rewrite (find_parent t d parent_q own Hnd Hplain Hsplit Hne). cbn [bind].
  destruct (first_subset_match parent_q t) as [r|] eqn:Hr;
    [|intros H; discriminate H].
  destruct (existsb (NodeIdentifier_eq d) (_extract_node_identifiers t));
    [intros H; discriminate H|].
  cbn [bind]. intros H. injection H as <- _.
  exists d, parent_q, own, r. repeat split; auto.
Qed.

(** X10: a successful [insert_node] leaves the new node, a leaf with the
    drawn identity, the given payload and the parsed identifier, as the
    last child of the first node in pre-order that holds every pair of the
    text but the last; the children that node had keep their places, and
    the tree has one node more. *)
Theorem insert_node_appends (t t' : TreeNode) (u : uuid) (new_data : payload)
        (text message : string) :
  insert_node t u new_data text = Ok (t', (true, message)) ->
  exists d parent_q own r parent,
    parse_identifier text = Ok d /\
    d = parent_q ++ [own] /\
    first_subset_match parent_q t = Some r /\
    node_at t r = Some parent /\
    node_at t' r
    = Some (mkTreeNode (id parent) (data parent)
                       (children parent ++ [mkTreeNode u new_data [] d])
                       (node_identifier parent)) /\
    node_at t' (r ++ [List.length (children parent)])
    = Some (mkTreeNode u new_data [] d) /\
    List.length (get_all_children t') = S (List.length (get_all_children t)).
Proof.
  intros Hins.
  destruct (insert_node_parent _ _ _ _ _ _ Hins)
    as (d & parent_q & own & r & _ & Hd & Hsplit & _ & Hr & ->).
  pose proof Hr as Hfind. unfold first_subset_match in Hfind.
  apply find_some in Hfind as [_ Hholds].
  apply holds_at_valid in Hholds as [parent [Hparent _]].
  exists d, parent_q, own, r, parent.
  pose proof (node_at_modify_at (add_child (mkTreeNode u new_data [] d)) r t parent Hparent)
    as Hnew.
  repeat split; try assumption.
  - rewrite (node_at_app _ _ r [List.length (children parent)] Hnew).
    simpl. now rewrite nth_error_middle.
  - destruct (add_child_listing r t parent u new_data d Hparent)
      as (before & after & H1 & H2).
    rewrite H1, H2, !length_app. simpl. lia.
Qed.

Lemma insert_node_appends_witness :
  exists d parent_q own r parent,
    parse_identifier "o=root,c=1" = Ok d /\
    d = parent_q ++ [own] /\
    first_subset_match parent_q family = Some r /\
    node_at family r = Some parent /\
    node_at family_and_c1 r
    = Some (mkTreeNode (id parent) (data parent)
                       (children parent ++ [mkTreeNode 4%N [] [] d])
                       (node_identifier parent)) /\
    node_at family_and_c1 (r ++ [List.length (children parent)])
    = Some (mkTreeNode 4%N [] [] d) /\
    List.length (get_all_children family_and_c1)
    = S (List.length (get_all_children family)).
Proof.
  apply (insert_node_appends family family_and_c1 4%N [] "o=root,c=1"
           "Node inserted successfully.").
  reflexivity.
Defined.

(** ** What every tree built by the module satisfies *)

Lemma nodup_length_NoDup (l : list string) :
  List.length (nodup string_dec l) = List.length l -> NoDup l.
Proof.
  induction l as [|a l IH]; intros H; [constructor|]. simpl in H.
  assert (Hle : List.length (nodup string_dec l) <= List.length l).
  { clear. induction l as [|b l IH]; simpl; [lia|].
    destruct (in_dec string_dec b l); simpl; lia. }
  destruct (in_dec string_dec a l) as [Hin|Hnin]; simpl in H; [lia|].
  constructor; [assumption | apply IH; lia].
Qed.

Lemma parsed_shape_inv (nid : NodeIdentifier) :
  parsed_shape nid = true ->
  nid <> [] /\ NoDup (Dict.keys nid) /\ forallb plain_pair nid = true.
Proof.
  unfold parsed_shape. rewrite !andb_true_iff. intros [[Hne Hplain] Hnd].
  split; [|split; [|assumption]].
  - destruct nid; [discriminate | discriminate].
  - apply Nat.eqb_eq in Hnd. apply nodup_length_NoDup.
    unfold Dict.keys in *. now rewrite Hnd, length_map.
Qed.

Lemma parsed_shape_of_parse (text : string) (nid : NodeIdentifier) :
  parse_identifier text = Ok nid -> parsed_shape nid = true.
Proof.
  intros H. destruct (parse_identifier_shape text nid H) as (Hne & Hnd & Hplain).
  unfold parsed_shape. rewrite Hplain, (nodup_fixed_point string_dec Hnd).
  unfold Dict.keys. rewrite length_map, Nat.eqb_refl.
  destruct nid; [congruence | reflexivity].
Qed.

(** The first key of an identifier is [k]. *)
Lemma rooted_iff (t : TreeNode) :
  rooted t = true <->
  exists k ks,
    Dict.keys (node_identifier t) = k :: ks /\
    forall nid, In nid (_extract_node_identifiers t) ->
                exists ks', Dict.keys nid = k :: ks'.
Proof.
  unfold rooted. destruct (Dict.keys (node_identifier t)) as [|k ks].
  - split; [discriminate | intros (k & ks & H & _); discriminate].
  - rewrite forallb_forall. split.
    + intros H. exists k, ks. split; [reflexivity|]. intros nid Hin.
      specialize (H nid Hin). destruct (Dict.keys nid) as [|k' ks']; [discriminate|].
      apply String.eqb_eq in H. subst. eauto.
    + intros (k0 & ks0 & E & H) nid Hin. injection E as <- <-.
      destruct (H nid Hin) as [ks' ->]. apply String.eqb_refl.
Qed.

Lemma root_in_extract (t : TreeNode) :
  In (node_identifier t) (_extract_node_identifiers t).
Proof. destruct t. now left. Qed.

Lemma modify_at_root (f : TreeNode -> TreeNode) (r : ref) (t : TreeNode) :
  (forall n, node_identifier (f n) = node_identifier n) ->
  node_identifier (modify_at f r t) = node_identifier t.
Proof. intros H. destruct r; simpl; [apply H | reflexivity]. Qed.

(** The invariant passes from a tree to any tree with the same root
    identifier whose identifiers are among the old ones and some that
    satisfy it themselves. *)
Lemma invariant_transfer (t t' : TreeNode) (extra : list NodeIdentifier) :
  node_identifier t' = node_identifier t ->
  incl (_extract_node_identifiers t') (extra ++ _extract_node_identifiers t) ->
  (forall nid, In nid extra ->
               parsed_shape nid = true /\
               hd_error (Dict.keys nid) = hd_error (Dict.keys (node_identifier t))) ->
  rooted t = true /\ all_parsed t = true ->
  rooted t' = true /\ all_parsed t' = true.
Proof.
  intros Hroot Hincl Hextra [Hr Hp]. split.
  - apply rooted_iff in Hr as (k & ks & Hk & Hall). apply rooted_iff.
    exists k, ks. rewrite Hroot. split; [assumption|].
    intros nid Hin. apply Hincl, in_app_or in Hin as [Hin|Hin]; [|now apply Hall].
    destruct (Hextra nid Hin) as [_ Hhd]. rewrite Hk in Hhd.
    destruct (Dict.keys nid) as [|k' ks']; [discriminate|].
    injection Hhd as ->. eauto.
  - unfold all_parsed in *. rewrite forallb_forall in *.
    intros nid Hin. apply Hincl, in_app_or in Hin as [Hin|Hin]; [|now apply Hp].
    now apply Hextra.
Qed.

Lemma valid_text_first_key (t : TreeNode) (text : string) (d : NodeIdentifier) :
  forallb plain_pair (node_identifier t) = true ->
  parse_identifier text = Ok d ->
  is_valid_new_node_identifier t text = Ok true ->
  hd_error (Dict.keys d) = hd_error (Dict.keys (node_identifier t)).
Proof.
  intros Hroot Hd. unfold is_valid_new_node_identifier, PyStr.startswith.
  destruct (node_identifier t) as [|[root_key v0] rest]; [discriminate|].
  simpl in Hroot. apply andb_true_iff in Hroot as [Hr _].
  apply plain_pair_inv in Hr as [[_ Hrk] _]. simpl in Hrk. simpl.
  destruct (parsed_text_head text d Hd) as (k1 & tail & Hhd & Htext & Hk1).
  intros H. injection H as H. rewrite Htext in H.
  apply prefix_key in H; try assumption. now subst.
Qed.

Lemma delete_node_root_identifier (t t' : TreeNode) (query : string)
      (result : bool * string) :
  delete_node t query = Ok (t', result) -> node_identifier t' = node_identifier t.
Proof.
  unfold delete_node.
  destruct (find_by_query t query) as [[r|]|e]; simpl; try discriminate.
  - destruct (_delete_node query t) as [[t1 b]|e] eqn:Hd; simpl; [|discriminate].
    apply _delete_node_keeps_root in Hd as (_ & _ & Hd).
    destruct b; intros H; injection H as <- _; exact Hd.
  - intros H. now injection H as <- _.
Qed.

Lemma rooted_identified (t : TreeNode) : rooted t = true -> identified t = true.
Proof.
  intros H. apply rooted_iff in H as (k & ks & _ & Hall).
  unfold identified. apply forallb_forall. intros nid Hin.
  destruct (Hall nid Hin) as [ks' Hk]. destruct nid; [discriminate | reflexivity].
Qed.

Lemma delete_node_identifiers (t t' : TreeNode) (query : string)
      (result : bool * string) :
  identified t = true ->
  delete_node t query = Ok (t', result) ->
  incl (_extract_node_identifiers t') (_extract_node_identifiers t).
Proof.
  intros Hid Hdel.
  destruct (parse_identifier query) as [q|e] eqn:Hq.
  - destruct (parsed_current_level query q Hq) as [c0 Hc0].
    rewrite (delete_node_outcome t query q c0 Hid Hq Hc0) in Hdel.
    destruct (_search q t) as [found|]; [|injection Hdel as <- _; apply incl_refl].
    destruct (first_child_at_level c0 t) as [r|] eqn:Hfirst;
      injection Hdel as <- _; [|apply incl_refl].
    apply find_some in Hfirst as [Hin Hholds].
    apply tl_refs_not_root in Hin.
    apply holds_at_valid in Hholds as [sub [Hsub _]].
    destruct (remove_at_drops_subtree r t sub Hin Hsub) as (before & after & H1 & H2).
    rewrite !extract_listing, H1, H2, !map_app.
    intros x Hx. apply in_app_or in Hx. rewrite !in_app_iff. tauto.
  - unfold delete_node, find_by_query, NodeIdentifier_init in Hdel.
    rewrite Hq in Hdel. discriminate.
Qed.

(** X11: every identifier of a tree built by the module is one the parser
    can return (at least one pair, distinct keys, no separator inside a key
    or a value) and starts with the first key of the root: the constructor
    makes it so, and [insert_node], [update_node] and [delete_node] keep
    it so, whatever they return. *)
Theorem tree_invariant_kept :
  (forall u d text t,
      TreeNode_init u d text = Ok t -> rooted t = true /\ all_parsed t = true) /\
  (forall t,
      rooted t = true /\ all_parsed t = true ->
      (forall u new_data text t' result,
          insert_node t u new_data text = Ok (t', result) ->
          rooted t' = true /\ all_parsed t' = true) /\
      (forall query new_data t' result,
          update_node t query new_data = Ok (t', result) ->
          rooted t' = true /\ all_parsed t' = true) /\
      (forall query t' result,
          delete_node t query = Ok (t', result) ->
          rooted t' = true /\ all_parsed t' = true)).
Proof.
  split.
  - intros u d text t. unfold TreeNode_init, NodeIdentifier_init.
    destruct (parse_identifier text) as [nid|] eqn:Hd; simpl; [|discriminate].
    intros H. injection H as <-. split.
    + apply rooted_iff. apply parse_identifier_shape in Hd as [Hne _].
      destruct nid as [|[k v] rest]; [congruence|].
      exists k, (Dict.keys rest). split; [reflexivity|].
      intros nid [<-|[]]. simpl. eauto.
    + unfold all_parsed. simpl. now rewrite (parsed_shape_of_parse text nid Hd).
  - intros t Hinv. pose proof Hinv as [Hrooted Hparsed].
    assert (Hrootplain : forallb plain_pair (node_identifier t) = true).
    { unfold all_parsed in Hparsed. rewrite forallb_forall in Hparsed.
      now apply parsed_shape_inv, Hparsed, root_in_extract. }
    split; [|split].
    + intros u new_data text t' [[|] message] Hins.
      * destruct (insert_node_parent _ _ _ _ _ _ Hins)
          as (d & parent_q & own & r & Hvalid & Hd & _ & _ & Hr & ->).
        unfold first_subset_match in Hr. apply find_some in Hr as [_ Hholds].
        apply holds_at_valid in Hholds as [parent [Hparent _]].
        destruct (add_child_listing r t parent u new_data d Hparent)
          as (before & after & H1 & H2).
        apply (invariant_transfer t _ [d]); try assumption.
        -- now apply modify_at_root.
        -- rewrite !extract_listing, H1, H2, !map_app. simpl.
           intros x Hx. apply in_app_or in Hx. simpl in *. rewrite in_app_iff. tauto.
        -- intros nid [<-|[]]. split; [now apply (parsed_shape_of_parse text)|].
           now apply (valid_text_first_key t text).
      * now rewrite (insert_node_failure _ _ _ _ _ _ Hins).
    + intros query new_data t' result. unfold update_node.
      destruct (find_by_query t query) as [[r|]|e]; simpl; try discriminate;
        intros H; injection H as <- _; [|assumption].
      apply (invariant_transfer t _ []); try assumption.
      * now apply modify_at_root.
      * rewrite set_data_identifiers. apply incl_refl.
      * intros nid [].
    + intros query t' result Hdel.
      apply (invariant_transfer t _ []); try assumption.
      * now apply (delete_node_root_identifier t t' query result).
      * apply (delete_node_identifiers t t' query result); [|assumption].
        now apply rooted_identified.
      * intros nid [].
Qed.

Lemma tree_invariant_kept_witness :
  rooted family_and_c1 = true /\ all_parsed family_and_c1 = true.
Proof.
  destruct tree_invariant_kept as [_ Hkept].
  destruct (Hkept family) as [Hins _]; [split; reflexivity|].
  apply (Hins 4%N [] "o=root,c=1" family_and_c1 (true, "Node inserted successfully.")).
  reflexivity.
Defined.

(** ** [update_node] *)

Lemma first_child_modify_nth {A B} (g : A -> option B) (f : A -> A) (k i : nat)
      (cs : list A) :
  (forall c, g (f c) = g c) ->
  first_child g i (modify_nth f k cs) = first_child g i cs.
Proof.
  intros H. revert k i. induction cs as [|c cs IH]; intros [|k] i; simpl;
    rewrite ?H, ?IH; reflexivity.
Qed.

Lemma search_set_data (q : NodeIdentifier) (new_data : payload) (r : ref) (t : TreeNode) :
  _search q (modify_at (set_data new_data) r t) = _search q t.
Proof.
  revert t. induction r as [|k r IH]; intros [i d cs nid]; [reflexivity|].
  simpl. now rewrite first_child_modify_nth.
Qed.

Lemma modify_nth_twice {A} (f g h : A -> A) (k : nat) (l : list A) :
  (forall a, g (f a) = h a) ->
  modify_nth g k (modify_nth f k l) = modify_nth h k l.
Proof.
  intros H. revert k. induction l as [|a l IH]; intros [|k]; simpl;
    rewrite ?H, ?IH; reflexivity.
Qed.

Lemma set_data_twice (a b : payload) (r : ref) (t : TreeNode) :
  modify_at (set_data b) r (modify_at (set_data a) r t) = modify_at (set_data b) r t.
Proof.
  revert t. induction r as [|k r IH]; intros [i d cs nid]; [reflexivity|].
  simpl. f_equal. now apply modify_nth_twice.
Qed.

Lemma set_data_listing (new_data : payload) (r : ref) (t n : TreeNode) :
  node_at t r = Some n ->
  exists before after,
    get_all_children t = before ++ beauty_dict n :: after /\
    get_all_children (modify_at (set_data new_data) r t)
    = before ++ with_data new_data (beauty_dict n) :: after.
Proof.
  revert t. induction r as [|k r IH]; intros [i d cs nid] Hat.
  - simpl in Hat. injection Hat as <-.
    exists [], (flat_map get_all_children cs). split; reflexivity.
  - simpl in Hat. destruct (nth_error cs k) as [c|] eqn:Hk; [|discriminate].
    apply nth_error_split in Hk as (pre & post & -> & <-).
    destruct (IH c Hat) as (b1 & a1 & H1 & H2).
    exists (mkBeauty i d nid :: flat_map get_all_children pre ++ b1),
           (a1 ++ flat_map get_all_children post).
    rewrite modify_at_child, !get_all_children_node, !flat_map_app, !flat_map_step.
    rewrite H1, H2. simpl. rewrite <- !app_assoc. split; reflexivity.
Qed.

Lemma fill_dict_modify_nth {A V} (key : A -> res string) (value : A -> res V)
      (f : A -> A) (k : nat) (cs : list A) (acc : Dict.t V) :
  (forall c, key (f c) = key c) -> (forall c, value (f c) = value c) ->
  fill_dict key value (modify_nth f k cs) acc = fill_dict key value cs acc.
Proof.
  intros Hk Hv. revert k acc. induction cs as [|c cs IH]; intros [|k] acc; simpl;
    rewrite ?Hk, ?Hv; try reflexivity.
  destruct (value c); simpl; [|reflexivity].
  destruct (key c); simpl; [apply IH | reflexivity].
Qed.

Lemma get_tree_structure_node i d cs nid :
  get_tree_structure (mkTreeNode i d cs nid)
  = match cs with
    | [] => Ok EmptyList
    | _ :: _ =>
        node_dict <- fill_dict level_of get_tree_structure cs [] ;;
        Ok (Mapping node_dict)
    end.
Proof. destruct cs; reflexivity. Qed.

Lemma structure_set_data (new_data : payload) (r : ref) (t : TreeNode) :
  get_tree_structure (modify_at (set_data new_data) r t) = get_tree_structure t.
Proof.
  revert t. induction r as [|k r IH]; intros [i d cs nid]; [reflexivity|].
  simpl modify_at. simpl id. simpl data. simpl children. simpl node_identifier.
  rewrite !get_tree_structure_node.
  rewrite fill_dict_modify_nth.
  - destruct cs as [|c cs]; destruct k; reflexivity.
  - intros c. unfold level_of. now rewrite modify_at_root.
  - exact IH.
Qed.

(** X12: for a query the parser accepts, [update_node] replaces the payload
    of the first node in pre-order that subset-matches and reports success;
    that node keeps its identity, identifier and children, every other node
    is as before, and the exported structure is the same.  Without a match
    it reports "Node not found." and the tree is unchanged. *)
Theorem update_node_effect (t : TreeNode) (query : string) (new_data : payload)
        (q : NodeIdentifier) :
  parse_identifier query = Ok q ->
  match first_subset_match q t with
  | None => update_node t query new_data = Ok (t, (false, "Node not found."))
  | Some r =>
      exists n before after,
        node_at t r = Some n /\
        update_node t query new_data
        = Ok (modify_at (set_data new_data) r t, (true, "Node updated successfully.")) /\
        node_at (modify_at (set_data new_data) r t) r
        = Some (mkTreeNode (id n) new_data (children n) (node_identifier n)) /\
        get_all_children t = before ++ beauty_dict n :: after /\
        get_all_children (modify_at (set_data new_data) r t)
        = before ++ with_data new_data (beauty_dict n) :: after /\
        get_tree_structure (modify_at (set_data new_data) r t) = get_tree_structure t
  end.
Proof.
  intros Hq. unfold update_node, find_by_query, NodeIdentifier_init.
  rewrite Hq. simpl. rewrite search_first_subset_match.
  destruct (first_subset_match q t) as [r|] eqn:Hr; [|reflexivity].
  unfold first_subset_match in Hr. apply find_some in Hr as [_ Hholds].
  apply holds_at_valid in Hholds as [n [Hn _]].
  destruct (set_data_listing new_data r t n Hn) as (before & after & H1 & H2).
  exists n, before, after. repeat split; try assumption.
  - now apply (node_at_modify_at (set_data new_data)).
  - apply structure_set_data.
Qed.

Lemma update_node_effect_witness :
  parse_identifier "m=a" = Ok [("m", "a")] /\
  match first_subset_match [("m", "a")] family with
  | None => update_node family "m=a" [("k", "v")] = Ok (family, (false, "Node not found."))
  | Some r =>
      exists n before after,
        node_at family r = Some n /\
        update_node family "m=a" [("k", "v")]
        = Ok (modify_at (set_data [("k", "v")]) r family,
              (true, "Node updated successfully.")) /\
        node_at (modify_at (set_data [("k", "v")]) r family) r
        = Some (mkTreeNode (id n) [("k", "v")] (children n) (node_identifier n)) /\
        get_all_children family = before ++ beauty_dict n :: after /\
        get_all_children (modify_at (set_data [("k", "v")]) r family)
        = before ++ with_data [("k", "v")] (beauty_dict n) :: after /\
        get_tree_structure (modify_at (set_data [("k", "v")]) r family)
        = get_tree_structure family
  end.
Proof.
  split; [reflexivity|].
  apply (update_node_effect family "m=a" [("k", "v")] [("m", "a")]). reflexivity.
Defined.

(** X13: after an [update_node] that reports success, the same query finds
    the same node as before the update, and that node carries the new
    payload. *)
Theorem update_then_query (t t' : TreeNode) (query message : string)
        (new_data : payload) :
  update_node t query new_data = Ok (t', (true, message)) ->
  exists r n,
    find_by_query t query = Ok (Some r) /\
    find_by_query t' query = Ok (Some r) /\
    node_at t' r = Some n /\
    data n = new_data.
Proof.
  unfold update_node, find_by_query, NodeIdentifier_init.
  destruct (parse_identifier query) as [q|] eqn:Hq; simpl; [|discriminate].
  destruct (_search q t) as [r|] eqn:Hr; [|discriminate].
  intros H. injection H as <- _.
  destruct (search_valid q t r Hr) as [n [Hn _]].
  exists r, (set_data new_data n). repeat split.
  - now rewrite search_set_data, Hr.
  - now apply node_at_modify_at.
Qed.

Lemma update_then_query_witness :
  exists r n,
    find_by_query family "c=1" = Ok (Some r) /\
    find_by_query (modify_at (set_data [("k", "v")]) [0; 0] family) "c=1" = Ok (Some r) /\
    node_at (modify_at (set_data [("k", "v")]) [0; 0] family) r = Some n /\
    data n = [("k", "v")].
Proof.
  apply (update_then_query family _ "c=1" "Node updated successfully." [("k", "v")]).
  reflexivity.
Defined.

(** X14: of two updates with the same query the second alone decides the
    payload: updating with [a] and then with [b] gives the tree, flag and
    message of updating with [b] at once. *)
Theorem update_node_last_wins (t t1 : TreeNode) (query : string) (a b : payload)
        (result : bool * string) :
  update_node t query a = Ok (t1, result) ->
  update_node t1 query b = update_node t query b.
Proof.
  unfold update_node, find_by_query, NodeIdentifier_init.
  destruct (parse_identifier query) as [q|] eqn:Hq; simpl; [|discriminate].
  destruct (_search q t) as [r|] eqn:Hr; intros H; injection H as <- _.
  - now rewrite search_set_data, Hr, set_data_twice.
  - now rewrite Hr.
Qed.

Lemma update_node_last_wins_witness :
  update_node (modify_at (set_data [("k", "a")]) [0] family) "o=root,m=a" [("k", "b")]
  = update_node family "o=root,m=a" [("k", "b")].
Proof.
  apply (update_node_last_wins family _ "o=root,m=a" [("k", "a")] [("k", "b")]
           (true, "Node updated successfully.")).
  reflexivity.
Defined.

(** ** A [delete_node] that fails *)

Lemma delete_among_false {A} (test : A -> res bool) (rec : A -> res (A * bool))
      (cs cs' : list A) :
  Forall (fun c => forall c', rec c = Ok (c', false) -> c' = c) cs ->
  delete_among test rec cs = Ok (cs', false) -> cs' = cs.
Proof.
  intros H. revert cs'. induction H as [|c cs Hc _ IH]; intros cs' Hd; simpl in Hd.
  - now injection Hd as <-.
  - destruct (test c) as [[|]|e]; simpl in Hd; try discriminate.
    destruct (rec c) as [[c1 [|]]|e] eqn:Hrec; simpl in Hd; try discriminate.
    destruct (delete_among test rec cs) as [[rest' b]|e]; simpl in Hd; [|discriminate].
    injection Hd as <- ->. rewrite (Hc c1 eq_refl). f_equal. now apply IH.
Qed.

Lemma _delete_node_false (query : string) (t t' : TreeNode) :
  _delete_node query t = Ok (t', false) -> t' = t.
Proof.
  revert t'. induction t as [i d cs nid IH] using TreeNode_induction.
  intros t' H. simpl in H.
  destruct (delete_among (same_current_level query) (_delete_node query) cs)
    as [[cs' b]|e] eqn:Hd; simpl in H; [|discriminate].
  injection H as <- ->. f_equal.
  exact (delete_among_false (same_current_level query) (_delete_node query) cs cs' IH Hd).
Qed.

(** X15: whatever the tree and the query, a [delete_node] that returns a
    false flag has removed nothing: the tree is as it was and the message
    is "Node not found."; one that returns a true flag returns "Node
    deleted successfully." and a tree with fewer nodes. *)
Theorem delete_node_messages (t t' : TreeNode) (query message : string) (flag : bool) :
  delete_node t query = Ok (t', (flag, message)) ->
  if flag
  then message = "Node deleted successfully." /\
       (identified t = true ->
        List.length (get_all_children t') < List.length (get_all_children t))
  else t' = t /\ message = "Node not found.".
Proof.
  intros Hdel. pose proof Hdel as Hdel'. revert Hdel'. unfold delete_node.
  destruct (find_by_query t query) as [[r|]|e] eqn:Hfind; simpl; try discriminate.
  - destruct (_delete_node query t) as [[t1 [|]]|e] eqn:Hd; simpl; try discriminate;
      intros H; injection H as <- <- <-.
    + split; [reflexivity|]. intros Hid.
      unfold find_by_query, NodeIdentifier_init in Hfind.
      destruct (parse_identifier query) as [q|] eqn:Hq; simpl in Hfind; [|discriminate].
      destruct (parsed_current_level query q Hq) as [c0 Hc0].
      rewrite (_delete_node_first_child_at_level query q c0 t Hq Hc0 Hid) in Hd.
      unfold without_first_child_at_level in Hd.
      destruct (first_child_at_level c0 t) as [r0|] eqn:Hfirst; [|discriminate].
      injection Hd as <-.
      apply find_some in Hfirst as [Hin Hholds].
      apply tl_refs_not_root in Hin.
      apply holds_at_valid in Hholds as [sub [Hsub _]].
      destruct (remove_at_drops_subtree r0 t sub Hin Hsub) as (before & after & H1 & H2).
      rewrite H1, H2, !length_app. destruct sub. simpl. lia.
    + split; [|reflexivity]. now apply (_delete_node_false query).
  - intros H. injection H as <- <- <-. auto.
Qed.

Lemma delete_node_messages_witness :
  delete_node family "o=root" = Ok (family, (false, "Node not found.")) /\
  family = family /\ "Node not found." = "Node not found.".
Proof.
  split; [reflexivity|].
  apply (delete_node_messages family family "o=root" "Node not found." false).
  reflexivity.
Defined.

(** ** Looking a node up by its own identifier *)

(** X16: in a tree whose identifiers are parser outputs, a query with the
    rendered identifier of the root returns the root, and a query with the
    rendered identifier of any node of the tree returns a node that holds
    every pair of that identifier: never [None], never an exception. *)
Theorem find_by_query_own_identifier (t : TreeNode) :
  all_parsed t = true ->
  find_by_query t (NodeIdentifier_str (node_identifier t)) = Ok (Some []) /\
  forall n, In n (preorder t) ->
            exists r m,
              find_by_query t (NodeIdentifier_str (node_identifier n)) = Ok (Some r) /\
              node_at t r = Some m /\
              incl (node_identifier n) (node_identifier m).
Proof.
  intros Hall. unfold all_parsed in Hall. rewrite forallb_forall in Hall.
  assert (Hshape : forall n, In n (preorder t) ->
                             node_identifier n <> [] /\
                             NoDup (Dict.keys (node_identifier n)) /\
                             forallb plain_pair (node_identifier n) = true).
  { intros n Hn. apply parsed_shape_inv, Hall.
    rewrite extract_preorder. now apply in_map. }
  split.
  - destruct (Hshape t) as (Hne & Hnd & Hplain); [destruct t; now left|].
    unfold find_by_query, NodeIdentifier_init.
    rewrite parse_render by assumption. simpl.
    destruct t as [i d cs nid]. simpl.
    change (query_matches nid nid) with (subset_match nid (mkTreeNode i d cs nid)).
    now rewrite subset_match_self.
  - intros n Hn. destruct (Hshape n Hn) as (Hne & Hnd & Hplain).
    unfold find_by_query, NodeIdentifier_init.
    rewrite parse_render by assumption. simpl.
    destruct (search_finds (node_identifier n) t n Hn) as [r Hr].
    { destruct n as [i d cs nid]. now apply subset_match_self. }
    destruct (search_valid _ t r Hr) as [m [Hm Hmatch]].
    pose proof (search_outcome (node_identifier n) t) as Ho. rewrite Hr in Ho.
    destruct Ho as [m' [Hm' Hfind]]. rewrite Hm in Hm'. injection Hm' as <-.
    apply find_some in Hfind as [Hin _].
    exists r, m. repeat split; try assumption.
    + now rewrite Hr.
    + apply subset_match_incl; [|assumption].
      now destruct (Hshape m Hin) as (_ & Hndm & _).
Qed.

Lemma find_by_query_own_identifier_witness :
  find_by_query two_branches (NodeIdentifier_str (node_identifier two_branches))
  = Ok (Some []).
Proof.
  apply (find_by_query_own_identifier two_branches). reflexivity.
Defined.

(** ** The exported structure when siblings have distinct last pairs *)

(** X17: when the children of a node have pairwise distinct current-level
    identifiers, the mapping [get_tree_structure] returns has one entry per
    child, in the order of the children: the key is the child's
    current-level identifier, the value the child's exported structure. *)
Theorem get_tree_structure_ordered (t : TreeNode) :
  identified t = true ->
  children t <> [] ->
  NoDup (map level_of (children t)) ->
  exists m,
    get_tree_structure t = Ok (Mapping m) /\
    Forall2 (fun c kv => level_of c = Ok (fst kv) /\ get_tree_structure c = Ok (snd kv))
            (children t) m.
Proof.
  destruct t as [i d cs nid]. simpl children. intros Hid Hne Hnd.
  apply identified_inv in Hid as [_ Hcs].
  destruct (exported_pairs _ Hcs) as [pairs Hp].
  assert (Hkeys : map level_of cs = map (fun kv => Ok (fst kv)) pairs).
  { clear -Hp. induction Hp as [|c kv cs pairs [_ Hk] _ IH]; [reflexivity|].
    simpl. now rewrite Hk, IH. }
  assert (Hfresh : NoDup (Dict.keys pairs)).
  { rewrite Hkeys in Hnd. unfold Dict.keys.
    rewrite <- (map_map fst (fun k => @Ok string k)) in Hnd.
    now apply NoDup_map_inv in Hnd. }
  exists pairs. split.
  - rewrite get_tree_structure_node. destruct cs as [|c0 cs0]; [congruence|].
    rewrite (fill_dict_assign _ _ _ pairs) by exact Hp. simpl.
    change (fold_left Dict.assign pairs []) with (Dict.of_pairs pairs).
    now rewrite of_pairs_fresh.
  - clear -Hp. induction Hp as [|c kv cs pairs [Hv Hk] _ IH]; constructor; auto.
Qed.

Lemma get_tree_structure_ordered_witness :
  exists m,
    get_tree_structure two_branches = Ok (Mapping m) /\
    Forall2 (fun c kv => level_of c = Ok (fst kv) /\ get_tree_structure c = Ok (snd kv))
            (children two_branches) m.
Proof.
  apply (get_tree_structure_ordered two_branches).
  - reflexivity.
  - discriminate.
  - repeat constructor; simpl; intuition discriminate.
Defined.

(** ** What [print_tree] prints *)

Lemma line_of_deeper (indent step label line : string) :
  line_of (indent ++ step) label line -> line_of indent label line.
Proof.
  intros (pad & b & ->). exists (step ++ pad)%string, b.
  now rewrite !string_append_assoc.
Qed.

Lemma print_tree_children (indent : string) (g : nat -> bool) (cs : list TreeNode)
      (i0 : nat) :
  Forall (fun c => forall ind l,
              Forall2 (fun line n => line_of ind (NodeIdentifier_str (node_identifier n)) line)
                      (print_tree ind l c) (preorder c)) cs ->
  Forall2 (fun line n => line_of indent (NodeIdentifier_str (node_identifier n)) line)
          (List.concat (mapi (fun i child => print_tree indent (g i) child) i0 cs))
          (flat_map preorder cs).
Proof.
  intros H. revert i0. induction H as [|c cs Hc _ IH]; intros i0; [constructor|].
  simpl. apply Forall2_app; [apply Hc | apply IH].
Qed.

(** X18: [print_tree] prints one line per node, in pre-order; each line is
    the indentation, one of the two marks and the rendered identifier of
    its node, and the first line is the root's, with the indentation and
    the mark of the call. *)
Theorem print_tree_lines (indent : string) (last : bool) (t : TreeNode) :
  Forall2 (fun line n => line_of indent (NodeIdentifier_str (node_identifier n)) line)
          (print_tree indent last t) (preorder t) /\
  hd_error (print_tree indent last t)
  = Some (indent ++ branch_mark last ++ NodeIdentifier_str (node_identifier t))%string.
Proof.
  split; [|destruct t; reflexivity].
  revert indent last. induction t as [i d cs nid IH] using TreeNode_induction.
  intros indent last. rewrite preorder_node. simpl print_tree. constructor.
  - exists ""%string, last. reflexivity.
  - eapply Forall2_impl; [|apply (print_tree_children _ _ cs 0 IH)].
    intros line n. apply line_of_deeper.
Qed.

Example print_tree_family :
  print_tree "" true family
  = ["└── o=root"; "    └── o=root,m=a"; "        └── o=root,m=a,c=1"].
Proof. reflexivity. Qed.

(** ** The part of an identifier that [print_tree_no_ident] shows *)

Lemma existsb_eqb_In (x : string) (l : list string) :
  existsb (String.eqb x) l = true <-> In x l.
Proof.
  rewrite existsb_exists. split.
  - intros [y [Hin Heq]]. apply String.eqb_eq in Heq. now subst.
  - intros Hin. exists x. split; [assumption | apply String.eqb_refl].
Qed.

Lemma set_minus_new (a b : list string) (x : string) :
  incl a b -> ~ In x b ->
  set_minus (set_of (a ++ [x])) b = [x].
Proof.
  unfold set_minus, set_of. intros Hincl Hx.
  induction a as [|y a IH]; simpl.
  - destruct (existsb (String.eqb x) b) eqn:E; [|reflexivity].
    apply existsb_eqb_In in E. contradiction.
  - assert (Hy : existsb (String.eqb y) b = true).
    { apply existsb_eqb_In, Hincl. now left. }
    assert (IH' := IH (fun z Hz => Hincl z (or_intror Hz))).
    destruct (in_dec string_dec y (a ++ [x])); simpl; [exact IH'|].
    rewrite Hy. exact IH'.
Qed.

Lemma render_pair_not_empty (kv : string * string) : render_pair kv <> "".
Proof. unfold render_pair. destruct (fst kv); discriminate. Qed.

Lemma rendered_not_empty (l : list (string * string)) :
  l <> [] -> forallb plain_pair l = true -> NodeIdentifier_str l <> "".
Proof.
  intros Hne Hplain E. rewrite forallb_forall in Hplain.
  assert (Hs : PyStr.split comma (NodeIdentifier_str l) = map render_pair l).
  { unfold NodeIdentifier_str. change "," with (String comma "").
    apply split_join; [destruct l; [congruence | discriminate]|].
    apply Forall_forall. intros w Hw. apply in_map_iff in Hw as [kv [<- Hin]].
    apply render_pair_no_comma. now apply Hplain. }
  rewrite E in Hs. destruct l as [|kv l]; [congruence|].
  simpl in Hs. injection Hs as Hs _. symmetry in Hs.
  now apply render_pair_not_empty in Hs.
Qed.

Lemma split_rendered (l : list (string * string)) :
  l <> [] -> forallb plain_pair l = true ->
  PyStr.split comma (NodeIdentifier_str l) = map render_pair l.
Proof.
  intros Hne Hplain. rewrite forallb_forall in Hplain.
  unfold NodeIdentifier_str. change "," with (String comma "").
  apply split_join; [destruct l; [congruence | discriminate]|].
  apply Forall_forall. intros w Hw. apply in_map_iff in Hw as [kv [<- Hin]].
  apply render_pair_no_comma. now apply Hplain.
Qed.

Lemma unique_part_of_child (self : TreeNode) (parent_items : NodeIdentifier)
      (own : string * string) :
  node_identifier self = parent_items ++ [own] ->
  parent_items <> [] ->
  NoDup (Dict.keys (node_identifier self)) ->
  forallb plain_pair (node_identifier self) = true ->
  _get_unique_part_of_identifier self (Some (NodeIdentifier_str parent_items))
  = render_pair own.
Proof.
  intros Hsplit Hne Hnd Hplain.
  assert (Hpp : forallb plain_pair parent_items = true).
  { rewrite Hsplit, forallb_app, andb_true_iff in Hplain. tauto. }
  assert (Hown : plain_pair own = true).
  { rewrite Hsplit, forallb_app, andb_true_iff in Hplain. simpl in Hplain.
    rewrite andb_true_r in Hplain. tauto. }
  unfold _get_unique_part_of_identifier.
  destruct (NodeIdentifier_str parent_items) as [|c p] eqn:Hp.
  { now apply rendered_not_empty in Hp. }
  rewrite <- Hp. unfold NodeIdentifier_items.
  change (PyStr.join "," (map render_pair (node_identifier self)))
    with (NodeIdentifier_str (node_identifier self)).
  rewrite (split_rendered parent_items Hne Hpp).
  rewrite (split_rendered (node_identifier self)); [| |assumption].
  2:{ rewrite Hsplit. destruct parent_items; discriminate. }
  rewrite Hsplit, map_app. simpl map.
  rewrite set_minus_new; [reflexivity | |].
  - intros x Hx. unfold set_of. now apply nodup_In.
  - unfold set_of. rewrite nodup_In. intros Hin.
    apply in_map_iff in Hin as [p0 [Heq Hin]].
    rewrite forallb_forall in Hpp.
    apply render_pair_injective in Heq; [|now apply Hpp | assumption]. subst p0.
    rewrite Hsplit in Hnd. unfold Dict.keys in Hnd. rewrite map_app in Hnd.
    simpl in Hnd. apply NoDup_remove_2 in Hnd. apply Hnd.
    rewrite app_nil_r. now apply in_map.
Qed.

(** X19: for a node whose identifier is that of its parent with one more
    pair, called with the rendered identifier of the parent,
    [_get_unique_part_of_identifier] returns that one pair rendered as
    ["k=v"], the current-level identifier; called with [None] or with the
    empty string it returns the whole rendered identifier. *)
Theorem unique_part_is_current_level (self : TreeNode) (parent_items : NodeIdentifier)
        (own : string * string) :
  node_identifier self = parent_items ++ [own] ->
  parent_items <> [] ->
  NoDup (Dict.keys (node_identifier self)) ->
  forallb plain_pair (node_identifier self) = true ->
  _get_unique_part_of_identifier self (Some (NodeIdentifier_str parent_items))
  = render_pair own /\
  level_of self = Ok (render_pair own) /\
  _get_unique_part_of_identifier self None = NodeIdentifier_str (node_identifier self) /\
  _get_unique_part_of_identifier self (Some "") = NodeIdentifier_str (node_identifier self).
Proof.
  intros Hsplit Hne Hnd Hplain.
  split; [|split; [|split; reflexivity]].
  - now apply unique_part_of_child.
  - unfold level_of. now apply (current_level_is_last_pair _ own parent_items).
Qed.

Lemma unique_part_is_current_level_witness :
  _get_unique_part_of_identifier
    (mkTreeNode 3%N [] [] [("o", "root"); ("m", "a"); ("c", "1")])
    (Some (NodeIdentifier_str [("o", "root"); ("m", "a")]))
  = render_pair ("c", "1").
Proof.
  apply (unique_part_is_current_level
           (mkTreeNode 3%N [] [] [("o", "root"); ("m", "a"); ("c", "1")])
           [("o", "root"); ("m", "a")] ("c", "1")).
  - reflexivity.
  - discriminate.
  - repeat constructor; simpl; intuition discriminate.
  - reflexivity.
Defined.

Lemma all_parsed_inv i d cs nid :
  all_parsed (mkTreeNode i d cs nid) = true ->
  parsed_shape nid = true /\ Forall (fun c => all_parsed c = true) cs.
Proof.
  unfold all_parsed. simpl. rewrite andb_true_iff. intros [Hn Hcs]. split; [assumption|].
  clear Hn. induction cs as [|c cs IH]; constructor; simpl in Hcs;
    rewrite forallb_app, andb_true_iff in Hcs; tauto.
Qed.

Lemma print_no_ident_children (ptext indent : string) (p : NodeIdentifier)
      (g : nat -> bool) (cs : list TreeNode) (i0 : nat) :
  Forall (fun c => forall ptext ind l,
              (exists p own, ptext = NodeIdentifier_str p /\ p <> [] /\
                             node_identifier c = p ++ [own]) ->
              all_parsed c = true -> chained c ->
              Forall2 (fun line n => exists lv, level_of n = Ok lv /\ line_of ind lv line)
                      (print_tree_no_ident (Some ptext) ind l c) (preorder c)) cs ->
  ptext = NodeIdentifier_str p -> p <> [] ->
  Forall (fun c => (exists own, node_identifier c = p ++ [own]) /\ chained c) cs ->
  Forall (fun c => all_parsed c = true) cs ->
  Forall2 (fun line n => exists lv, level_of n = Ok lv /\ line_of indent lv line)
          (List.concat (mapi (fun i child =>
                                print_tree_no_ident (Some ptext) indent (g i) child) i0 cs))
          (flat_map preorder cs).
Proof.
  intros IH Hp Hne Hch Hpa. revert i0.
  induction IH as [|c cs Hc _ IHcs]; intros i0; [constructor|].
  inversion Hch as [|? ? [[own Hown] Hchc] Hch']; subst.
  inversion Hpa as [|? ? Hpc Hpa']; subst.
  simpl. apply Forall2_app; [|now apply IHcs].
  apply Hc; try assumption. now exists p, own.
Qed.

Lemma print_tree_no_ident_node parent_identifier indent last i d cs nid :
  print_tree_no_ident parent_identifier indent last (mkTreeNode i d cs nid)
  = (indent ++ branch_mark last
            ++ _get_unique_part_of_identifier (mkTreeNode i d cs nid) parent_identifier)%string
      :: List.concat
           (mapi (fun i child =>
                    print_tree_no_ident (Some (NodeIdentifier_str nid))
                                        (indent ++ indent_step last)
                                        (Nat.eqb i (List.length cs - 1)) child)
                 0 cs).
Proof. reflexivity. Qed.

Lemma print_no_ident_child (c : TreeNode) :
  forall ptext ind l,
    (exists p own, ptext = NodeIdentifier_str p /\ p <> [] /\
                   node_identifier c = p ++ [own]) ->
    all_parsed c = true -> chained c ->
    Forall2 (fun line n => exists lv, level_of n = Ok lv /\ line_of ind lv line)
            (print_tree_no_ident (Some ptext) ind l c) (preorder c).
Proof.
  induction c as [i d cs nid IH] using TreeNode_induction.
  intros ptext ind l (p & own & -> & Hne & Hnid) Hpa Hch. simpl in Hnid.
  apply all_parsed_inv in Hpa as [Hshape Hpa].
  destruct (parsed_shape_inv nid Hshape) as (Hnn & Hnd & Hplain).
  inversion Hch as [? ? ? ? Hcs]; subst.
  rewrite preorder_node, print_tree_no_ident_node. constructor.
  - exists (render_pair own). split.
    + unfold level_of. simpl. now apply (current_level_is_last_pair _ own p).
    + exists ""%string, l.
      now rewrite (unique_part_of_child (mkTreeNode i d cs (p ++ [own])) p own).
  - eapply Forall2_impl;
      [|apply (print_no_ident_children _ _ (p ++ [own]) _ cs 0 IH eq_refl);
        try assumption].
    intros line n (lv & Hlv & Hline). exists lv. split; [assumption|].
    now apply line_of_deeper in Hline.
Qed.

(** X20: in a tree whose identifiers are parser outputs and where every
    child carries the identifier of its parent and one pair more,
    [print_tree_no_ident], started as the store starts it, prints the whole
    rendered identifier for the root and, for every other node in
    pre-order, a line with the node's current-level identifier. *)
Theorem print_tree_no_ident_lines (indent : string) (last : bool) (t : TreeNode) :
  all_parsed t = true -> chained t ->
  hd_error (print_tree_no_ident None indent last t)
  = Some (indent ++ branch_mark last ++ NodeIdentifier_str (node_identifier t))%string /\
  Forall2 (fun line n => exists lv, level_of n = Ok lv /\ line_of indent lv line)
          (tl (print_tree_no_ident None indent last t)) (tl (preorder t)).
Proof.
  destruct t as [i d cs nid]. intros Hpa Hch. split; [reflexivity|].
  apply all_parsed_inv in Hpa as [Hshape Hpa].
  destruct (parsed_shape_inv nid Hshape) as (Hnn & _ & _).
  inversion Hch as [? ? ? ? Hcs]; subst.
  rewrite preorder_node, print_tree_no_ident_node. simpl tl.
  eapply Forall2_impl;
    [|apply (print_no_ident_children _ _ nid _ cs 0); try assumption; try reflexivity].
  - intros line n (lv & Hlv & Hline). exists lv. split; [assumption|].
    now apply line_of_deeper in Hline.
  - apply Forall_forall. intros c _. apply print_no_ident_child.
Qed.

Lemma family_chained : chained family.
Proof.
  repeat (constructor; try (split; [eexists; reflexivity|])).
Qed.

Lemma print_tree_no_ident_lines_witness :
  hd_error (print_tree_no_ident None "" true family)
  = Some ("" ++ branch_mark true ++ NodeIdentifier_str (node_identifier family))%string /\
  Forall2 (fun line n => exists lv, level_of n = Ok lv /\ line_of "" lv line)
          (tl (print_tree_no_ident None "" true family)) (tl (preorder family)).
Proof.
  apply (print_tree_no_ident_lines "" true family); [reflexivity | exact family_chained].
Defined.

Example print_tree_no_ident_family :
  print_tree_no_ident None "" true family
  = ["└── o=root"; "    └── m=a"; "        └── c=1"].
Proof. reflexivity. Qed.

(** ** The store and its file *)

Lemma load_written (s0 : TreeDataBase) (fs : disk) (p : string)
      (blob : option TreeNode) (root_id : option string) (u : uuid) :
  p <> "" ->
  load_from_file s0 (file_write p blob fs) p root_id u
  = Ok (mkTreeDataBase blob (Some p), file_write p blob fs, true).
Proof.
  intros Hne. unfold load_from_file.
  destruct (String.eqb_spec p "") as [|_]; [contradiction|].
  unfold file_exists, file_read. simpl. rewrite String.eqb_refl. reflexivity.
Qed.

Lemma persisted_then_loaded (self self' : TreeDataBase) (fs fs' : disk) (p : string)
      (m : res (TreeNode * (bool * string))) (message : string) :
  db_path self = Some p -> p <> "" ->
  (' (r', (success, message)) <- m ;;
   let self' := mkTreeDataBase (Some r') (db_path self) in
   if success
   then fs' <- save_cb self' fs ;; Ok (self', fs', (success, message))
   else Ok (self', fs, (success, message)))
  = Ok (self', fs', (true, message)) ->
  forall s0 root_id u, load_from_file s0 fs' p root_id u = Ok (self', fs', true).
Proof.
  intros Hp Hne H s0 root_id u. rewrite (persist_after self fs p m Hp Hne) in H.
  destruct m as [[r' [[|] msg]]|e]; try discriminate.
  destruct (can_write p fs); [|discriminate].
  injection H as <- <- _. now apply load_written.
Qed.

(** X21: in a store with its root and a non-empty [db_path], after an
    [insert], [update] or [delete] that returns success, [load_from_file]
    on [db_path] gives back, to any store and whatever root identifier is
    passed, the store the mutation left: the same tree and the same path,
    with no further write. *)
Theorem mutation_then_load (self self' : TreeDataBase) (fs fs' : disk) (message : string) :
  Initialized self ->
  exists p,
    db_path self = Some p /\
    (forall u new_data text,
        insert self fs u new_data text = Ok (self', fs', (true, message)) ->
        forall s0 root_id u', load_from_file s0 fs' p root_id u' = Ok (self', fs', true)) /\
    (forall query new_data,
        update self fs query new_data = Ok (self', fs', (true, message)) ->
        forall s0 root_id u', load_from_file s0 fs' p root_id u' = Ok (self', fs', true)) /\
    (forall query,
        delete self fs query = Ok (self', fs', (true, message)) ->
        forall s0 root_id u', load_from_file s0 fs' p root_id u' = Ok (self', fs', true)).
Proof.
  intros (r & p & Hr & Hp & Hne). exists p. split; [assumption|].
  repeat split.
  - intros u new_data text. unfold insert. rewrite Hr.
    now apply persisted_then_loaded.
  - intros query new_data. unfold update. rewrite Hr.
    now apply persisted_then_loaded.
  - intros query. unfold delete. rewrite Hr.
    now apply persisted_then_loaded.
Qed.

Lemma mutation_then_load_witness :
  exists p,
    db_path sample_store = Some p /\
    forall s0 root_id u',
      load_from_file s0 (file_write "data.db" (Some root_only) empty_disk) p root_id u'
      = Ok (mkTreeDataBase (Some root_only) (Some "data.db"),
            file_write "data.db" (Some root_only) empty_disk, true).
Proof.
  destruct (mutation_then_load sample_store
              (mkTreeDataBase (Some root_only) (Some "data.db"))
              empty_disk (file_write "data.db" (Some root_only) empty_disk)
              "Node deleted successfully."
              sample_store_Initialized) as (p & Hp & _ & _ & Hdel).
  exists p. split; [exact Hp|].
  apply (Hdel "o=root,m=a"). reflexivity.
Defined.

(** X22: a [create_tree_db] that returns has parsed the identifier, was
    given a non-empty path that the file system lets it write, and leaves
    a store whose root is a single leaf with the given payload, written to
    the path; loading the path gives this store back, and a query with the
    identifier text returns the root. *)
Theorem create_tree_db_result (self self' : TreeDataBase) (fs fs' : disk)
        (path : string) (u : uuid) (d : payload) (text : string) :
  create_tree_db self fs path u d text = Ok (self', fs') ->
  exists nid,
    parse_identifier text = Ok nid /\
    path <> "" /\ can_write path fs = true /\
    self' = mkTreeDataBase (Some (mkTreeNode u d [] nid)) (Some path) /\
    fs' = file_write path (Some (mkTreeNode u d [] nid)) fs /\
    (forall s0 root_id u', load_from_file s0 fs' path root_id u' = Ok (self', fs', true)) /\
    query self' fs' text = Ok (self', fs', Some []).
Proof.
  unfold create_tree_db, TreeNode_init, NodeIdentifier_init, save_tree.
  destruct (parse_identifier text) as [nid|] eqn:Hd; simpl; [|discriminate].
  destruct (can_write path fs) eqn:Hw; simpl; [|discriminate].
  assert (Hne : path <> "").
  { unfold can_write in Hw. intros ->. discriminate Hw. }
  intros H. injection H as <- <-. exists nid.
  repeat split; try assumption.
  - intros s0 root_id u'. now apply load_written.
  - unfold query, find_by_query, NodeIdentifier_init. simpl. rewrite Hd. simpl.
    change (query_matches nid nid) with (subset_match nid (mkTreeNode u d [] nid)).
    rewrite subset_match_self; [reflexivity|].
    now apply parse_identifier_shape in Hd.
Qed.

Lemma create_tree_db_result_witness :
  exists nid,
    parse_identifier "o=root" = Ok nid /\
    "data.db" <> "" /\ can_write "data.db" empty_disk = true /\
    mkTreeDataBase (Some root_only) (Some "data.db")
    = mkTreeDataBase (Some (mkTreeNode 1%N [] [] nid)) (Some "data.db") /\
    file_write "data.db" (Some root_only) empty_disk
    = file_write "data.db" (Some (mkTreeNode 1%N [] [] nid)) empty_disk /\
    (forall s0 root_id u',
        load_from_file s0 (file_write "data.db" (Some root_only) empty_disk)
                       "data.db" root_id u'
        = Ok (mkTreeDataBase (Some root_only) (Some "data.db"),
              file_write "data.db" (Some root_only) empty_disk, true)) /\
    query (mkTreeDataBase (Some root_only) (Some "data.db"))
          (file_write "data.db" (Some root_only) empty_disk) "o=root"
    = Ok (mkTreeDataBase (Some root_only) (Some "data.db"),
          file_write "data.db" (Some root_only) empty_disk, Some []).
Proof.
  apply (create_tree_db_result TreeDataBase_init _ empty_disk _ "data.db" 1%N []
           "o=root").
  reflexivity.
Defined.





Example load_from_file_missing :
  load_from_file TreeDataBase_init empty_disk "data.db" (Some "o=root") 1%N
  = Ok (mkTreeDataBase (Some root_only) (Some "data.db"),
        file_write "data.db" (Some root_only) empty_disk, true) /\
  load_from_file TreeDataBase_init empty_disk "data.db" None 1%N
  = Ok (mkTreeDataBase None (Some "data.db"), empty_disk, false) /\
  load_from_file TreeDataBase_init (mkDisk [] ["db/data.db"]) "db/data.db"
                 (Some "o=root") 1%N
  = Raise OSError /\
  load_from_file TreeDataBase_init empty_disk "data.db" (Some "root") 1%N
  = Raise ValueError.
Proof. repeat split; reflexivity. Qed.

(** The shape shared by the three mutations when the store has no usable
    [db_path]. *)
Lemma unsaved_after (self : TreeDataBase) (fs : disk)
      (m : res (TreeNode * (bool * string))) :
  db_path self = None \/ db_path self = Some "" ->
  (' (r', (success, message)) <- m ;;
   let self' := mkTreeDataBase (Some r') (db_path self) in
   if success
   then fs' <- save_cb self' fs ;; Ok (self', fs', (success, message))
   else Ok (self', fs, (success, message)))
  = match m with
    | Ok (r', (success, message)) =>
        match db_path self with
        | None => if success then Raise AttributeError
                  else Ok (mkTreeDataBase (Some r') None, fs, (false, message))
        | Some _ => Ok (mkTreeDataBase (Some r') (Some ""), fs, (success, message))
        end
    | Raise e => Raise e
    end.
Proof.
  intros Hp. destruct m as [[r' [success message]]|e]; simpl; [|reflexivity].
  unfold save_cb. simpl.
  destruct Hp as [-> | ->]; destruct success; reflexivity.
Qed.

(** X24: a store with a root and no usable [db_path] never writes.  When
    [db_path] was never assigned (the root put in by [pickle_obj_load]
    alone), an [insert], [update] or [delete] that succeeds on the tree
    raises [AttributeError] instead of returning, and one that fails
    returns its flag and message.  When [db_path] is the empty string, each
    of the three returns the flag and message of the operation on the tree,
    success included, and the files are as they were.  A store without a
    root raises [AttributeError] on every operation. *)
Theorem store_without_target (self : TreeDataBase) (r : TreeNode) (fs : disk) :
  root self = Some r ->
  db_path self = None \/ db_path self = Some "" ->
  let outcome (m : res (TreeNode * (bool * string))) :=
    match m with
    | Ok (r', (success, message)) =>
        match db_path self with
        | None => if success then Raise AttributeError
                  else Ok (mkTreeDataBase (Some r') None, fs, (false, message))
        | Some _ => Ok (mkTreeDataBase (Some r') (Some ""), fs, (success, message))
        end
    | Raise e => Raise e
    end in
  (forall u new_data text,
      insert self fs u new_data text = outcome (insert_node r u new_data text)) /\
  (forall text new_data,
      update self fs text new_data = outcome (update_node r text new_data)) /\
  (forall text, delete self fs text = outcome (delete_node r text)) /\
  (forall p u new_data text,
      insert (mkTreeDataBase None p) fs u new_data text = Raise AttributeError /\
      update (mkTreeDataBase None p) fs text new_data = Raise AttributeError /\
      delete (mkTreeDataBase None p) fs text = Raise AttributeError /\
      query (mkTreeDataBase None p) fs text = Raise AttributeError).
Proof.
  intros Hr Hp. cbv zeta. split; [|split; [|split]].
  - intros u new_data text. unfold insert. rewrite Hr. now apply unsaved_after.
  - intros text new_data. unfold update. rewrite Hr. now apply unsaved_after.
  - intros text. unfold delete. rewrite Hr. now apply unsaved_after.
  - intros p u new_data text. repeat split.
Qed.

Lemma store_without_target_witness :
  insert (mkTreeDataBase (Some family) (Some "")) (mkDisk [] ["data.db"]) 4%N []
         "o=root,m=b"
  = Ok (mkTreeDataBase
          (Some (add_child (mkTreeNode 4%N [] [] [("o", "root"); ("m", "b")]) family))
          (Some ""),
        mkDisk [] ["data.db"], (true, "Node inserted successfully.")) /\
  update (pickle_obj_load TreeDataBase_init (Some family)) empty_disk
         "o=root,m=a" [("meta1", "other")]
  = Raise AttributeError /\
  delete (pickle_obj_load TreeDataBase_init (Some family)) empty_disk "o=root,m=b"
  = Ok (pickle_obj_load TreeDataBase_init (Some family), empty_disk,
        (false, "Node not found.")).
Proof.
  split; [|split].
  - destruct (store_without_target (mkTreeDataBase (Some family) (Some ""))
                family (mkDisk [] ["data.db"]) eq_refl (or_intror eq_refl))
      as (Hins & _).
    rewrite Hins. reflexivity.
  - destruct (store_without_target (pickle_obj_load TreeDataBase_init (Some family))
                family empty_disk eq_refl (or_introl eq_refl))
      as (_ & Hupd & _).
    rewrite Hupd. reflexivity.
  - destruct (store_without_target (pickle_obj_load TreeDataBase_init (Some family))
                family empty_disk eq_refl (or_introl eq_refl))
      as (_ & _ & Hdel & _).
    rewrite Hdel. reflexivity.
Defined.

(** ** No two nodes with equal identifiers *)

Lemma pairwise_distinct_app (l1 l2 : list NodeIdentifier) :
  pairwise_distinct (l1 ++ l2)
  = pairwise_distinct l1 && pairwise_distinct l2
    && forallb (fun a => negb (existsb (NodeIdentifier_eq a) l2)) l1.
Proof.
  induction l1 as [|a l1 IH]; simpl.
  - now rewrite andb_true_r.
  - rewrite IH, existsb_app, negb_orb.
    destruct (existsb (NodeIdentifier_eq a) l1), (existsb (NodeIdentifier_eq a) l2),
      (pairwise_distinct l1), (pairwise_distinct l2); simpl; reflexivity.
Qed.

Lemma NodeIdentifier_eq_sym (a b : NodeIdentifier) :
  NoDup (Dict.keys a) -> NoDup (Dict.keys b) ->
  NodeIdentifier_eq a b = NodeIdentifier_eq b a.
Proof.
  intros Ha Hb. unfold NodeIdentifier_eq.
  destruct (Dict.eqb String.eqb a b) eqn:Hab, (Dict.eqb String.eqb b a) eqn:Hba;
    try reflexivity.
  - apply dict_eqb_same_pairs in Hab; try assumption.
    apply Permutation_sym in Hab. apply dict_eqb_same_pairs in Hab; try assumption.
    congruence.
  - apply dict_eqb_same_pairs in Hba; try assumption.
    apply Permutation_sym in Hba. apply dict_eqb_same_pairs in Hba; try assumption.
    congruence.
Qed.

Lemma pairwise_distinct_insert (before after : list NodeIdentifier) (d : NodeIdentifier) :
  NoDup (Dict.keys d) ->
  (forall a, In a before -> NoDup (Dict.keys a)) ->
  existsb (NodeIdentifier_eq d) (before ++ after) = false ->
  pairwise_distinct (before ++ after) = true ->
  pairwise_distinct (before ++ d :: after) = true.
Proof.
  intros Hd Hb Hnew. rewrite !pairwise_distinct_app. simpl.
  rewrite existsb_app in Hnew. apply orb_false_iff in Hnew as [Hnb Hna].
  rewrite !andb_true_iff. intros [[H1 H2] H3]. rewrite Hna. simpl.
  repeat split; try assumption.
  rewrite forallb_forall in *. intros a Hin. specialize (H3 a Hin).
  rewrite negb_orb, H3, andb_true_r. apply negb_true_iff.
  rewrite NodeIdentifier_eq_sym; [|now apply Hb | assumption].
  destruct (NodeIdentifier_eq d a) eqn:E; [|reflexivity].
  assert (existsb (NodeIdentifier_eq d) before = true); [|congruence].
  apply existsb_exists. eauto.
Qed.

Lemma pairwise_distinct_remove (before mid after : list NodeIdentifier) :
  pairwise_distinct (before ++ mid ++ after) = true ->
  pairwise_distinct (before ++ after) = true.
Proof.
  rewrite !pairwise_distinct_app, !andb_true_iff, !forallb_forall.
  intros [[H1 [[H2 H3] H4]] H5]. repeat split; try assumption.
  intros a Hin. specialize (H5 a Hin). rewrite existsb_app, negb_orb in H5.
  apply andb_true_iff in H5. tauto.
Qed.

(** X25: no two nodes of a tree built by the module have equal
    identifiers: a new root is alone, [insert_node] refuses an identifier
    equal to one in the tree, [update_node] changes no identifier and
    [delete_node] only removes nodes. *)
Theorem distinct_identifiers_kept :
  (forall u d text t, TreeNode_init u d text = Ok t -> distinct_identifiers t = true) /\
  (forall t,
      all_parsed t = true -> distinct_identifiers t = true ->
      (forall u new_data text t' result,
          insert_node t u new_data text = Ok (t', result) ->
          distinct_identifiers t' = true) /\
      (forall query new_data t' result,
          update_node t query new_data = Ok (t', result) ->
          distinct_identifiers t' = true) /\
      (forall query t' result,
          delete_node t query = Ok (t', result) ->
          distinct_identifiers t' = true)).
Proof.
  split.
  - intros u d text t. unfold TreeNode_init.
    destruct (NodeIdentifier_init text); simpl; [|discriminate].
    intros H. now injection H as <-.
  - intros t Hparsed Hdist. unfold distinct_identifiers in *.
    assert (Hshape : forall nid, In nid (_extract_node_identifiers t) ->
                                 NoDup (Dict.keys nid)).
    { intros nid Hin. unfold all_parsed in Hparsed. rewrite forallb_forall in Hparsed.
      now apply parsed_shape_inv, Hparsed. }
    split; [|split].
    + intros u new_data text t' [[|] message] Hins.
      * destruct (insert_node_success _ _ _ _ _ _ Hins)
          as (d & r & parent & Hd & Hdup & Hat & ->).
        destruct (add_child_listing r t parent u new_data d Hat)
          as (before & after & H1 & H2).
        rewrite extract_listing, H1, map_app in Hdup, Hdist, Hshape.
        rewrite extract_listing, H2, map_app. simpl.
        apply pairwise_distinct_insert; try assumption.
        -- now apply parse_identifier_shape in Hd.
        -- intros a Hin. apply Hshape. apply in_or_app. now left.
      * now rewrite (insert_node_failure _ _ _ _ _ _ Hins).
    + intros query new_data t' result. unfold update_node.
      destruct (find_by_query t query) as [[r|]|e]; simpl; try discriminate;
        intros H; injection H as <- _; [|assumption].
      now rewrite set_data_identifiers.
    + intros query t' result Hdel.
      assert (Hid : identified t = true).
      { unfold identified. apply forallb_forall. intros nid Hin.
        unfold all_parsed in Hparsed. rewrite forallb_forall in Hparsed.
        destruct (parsed_shape_inv nid (Hparsed nid Hin)) as [Hne _].
        destruct nid; [congruence | reflexivity]. }
      destruct (parse_identifier query) as [q|e] eqn:Hq.
      * destruct (parsed_current_level query q Hq) as [c0 Hc0].
        rewrite (delete_node_outcome t query q c0 Hid Hq Hc0) in Hdel.
        destruct (_search q t) as [found|]; [|injection Hdel as <- _; assumption].
        destruct (first_child_at_level c0 t) as [r|] eqn:Hfirst;
          injection Hdel as <- _; [|assumption].
        apply find_some in Hfirst as [Hin Hholds].
        apply tl_refs_not_root in Hin.
        apply holds_at_valid in Hholds as [sub [Hsub _]].
        destruct (remove_at_drops_subtree r t sub Hin Hsub) as (before & after & H1 & H2).
        rewrite extract_listing, H1, !map_app in Hdist.
        rewrite extract_listing, H2, map_app.
        now apply pairwise_distinct_remove in Hdist.
      * unfold delete_node, find_by_query, NodeIdentifier_init in Hdel.
        rewrite Hq in Hdel. discriminate.
Qed.

Lemma distinct_identifiers_kept_witness : distinct_identifiers family_and_c1 = true.
Proof.
  destruct distinct_identifiers_kept as [_ Hkept].
  destruct (Hkept family) as [Hins _]; [reflexivity | reflexivity |].
  apply (Hins 4%N [] "o=root,c=1" family_and_c1 (true, "Node inserted successfully.")).
  reflexivity.
Defined.

(** ** Deleting what was just inserted *)

Lemma find_nothing {A} (P : A -> bool) (l : list A) :
  (forall a, In a l -> P a = false) -> find P l = None.
Proof.
  induction l as [|a l IH]; intros H; simpl; [reflexivity|].
  rewrite (H a) by now left. apply IH. intros b Hb. apply H. now right.
Qed.

Lemma tl_preorder_refs_nodes (t : TreeNode) :
  map (node_at t) (tl (preorder_refs t)) = map Some (tl (preorder t)).
Proof.
  pose proof (preorder_refs_nodes t) as H. destruct t. simpl in *. now injection H.
Qed.

Lemma delete_nothing_at_level (query : string) (q : NodeIdentifier) (c0 : string)
      (t : TreeNode) :
  parse_identifier query = Ok q ->
  get_current_level_identifier q = Ok c0 ->
  identified t = true ->
  (forall n, In n (tl (preorder t)) -> at_level c0 n = false) ->
  _delete_node query t = Ok (t, false).
Proof.
  intros Hq Hc0 Hid Hnone.
  rewrite (_delete_node_first_child_at_level query q c0 t Hq Hc0 Hid).
  unfold without_first_child_at_level, first_child_at_level.
  pose proof (find_refs_nodes (at_level c0) t _ _ (tl_preorder_refs_nodes t)) as H.
  destruct (find (holds_at (at_level c0) t) (tl (preorder_refs t))) as [r|];
    [|reflexivity].
  destruct H as [n [_ Hfind]]. rewrite (find_nothing _ _ Hnone) in Hfind. discriminate.
Qed.

Lemma delete_among_skip {A} (test : A -> res bool) (rec : A -> res (A * bool))
      (pre rest : list A) :
  Forall (fun c => test c = Ok false /\ rec c = Ok (c, false)) pre ->
  delete_among test rec (pre ++ rest)
  = (' (rest', b) <- delete_among test rec rest ;; Ok (pre ++ rest', b)).
Proof.
  induction 1 as [|c pre [Ht Hr] _ IH]; simpl.
  - destruct (delete_among test rec rest) as [[rest' b]|e]; reflexivity.
  - rewrite Ht, Hr. simpl. rewrite IH.
    destruct (delete_among test rec rest) as [[rest' b]|e]; reflexivity.
Qed.

Lemma children_in_tl_preorder i d cs nid (c n : TreeNode) :
  In c cs -> In n (preorder c) -> In n (tl (preorder (mkTreeNode i d cs nid))).
Proof.
  intros Hc Hn. simpl. apply in_flat_map. eauto.
Qed.

Lemma preorder_self (t : TreeNode) : In t (preorder t).
Proof. destruct t. now left. Qed.

Lemma in_tl_preorder (t n : TreeNode) : In n (tl (preorder t)) -> In n (preorder t).
Proof. destruct t. simpl. tauto. Qed.

Lemma children_miss (query : string) (q : NodeIdentifier) (c0 : string) i d nid
      (cs part : list TreeNode) :
  parse_identifier query = Ok q ->
  get_current_level_identifier q = Ok c0 ->
  Forall (fun c => identified c = true) cs ->
  (forall n, In n (tl (preorder (mkTreeNode i d cs nid))) -> at_level c0 n = false) ->
  incl part cs ->
  Forall (fun c => same_current_level query c = Ok false /\
                   _delete_node query c = Ok (c, false)) part.
Proof.
  intros Hq Hc0 Hcs Hnone Hincl. apply Forall_forall. intros c Hc.
  apply Hincl in Hc. rewrite Forall_forall in Hcs. split.
  - rewrite (same_current_level_at_level query q c0 c Hq Hc0)
      by (apply identified_root; auto).
    f_equal. apply Hnone. eapply children_in_tl_preorder; eauto using preorder_self.
  - apply (delete_nothing_at_level query q c0); auto.
    intros n Hn. apply Hnone.
    eapply children_in_tl_preorder; eauto using in_tl_preorder.
Qed.

Lemma delete_inserted (query : string) (q : NodeIdentifier) (c0 : string)
      (new : TreeNode) (r : ref) :
  parse_identifier query = Ok q ->
  get_current_level_identifier q = Ok c0 ->
  node_identifier new <> [] -> at_level c0 new = true ->
  forall t parent,
    node_at t r = Some parent ->
    identified t = true ->
    (forall n, In n (tl (preorder t)) -> at_level c0 n = false) ->
    _delete_node query (modify_at (add_child new) r t) = Ok (t, true).
Proof.
  intros Hq Hc0 Hnew Hlevel.
  induction r as [|k r IH]; intros [i d cs nid] parent Hat Hid Hnone.
  - apply identified_inv in Hid as [_ Hcs].
    pose proof (children_miss query q c0 i d nid cs cs Hq Hc0 Hcs Hnone (incl_refl _))
      as Hmiss.
    change (modify_at (add_child new) [] (mkTreeNode i d cs nid))
      with (mkTreeNode i d (cs ++ [new]) nid).
    simpl _delete_node. rewrite (delete_among_skip _ _ cs [new] Hmiss).
    simpl delete_among.
    rewrite (same_current_level_at_level query q c0 new Hq Hc0 Hnew), Hlevel.
    simpl. now rewrite app_nil_r.
  - simpl in Hat. destruct (nth_error cs k) as [c|] eqn:Hk; [|discriminate].
    apply nth_error_split in Hk as (pre & post & -> & <-).
    pose proof Hid as Hid'. apply identified_inv in Hid' as [_ Hcs].
    assert (Hmiss : Forall (fun c => same_current_level query c = Ok false /\
                                     _delete_node query c = Ok (c, false)) pre).
    { apply (children_miss query q c0 i d nid (pre ++ c :: post) pre Hq Hc0 Hcs Hnone).
      apply incl_appl, incl_refl. }
    assert (Hc : identified c = true).
    { rewrite Forall_forall in Hcs. apply Hcs. apply in_or_app. right. now left. }
    rewrite modify_at_child. simpl _delete_node.
    rewrite (delete_among_skip _ _ pre _ Hmiss). simpl delete_among.
    rewrite (same_current_level_at_level query q c0 _ Hq Hc0)
      by (rewrite modify_at_root; [now apply identified_root | reflexivity]).
    assert (Hsame : at_level c0 (modify_at (add_child new) r c) = false).
    { unfold at_level, level_of. rewrite modify_at_root by reflexivity.
      apply (Hnone c). eapply children_in_tl_preorder;
        [apply in_or_app; right; now left | apply preorder_self]. }
    rewrite Hsame. simpl.
    rewrite (IH c parent Hat Hc).
    + reflexivity.
    + intros n Hn. apply Hnone. eapply children_in_tl_preorder;
        [apply in_or_app; right; now left | now apply in_tl_preorder].
Qed.

(** X26: inserting a node and then deleting with the same text gives the
    tree back, provided no node below the root had the last pair of the
    new identifier as its own last pair: [delete_node] then removes the
    node just inserted and reports success. *)
Theorem insert_then_delete (t t' : TreeNode) (u : uuid) (new_data : payload)
        (text message : string) (d : NodeIdentifier) (c0 : string) :
  insert_node t u new_data text = Ok (t', (true, message)) ->
  identified t = true ->
  parse_identifier text = Ok d ->
  get_current_level_identifier d = Ok c0 ->
  (forall n, In n (tl (preorder t)) -> at_level c0 n = false) ->
  delete_node t' text = Ok (t, (true, "Node deleted successfully.")).
Proof.
  intros Hins Hid Hd Hc0 Hnone.
  destruct (insert_node_success _ _ _ _ _ _ Hins)
    as (d' & r & parent & Hd' & _ & Hat & ->).
  rewrite Hd in Hd'. injection Hd' as <-.
  destruct (parse_identifier_shape text d Hd) as (Hne & Hnd & _).
  set (new := mkTreeNode u new_data [] d).
  destruct (add_child_nodes r t parent new Hat eq_refl) as [Hnew _].
  destruct (search_finds d _ new Hnew (subset_match_self d u new_data [] Hnd))
    as [found Hfound].
  unfold delete_node, find_by_query, NodeIdentifier_init. rewrite Hd. simpl.
  rewrite Hfound.
  rewrite (delete_inserted text d c0 new r Hd Hc0 Hne) with (parent := parent);
    try assumption; [reflexivity|].
  unfold at_level, level_of. simpl. rewrite Hc0. apply String.eqb_refl.
Qed.

Lemma insert_then_delete_witness :
  delete_node
    (modify_at (add_child (mkTreeNode 5%N [] [] [("o", "root"); ("m", "b")])) [] family)
    "o=root,m=b"
  = Ok (family, (true, "Node deleted successfully.")).
Proof.
  apply (insert_then_delete family _ 5%N [] "o=root,m=b" "Node inserted successfully."
           [("o", "root"); ("m", "b")] "m=b"); try reflexivity.
  intros n [<-|[<-|[]]]; reflexivity.
Defined.

(** ** The last pair of an identifier *)

Lemma last_pair_snoc (before : list (string * string)) (own : string * string) :
  last_pair (before ++ [own]) = Some own.
Proof. unfold last_pair. now rewrite rev_app_distr. Qed.

(** On an identifier the parser can have returned, the current-level
    identifier is the rendering of the last pair. *)
Lemma parsed_shape_last (nid : NodeIdentifier) :
  parsed_shape nid = true ->
  exists before own,
    nid = before ++ [own] /\ plain_pair own = true /\
    last_pair nid = Some own /\
    get_current_level_identifier nid = Ok (render_pair own).
Proof.
  intros H. apply parsed_shape_inv in H as (Hne & Hnd & Hplain).
  destruct (exists_last Hne) as (before & own & ->).
  exists before, own. split; [reflexivity|]. split; [|split].
  - rewrite forallb_app in Hplain. apply andb_true_iff in Hplain as [_ H].
    simpl in H. now rewrite andb_true_r in H.
  - apply last_pair_snoc.
  - now apply (current_level_is_last_pair _ own before).
Qed.

Lemma node_at_preorder (t n : TreeNode) (r : ref) :
  node_at t r = Some n -> In n (preorder t).
Proof.
  revert t. induction r as [|k r IH]; intros t H.
  - simpl in H. injection H as <-. apply preorder_self.
  - destruct t as [i d cs nid]. simpl in H.
    destruct (nth_error cs k) as [c|] eqn:Hk; [|discriminate].
    right. apply in_flat_map. exists c. split; [|now apply IH].
    eapply nth_error_In; eassumption.
Qed.

Lemma all_parsed_node (t n : TreeNode) :
  all_parsed t = true -> In n (preorder t) ->
  parsed_shape (node_identifier n) = true.
Proof.
  unfold all_parsed. rewrite forallb_forall, extract_preorder. intros H Hn.
  apply H. now apply in_map.
Qed.

Lemma all_parsed_identified (t : TreeNode) :
  all_parsed t = true -> identified t = true.
Proof.
  unfold all_parsed, identified. rewrite !forallb_forall. intros H nid Hin.
  specialize (H nid Hin). unfold parsed_shape in H.
  rewrite !andb_true_iff in H. tauto.
Qed.

Lemma at_level_ends_with (own : string * string) (n : TreeNode) :
  plain_pair own = true -> parsed_shape (node_identifier n) = true ->
  at_level (render_pair own) n = ends_with own n.
Proof.
  intros Hown Hn.
  destruct (parsed_shape_last _ Hn) as (before & kv & _ & Hkv & Hlast & Hlevel).
  unfold at_level, level_of, ends_with. rewrite Hlevel, Hlast.
  destruct (String.eqb_spec (render_pair kv) (render_pair own)) as [E|E].
  - apply render_pair_injective in E; [|assumption|assumption]. subst kv.
    now rewrite !String.eqb_refl.
  - destruct (String.eqb_spec (fst kv) (fst own)) as [E1|]; [|reflexivity].
    destruct (String.eqb_spec (snd kv) (snd own)) as [E2|]; [|reflexivity].
    destruct kv, own. simpl in *. subst. contradiction.
Qed.

Lemma first_child_at_level_ending_with (own : string * string) (t : TreeNode) :
  plain_pair own = true -> all_parsed t = true ->
  first_child_at_level (render_pair own) t = first_child_ending_with own t.
Proof.
  intros Hown Hall. unfold first_child_at_level, first_child_ending_with.
  apply find_same. intros r. unfold holds_at.
  destruct (node_at t r) as [n|] eqn:Hn; [|reflexivity].
  apply at_level_ends_with; [assumption|].
  eapply all_parsed_node; eauto using node_at_preorder.
Qed.

Lemma level_of_last_pair_text (n : TreeNode) (k : string) :
  parsed_shape (node_identifier n) = true ->
  (level_of n = Ok k <-> last_pair_text n = Some k).
Proof.
  intros Hn.
  destruct (parsed_shape_last _ Hn) as (before & kv & _ & _ & Hlast & Hlevel).
  unfold level_of, last_pair_text. rewrite Hlevel, Hlast. simpl.
  split; intros H; injection H as <-; reflexivity.
Qed.

Lemma all_parsed_root (t : TreeNode) :
  all_parsed t = true -> parsed_shape (node_identifier t) = true.
Proof. intros H. apply (all_parsed_node t t H), preorder_self. Qed.

(** ** C3: which child [delete_node] removes *)

(** C3: in a tree whose identifiers are parsed ones, when some node
    subset-matches the query, [delete_node] looks at the last pair of the
    query alone: it removes the first node, in pre-order from the children
    of the root on, whose identifier ends with that pair, whatever the
    pairs before it, and reports success; the listing of the tree loses
    the contiguous run of that node and of everything below it, and
    nothing else.  When no node below the root ends with that pair nothing
    is removed and the answer is not-found. *)
Theorem delete_node_removes_first_child_at_level (t : TreeNode) (query : string)
        (found : ref) :
  all_parsed t = true ->
  find_by_query t query = Ok (Some found) ->
  exists q own,
    parse_identifier query = Ok q /\
    last_pair q = Some own /\
    match first_child_ending_with own t with
    | Some r =>
        delete_node t query = Ok (remove_at r t, (true, "Node deleted successfully.")) /\
        exists sub before after,
          r <> [] /\ node_at t r = Some sub /\ last_pair (node_identifier sub) = Some own /\
          get_all_children t = before ++ get_all_children sub ++ after /\
          get_all_children (remove_at r t) = before ++ after
    | None => delete_node t query = Ok (t, (false, "Node not found."))
    end.
Proof.
  intros Hall Hfound. unfold find_by_query, NodeIdentifier_init in Hfound.
  destruct (parse_identifier query) as [q|] eqn:Hq; simpl in Hfound; [|discriminate].
  injection Hfound as Hfound.
  destruct (parsed_shape_last q (parsed_shape_of_parse query q Hq))
    as (before & own & _ & Hown & Hlast & Hlevel).
  exists q, own. split; [reflexivity | split; [assumption|]].
  pose proof (delete_node_outcome t query q (render_pair own)
                (all_parsed_identified t Hall) Hq Hlevel) as Hout.
  rewrite Hfound, (first_child_at_level_ending_with own t Hown Hall) in Hout.
  destruct (first_child_ending_with own t) as [r|] eqn:Hfirst; [|assumption].
  split; [assumption|].
  apply find_some in Hfirst as [Hin Hholds].
  apply tl_refs_not_root in Hin.
  apply holds_at_valid in Hholds as [sub [Hsub Hends]].
  destruct (remove_at_drops_subtree r t sub Hin Hsub) as (b & a & H1 & H2).
  exists sub, b, a. repeat split; try assumption.
  unfold ends_with in Hends.
  destruct (last_pair (node_identifier sub)) as [[k v]|]; [|discriminate].
  apply andb_true_iff in Hends as [Hk Hv].
  apply String.eqb_eq in Hk, Hv. destruct own. simpl in *. now subst.
Qed.

Lemma delete_node_removes_first_child_at_level_witness :
  all_parsed two_branches = true /\
  find_by_query two_branches "o=root,m=b,c=x" = Ok (Some [1; 0]) /\
  exists q own,
    parse_identifier "o=root,m=b,c=x" = Ok q /\
    last_pair q = Some own /\
    match first_child_ending_with own two_branches with
    | Some r =>
        delete_node two_branches "o=root,m=b,c=x"
        = Ok (remove_at r two_branches, (true, "Node deleted successfully.")) /\
        exists sub before after,
          r <> [] /\ node_at two_branches r = Some sub /\
          last_pair (node_identifier sub) = Some own /\
          get_all_children two_branches = before ++ get_all_children sub ++ after /\
          get_all_children (remove_at r two_branches) = before ++ after
    | None =>
        delete_node two_branches "o=root,m=b,c=x"
        = Ok (two_branches, (false, "Node not found."))
    end.
Proof.
  split; [reflexivity | split; [reflexivity|]].
  apply (delete_node_removes_first_child_at_level two_branches "o=root,m=b,c=x" [1; 0]);
    reflexivity.
Defined.

Example first_child_ending_with_two_branches :
  first_child_ending_with ("c", "x") two_branches = Some [0; 0] /\
  first_child_ending_with ("m", "b") two_branches = Some [1] /\
  first_child_ending_with ("o", "root") two_branches = None.
Proof. repeat split. Qed.

(** ** C9: the keys and values of [get_tree_structure] *)

(** C9 as stated fails on [twins], a tree that three inserts build: two
    children of the root have the current-level identifier ["m=a"]; the
    mapping has the one key ["m=a"], mapped to the exported structure of
    the second of them, and the exported structure of the first is
    nowhere in it. *)
Lemma get_tree_structure_shadows_sibling :
  (exists t0 t1 t2,
      TreeNode_init 1%N [] "o=root,k=1" = Ok t0 /\
      insert_node t0 2%N [] "o=root,m=a" = Ok (t1, (true, "Node inserted successfully.")) /\
      insert_node t1 3%N [] "o=root,m=a,c=1"
      = Ok (t2, (true, "Node inserted successfully.")) /\
      insert_node t2 4%N [] "o=root,k=1,m=a"
      = Ok (twins, (true, "Node inserted successfully."))) /\
  exists m first second,
    get_tree_structure twins = Ok (Mapping m) /\
    Dict.keys m = ["m=a"] /\
    children twins = [first; second] /\
    get_current_level_identifier (node_identifier first) = Ok "m=a" /\
    get_current_level_identifier (node_identifier second) = Ok "m=a" /\
    get_tree_structure first = Ok (Mapping [("c=1", EmptyList)]) /\
    get_tree_structure second = Ok EmptyList /\
    Dict.get "m=a" m = Some EmptyList /\
    Dict.get "m=a" m <> Some (Mapping [("c=1", EmptyList)]).
Proof.
  split.
  - eexists _, _, _. repeat split.
  - eexists _, _, _. repeat split. discriminate.
Qed.

(** C9, amended: a node without children exports as the empty list; a node
    with children exports as a mapping whose keys are exactly the last
    pairs of its children's identifiers, rendered as ["k=v"], and every
    key is mapped to the exported structure of the last child, in the
    order of the children, that ends with this pair: a child appears in
    the mapping with its own exported structure exactly when no later
    sibling ends with the same pair. *)
Theorem get_tree_structure_keys (t : TreeNode) :
  all_parsed t = true ->
  match children t with
  | [] => get_tree_structure t = Ok EmptyList
  | _ :: _ =>
      exists m,
        get_tree_structure t = Ok (Mapping m) /\
        (forall k, In k (Dict.keys m)
                   <-> exists c, In c (children t) /\ last_pair_text c = Some k) /\
        (forall k s,
            Dict.get k m = Some s
            <-> exists pre c post,
                children t = pre ++ c :: post /\
                last_pair_text c = Some k /\
                (forall c', In c' post -> last_pair_text c' <> Some k) /\
                get_tree_structure c = Ok s)
  end.
Proof.
  destruct t as [i d cs nid]. intros Hall. simpl children.
  destruct cs as [|c0 cs0]; [reflexivity|].
  apply all_parsed_inv in Hall as [_ Hcs].
  assert (Hshape : forall c, In c (c0 :: cs0) -> parsed_shape (node_identifier c) = true).
  { intros c Hc. rewrite Forall_forall in Hcs. now apply all_parsed_root, Hcs. }
  assert (Hid : Forall (fun c => identified c = true) (c0 :: cs0)).
  { eapply Forall_impl; [|exact Hcs]. intros c. apply all_parsed_identified. }
  destruct (exported_pairs _ Hid) as [pairs Hp].
  assert (Hlater : forall (post : list TreeNode) (post' : list (string * structure)) k,
             (forall c, In c post -> parsed_shape (node_identifier c) = true) ->
             Forall2 (fun c kv => get_tree_structure c = Ok (snd kv) /\
                                  level_of c = Ok (fst kv)) post post' ->
             (~ In k (Dict.keys post')
              <-> forall c', In c' post -> last_pair_text c' <> Some k)).
  { intros post post' k Hsh HF. split.
    - intros Hnin c' Hc' Hl. apply Hnin.
      destruct (Forall2_In_l _ _ _ _ HF Hc') as [kv [Hkv [_ Hl']]].
      apply (level_of_last_pair_text c' k (Hsh c' Hc')) in Hl.
      rewrite Hl in Hl'. injection Hl' as ->. now apply in_map.
    - intros Hnone Hin. apply in_map_iff in Hin as [kv [Hfst Hkv]].
      destruct (Forall2_In_r _ _ _ _ HF Hkv) as [c' [Hc' [_ Hl']]].
      apply (Hnone c' Hc').
      apply (level_of_last_pair_text c' k (Hsh c' Hc')). now rewrite Hl', Hfst. }
  exists (Dict.of_pairs pairs). split; [|split].
  - change (get_tree_structure (mkTreeNode i d (c0 :: cs0) nid))
      with (node_dict <- fill_dict level_of get_tree_structure (c0 :: cs0) [] ;;
            Ok (Mapping node_dict)).
    now rewrite (fill_dict_assign _ _ _ pairs).
  - intros k. unfold Dict.of_pairs. rewrite assign_all_keys. simpl. split.
    + intros [[]|Hin]. apply in_map_iff in Hin as [kv [<- Hkv]].
      destruct (Forall2_In_r _ _ _ _ Hp Hkv) as [c [Hc [_ Hl]]].
      exists c. split; [assumption|].
      now apply (level_of_last_pair_text c (fst kv) (Hshape c Hc)).
    + intros [c [Hc Hl]]. right.
      apply (level_of_last_pair_text c k (Hshape c Hc)) in Hl.
      destruct (Forall2_In_l _ _ _ _ Hp Hc) as [kv [Hkv [_ Hl']]].
      rewrite Hl in Hl'. injection Hl' as ->. now apply in_map.
  - intros k s. split.
    + intros Hg.
      assert (Hin : In k (Dict.keys pairs)).
      { apply get_In, of_pairs_In in Hg.
        apply in_map_iff. exists (k, s). split; [reflexivity | assumption]. }
      destruct (last_occurrence pairs k Hin) as (pre' & v & post' & Hsplit & Hnin).
      unfold Dict.of_pairs in Hg. rewrite Hsplit in Hg, Hp.
      rewrite (assign_all_get_last pre' post' [] k v Hnin) in Hg. injection Hg as ->.
      apply Forall2_app_inv_r in Hp as (pre & rest & _ & Hrest & Hcs').
      inversion Hrest as [|c ? post ? [Hs Hk] Hpost]; subst rest. simpl in Hs, Hk.
      exists pre, c, post. split; [assumption|].
      assert (Hpost_shape : forall c', In c' post -> parsed_shape (node_identifier c') = true).
      { intros c' Hc'. apply Hshape. rewrite Hcs'. apply in_or_app. right. now right. }
      split; [|split; [|assumption]].
      * apply level_of_last_pair_text; [|assumption].
        apply Hshape. rewrite Hcs'. apply in_or_app. right. now left.
      * now apply (Hlater post post' k Hpost_shape Hpost).
    + intros (pre & c & post & Hsplit & Hl & Hlast & Hs).
      assert (Hshape' : forall c', In c' (pre ++ c :: post) ->
                                   parsed_shape (node_identifier c') = true).
      { intros c' Hc'. apply Hshape. now rewrite Hsplit. }
      rewrite Hsplit in Hp.
      apply Forall2_app_inv_l in Hp as (pre' & rest & _ & Hrest & ->).
      inversion Hrest as [|? [k' s'] ? post' [Hs' Hk] Hpost]; subst. simpl in *.
      apply (level_of_last_pair_text c k) in Hl;
        [|apply Hshape'; apply in_or_app; right; now left].
      rewrite Hl in Hk. injection Hk as <-.
      rewrite Hs in Hs'. injection Hs' as <-.
      apply assign_all_get_last.
      apply (Hlater post post' k); [|assumption|assumption].
      intros c' Hc'. apply Hshape'. apply in_or_app. right. now right.
Qed.

Lemma get_tree_structure_keys_witness :
  all_parsed twins = true /\
  exists m,
    get_tree_structure twins = Ok (Mapping m) /\
    (forall k, In k (Dict.keys m)
               <-> exists c, In c (children twins) /\ last_pair_text c = Some k) /\
    (forall k s,
        Dict.get k m = Some s
        <-> exists pre c post,
            children twins = pre ++ c :: post /\
            last_pair_text c = Some k /\
            (forall c', In c' post -> last_pair_text c' <> Some k) /\
            get_tree_structure c = Ok s).
Proof.
  split; [reflexivity|].
  apply (get_tree_structure_keys twins). reflexivity.
Defined.
